(** * Action metadata, dependency graph and sequence of loopback-next

    A shallow embedding of [packages/core/src/action.ts]: key
    normalisation and the dependency extractor, the graph builder on top
    of the [topo] sorter, class inspection over the metadata registry, the
    two sorting entry points and the executor [Sequence.run]. *)

From Stdlib Require Import Ascii String NArith DecimalString.
From stdpp Require Import base option list sorting strings gmap.

(** ** Binding keys *)

Module Keys.

(** [String.prototype.split] for a one-character separator: the pieces
    between the separators, of which there is always at least one. *)
Fixpoint split (sep : ascii) (s : string) : list string :=
  match s with
  | EmptyString => [EmptyString]
  | String c s' =>
      if Ascii.eqb c sep then EmptyString :: split sep s'
      else match split sep s' with
           | h :: t => String c h :: t
           | [] => [String c EmptyString]
           end
  end.

(** [k.split('#')[0]]; [split] never returns the empty array, so index 0
    is always defined. *)
Definition strip (k : string) : string :=
  match split "#" k with
  | h :: _ => h
  | [] => EmptyString
  end.

(** [new Set(keys)] adds the keys one at a time; a key already in the set
    is left where it is.  [Array.from] lists the set in insertion order. *)
Definition Set_add (acc : list string) (k : string) : list string :=
  if bool_decide (k ∈ acc) then acc else acc ++ [k].

Definition Set_from (keys : list string) : list string :=
  foldl Set_add [] keys.

(** [normalizeKeys(keys?)]: [None] is the absent argument. *)
Definition normalizeKeys (keys : option (list string)) : list string :=
  let keys := default [] keys in
  let keys := map strip keys in
  Set_from keys.

(** An [Injection] as the extractor reads it: the binding key and whether
    [metadata && metadata.setter] is truthy. *)
Record Injection := mkInjection {
  bindingKey : string;
  setter : bool
}.

(** The fields of [ActionMetadata] the extractor touches. *)
Record KeyLists := mkKeyLists {
  kl_fulfills : list string;
  kl_dependsOn : list string
}.

(** [populateActionMetadata(actionMetadata, injections)] *)
Definition populateActionMetadata (actionMetadata : KeyLists)
    (injections : list Injection) : KeyLists :=
  let dependsOn :=
    map bindingKey (filter (λ p, setter p = false) injections) in
  let dependsOn := (dependsOn ++ kl_dependsOn actionMetadata)%list in
  let dependsOn' := normalizeKeys (Some dependsOn) in
  let fulfills :=
    map bindingKey (filter (λ p, setter p = true) injections) in
  let fulfills := (fulfills ++ kl_fulfills actionMetadata)%list in
  {| kl_dependsOn := dependsOn'; kl_fulfills := normalizeKeys (Some fulfills) |}.

(** *** What the specification says about normalisation *)

(** The part of a key before its first ['#']. *)
Fixpoint base_name (k : string) : string :=
  match k with
  | EmptyString => EmptyString
  | String c k' => if Ascii.eqb c "#" then EmptyString else String c (base_name k')
  end.

(** First-seen deduplication: an element stays at its first occurrence and
    the later ones go. *)
Fixpoint dedup_first (l : list string) : list string :=
  match l with
  | [] => []
  | x :: l' => x :: filter (λ y, y ≠ x) (dedup_first l')
  end.

Fixpoint has_hash (k : string) : bool :=
  match k with
  | EmptyString => false
  | String c k' => Ascii.eqb c "#" || has_hash k'
  end.

End Keys.

(** ** The sorter

    [const Topo = require('topo')]: the sorter is not part of
    [action.ts], which only calls [new Topo()], [graph.add(node, {group,
    before, after})], [graph.nodes] and [graph._items]. *)

Module Topo.

Inductive Error :=
  | DependencyError   (* the sorter rejects a contradictory constraint set *)
  | TypeError.        (* a property of [undefined] is read *)

Section Sorter.
Context {Node : Type}.

(** The [Item] interface quoted in [generateDot]: [seq], [before],
    [after], [group], [node]. *)
Record Item := mkItem {
  seq : nat;
  before : list string;
  after : list string;
  group : string;
  node : Node
}.

(** Modelled from the spec: the constraints of section 4.4, the sorter
    itself not being in [action.ts].  [p] has to come before [q] when
    [p] names the group of [q] in its [before] list, or [q] names the
    group of [p] in its [after] list. *)
Definition precedes (p q : Item) : bool :=
  bool_decide (group q ∈ before p) || bool_decide (group p ∈ after q).

(** Modelled from the spec: the dependency count of Kahn's algorithm
    (section 4.4) as a test.  All the items that have to come before [q]
    are placed. *)
Definition ready (all : list Item) (placed : list nat) (q : Item) : bool :=
  forallb (λ p, implb (precedes p q) (bool_decide (seq p ∈ placed))) all.

(** Modelled from the spec: the tie-break by insertion order of
    section 4.4.  The first ready item of the pending ones, which are
    kept in insertion order, and the pending items without it. *)
Fixpoint select (all : list Item) (placed : list nat) (pending : list Item)
    : option (Item * list Item) :=
  match pending with
  | [] => None
  | q :: rest =>
      if ready all placed q then Some (q, rest)
      else match select all placed rest with
           | Some (r, rest') => Some (r, q :: rest')
           | None => None
           end
  end.

(** Modelled from the spec: the Topological Sequencer of section 4.4, whose
    code ([topo]) is not in [action.ts].  One total order over all the
    nodes that respects every [before] and [after] list, ties broken by
    insertion order, by Kahn's algorithm: the earliest inserted item
    whose predecessors are all placed is placed next, once per item; when
    items remain and none of them is ready the constraints are
    contradictory and there is no order. *)
Fixpoint kahn (n : nat) (all : list Item) (placed : list nat)
    (pending : list Item) : option (list Item) :=
  match n with
  | 0 => match pending with [] => Some [] | _ :: _ => None end
  | S n' =>
      match select all placed pending with
      | Some (q, rest) =>
          match kahn n' all (seq q :: placed) rest with
          | Some out => Some (q :: out)
          | None => None
          end
      | None => None
      end
  end.

(** Modelled from the spec: the sort of section 4.4 over all the items
    of a graph. *)
Definition sort (items : list Item) : option (list Item) :=
  kahn (length items) items [] items.

(** Modelled from the spec: the constraint graph of section 3, as
    [action.ts] reads it.  [_items] holds the items (here in insertion
    order; [action.ts] only asks whether some item has a given group) and
    [nodes] the payloads in sorted order. *)
Record t := mkTopo {
  _items : list Item;
  nodes : list Node
}.

(** [new Topo()] *)
Definition new : t := {| _items := []; nodes := [] |}.

(** Modelled from the spec: a node-add operation of section 4.4.  The item
    takes the next insertion sequence number and the [before] and [after]
    lists as they are at the call; the order is computed anew, and a
    contradictory constraint set makes the call fail (section 7:
    no partial order is produced). *)
Definition add (graph : t) (n : Node) (g : string) (bef aft : list string)
    : Error + t :=
  let item := {| seq := length (_items graph); before := bef; after := aft;
                 group := g; node := n |} in
  let items := _items graph ++ [item] in
  match sort items with
  | Some sorted => inr {| _items := items; nodes := map node sorted |}
  | None => inl DependencyError
  end.

End Sorter.
Global Arguments Item : clear implicits.
Global Arguments t : clear implicits.
End Topo.

(** ** The metadata registry and the graph builder *)

Module Action.
Export Topo.

(** A reference to an object of the heap. *)
Abbreviation loc := nat (only parsing).

(** A class ([Constructor<any>]), known by its [name]. *)
Abbreviation Constructor := string (only parsing).

(** The [target] of a metadata record: the class itself (class level and
    static methods) or its prototype (instance methods). *)
Inductive Target :=
  | TClass (c : Constructor)
  | TProto (c : Constructor).

Global Instance Target_eq_dec : EqDecision Target.
Proof. solve_decision. Defined.

Global Instance Target_countable : Countable Target.
Proof.
  refine (inj_countable'
    (λ t, match t with TClass c => inl c | TProto c => inr c end)
    (λ s, match s with inl c => TClass c | inr c => TProto c end) _).
  by intros [].
Defined.

Record ActionMetadata := mkMeta {
  m_group : string;
  m_fulfills : list string;
  m_dependsOn : list string;
  m_target : Target
}.

Record ActionMethod := mkMethod {
  am_meta : ActionMetadata;
  method : string;
  bindsReturnValueAs : option string;
  actionClass : option loc;
  isStatic : bool
}.

(** An [ActionClass] as [inspectAction] builds it: the own properties
    copied from the class-level record ([None] when the class has none,
    [Object.assign({}, undefined)] being [{}]) and the [methods] object,
    whose properties are listed in enumeration order and hold references
    to the method records. *)
Record ActionClass := mkClass {
  ac_meta : option ActionMetadata;
  methods : list (string * loc)
}.

Inductive Object :=
  | OMeta (m : ActionMetadata)
  | OMethod (m : ActionMethod)
  | OClass (c : ActionClass).

(** What [Reflector] holds for the two metadata keys, and the objects the
    records live in.  [ACTION_KEY] on a class, [ACTION_KEY] on a target
    and a method, [ACTION_METHODS_KEY] on a target. *)
Record Reflector := mkReflector {
  heap : list Object;
  action_key : gmap Target loc;
  action_key_method : gmap (Target * string) loc;
  action_methods_key : gmap Target (list (string * loc))
}.

Definition empty_registry : Reflector :=
  {| heap := []; action_key := ∅; action_key_method := ∅;
     action_methods_key := ∅ |}.

(** A graph node is a binding key (a string) or a metadata object. *)
Inductive Node :=
  | NKey (k : string)
  | NObj (l : loc).

Global Instance Node_eq_dec : EqDecision Node.
Proof. solve_decision. Defined.

Definition Graph := Topo.t Node.

(** [graph._items.some(i => i.group === g)] *)
Definition exists_group (graph : Graph) (g : string) : bool :=
  existsb (λ i, bool_decide (group i = g)) (_items graph).

(** One of the two key loops of [addActionToGraph]: [for (const k of
    keys) if (!exists(k)) graph.add(k, {group: k})]. *)
Fixpoint add_keys (graph : Graph) (keys : list string) : Error + Graph :=
  match keys with
  | [] => inr graph
  | k :: keys' =>
      if exists_group graph k then add_keys graph keys'
      else match add graph (NKey k) k [] [] with
           | inr graph' => add_keys graph' keys'
           | inl e => inl e
           end
  end.

(** [addActionToGraph(graph, meta)]; [n] is the reference to [meta]. *)
Definition addActionToGraph (graph : Graph) (n : Node) (meta : ActionMetadata)
    : Error + Graph :=
  match add_keys graph (m_fulfills meta) with
  | inl e => inl e
  | inr graph1 =>
      match add_keys graph1 (m_dependsOn meta) with
      | inl e => inl e
      | inr graph2 =>
          add graph2 n (m_group meta) (m_fulfills meta) (m_dependsOn meta)
      end
  end.

(** [ActionGraph]: [actions] defaults to [graph.nodes]. *)
Record ActionGraph := mkActionGraph {
  graph : Graph;
  actions : list Node
}.

Definition new_ActionGraph (g : Graph) (acts : option (list Node)) : ActionGraph :=
  {| graph := g; actions := default (nodes g) acts |}.

(** [typeof n === 'object'] *)
Definition is_object (n : Node) : bool :=
  match n with NKey _ => false | NObj _ => true end.

(** The two [return] statements shared by the sorting functions. *)
Definition finish (g : Graph) (removeKeys : bool) : ActionGraph :=
  if negb removeKeys then new_ActionGraph g None
  else new_ActionGraph g (Some (filter (λ n, is_object n = true) (nodes g))).

(** The metadata a record carries, whichever kind it is. *)
Definition meta_of (o : Object) : option ActionMetadata :=
  match o with
  | OMeta m => Some m
  | OMethod m => Some (am_meta m)
  | OClass c => ac_meta c
  end.

(** [sortActionClasses(actionClasses, removeKeys)].  The registry is only
    read.  A class without class-level metadata makes [meta.fulfills] a
    property read on [undefined]. *)
Fixpoint sortActionClasses_loop (R : Reflector) (g : Graph)
    (actionClasses : list Constructor) : Error + Graph :=
  match actionClasses with
  | [] => inr g
  | cls :: rest =>
      match action_key R !! TClass cls with
      | None => inl TypeError
      | Some l =>
          match (heap R !! l) ≫= meta_of with
          | None => inl TypeError
          | Some meta =>
              match addActionToGraph g (NObj l) meta with
              | inl e => inl e
              | inr g' => sortActionClasses_loop R g' rest
              end
          end
      end
  end.

Definition sortActionClasses (R : Reflector) (actionClasses : list Constructor)
    (removeKeys : bool) : Error + ActionGraph :=
  match sortActionClasses_loop R new actionClasses with
  | inl e => inl e
  | inr g => inr (finish g removeKeys)
  end.

(** *** Inspection *)

(** [descriptor.methods[m].actionClass = descriptor] *)
Definition set_actionClass (d : loc) (o : Object) : Object :=
  match o with
  | OMethod m =>
      OMethod {| am_meta := am_meta m; method := method m;
                 bindsReturnValueAs := bindsReturnValueAs m;
                 actionClass := Some d; isStatic := isStatic m |}
  | _ => o
  end.

Definition stamp (d : loc) (h : list Object) (l : loc) : list Object :=
  match h !! l with
  | Some o => <[l := set_actionClass d o]> h
  | None => h
  end.

(** [inspectAction(cls)]: the descriptor is a new object holding a copy
    of the properties of the class-level record and a new [methods]
    object holding the same method records as the registered one; every
    such record gets the descriptor as its [actionClass]. *)
Definition inspectAction (cls : Constructor) (R : Reflector) : Reflector * loc :=
  let base :=
    ((action_key R !! TClass cls) ≫= (λ l : loc, heap R !! l)) ≫= meta_of in
  let ms := default [] (action_methods_key R !! TProto cls) in
  let d := length (heap R) in
  let h := heap R ++ [OClass {| ac_meta := base; methods := ms |}] in
  let h := foldl (stamp d) h (map snd ms) in
  ({| heap := h; action_key := action_key R;
      action_key_method := action_key_method R;
      action_methods_key := action_methods_key R |}, d).

(** [method.dependsOn.push(meta.group)] *)
Definition push_dependsOn (g : string) (o : Object) : Object :=
  match o with
  | OMethod m =>
      let b := am_meta m in
      OMethod {| am_meta := {| m_group := m_group b; m_fulfills := m_fulfills b;
                               m_dependsOn := m_dependsOn b ++ [g];
                               m_target := m_target b |};
                 method := method m; bindsReturnValueAs := bindsReturnValueAs m;
                 actionClass := actionClass m; isStatic := isStatic m |}
  | _ => o
  end.

Definition set_heap (R : Reflector) (h : list Object) : Reflector :=
  {| heap := h; action_key := action_key R;
     action_key_method := action_key_method R;
     action_methods_key := action_methods_key R |}.

(** The inner loop of [sortActions], [for (const m in meta.methods)]:
    [ms] are the remaining properties of the descriptor [d]. *)
Fixpoint sortActions_methods (includeClasses : bool) (d : loc)
    (ms : list (string * loc)) (R : Reflector) (g : Graph)
    : Reflector * (Error + Graph) :=
  match ms with
  | [] => (R, inr g)
  | (_, l) :: ms' =>
      let R1 :=
        if includeClasses then
          match (heap R !! d) ≫= meta_of, heap R !! l with
          | Some cm, Some o => set_heap R (<[l := push_dependsOn (m_group cm) o]> (heap R))
          | _, _ => R
          end
        else R in
      match (heap R1 !! l) ≫= meta_of with
      | None => (R1, inl TypeError)
      | Some mm =>
          match addActionToGraph g (NObj l) mm with
          | inl e => (R1, inl e)
          | inr g' => sortActions_methods includeClasses d ms' R1 g'
          end
      end
  end.

(** The outer loop of [sortActions], [for (const cls of actionClasses)]. *)
Fixpoint sortActions_loop (includeClasses : bool)
    (actionClasses : list Constructor) (R : Reflector) (g : Graph)
    : Reflector * (Error + Graph) :=
  match actionClasses with
  | [] => (R, inr g)
  | cls :: rest =>
      let '(R1, d) := inspectAction cls R in
      let ms := match heap R1 !! d with
                | Some (OClass c) => methods c
                | _ => []
                end in
      let step1 :=
        if includeClasses then
          match (heap R1 !! d) ≫= meta_of with
          | None => inl TypeError
          | Some meta => addActionToGraph g (NObj d) meta
          end
        else inr g in
      match step1 with
      | inl e => (R1, inl e)
      | inr g1 =>
          match sortActions_methods includeClasses d ms R1 g1 with
          | (R2, inl e) => (R2, inl e)
          | (R2, inr g2) => sortActions_loop includeClasses rest R2 g2
          end
      end
  end.

(** [sortActions(actionClasses, includeClasses, removeKeys)]: the registry
    after the call and the error raised or the [ActionGraph] returned. *)
Definition sortActions (actionClasses : list Constructor)
    (includeClasses removeKeys : bool) (R : Reflector)
    : Reflector * (Error + ActionGraph) :=
  match sortActions_loop includeClasses actionClasses R new with
  | (R', inl e) => (R', inl e)
  | (R', inr g) => (R', inr (finish g removeKeys))
  end.

End Action.

(** ** The decorator *)

Module Decorator.
Export Keys Action.

(** The argument of [action(meta?)]: a [Partial] of the metadata. *)
Record PartialMeta := mkPartial {
  p_group : option string;
  p_fulfills : option (list string);
  p_dependsOn : option (list string);
  p_bindsReturnValueAs : option string
}.

(** A string property used as a condition: absent and [''] are falsy. *)
Definition truthy (s : option string) : option string :=
  match s with
  | Some v => if bool_decide (v = "") then None else Some v
  | None => None
  end.

(** A property name that is an array index: the canonical decimal
    numeral of an integer from 0 to 2^32 - 2 (['7'] is one, ['07'], ['']
    and ['-1'] are not). *)
Definition array_index (k : string) : option N :=
  match NilEmpty.uint_of_string k with
  | Some u =>
      let n := N.of_uint u in
      if bool_decide (NilEmpty.string_of_uint (N.to_uint n) = k)
         && (n <=? 4294967294)%N
      then Some n else None
  | None => None
  end.

(** [obj[k] = v] for a property the object has: it keeps its place. *)
Fixpoint obj_replace {A} (o : list (string * A)) (k : string) (v : A)
    : list (string * A) :=
  match o with
  | [] => []
  | (k', v') :: o' =>
      if bool_decide (k' = k) then (k, v) :: o' else (k', v') :: obj_replace o' k v
  end.

(** [obj[k] = v] for a new property that is the array index [i]: it
    goes behind the smaller indices. *)
Fixpoint obj_insert {A} (i : N) (o : list (string * A)) (k : string) (v : A)
    : list (string * A) :=
  match o with
  | [] => [(k, v)]
  | (k', v') :: o' =>
      match array_index k' with
      | Some j =>
          if (j <? i)%N then (k', v') :: obj_insert i o' k v else (k, v) :: o
      | None => (k, v) :: o
      end
  end.

(** [obj[k] = v] on an ordinary object whose own properties are listed
    in enumeration order ([for in], [Object.assign]): the array indices
    first, in ascending order, then the other names in the order they
    were added.  An existing property keeps its place. *)
Definition obj_set {A} (o : list (string * A)) (k : string) (v : A)
    : list (string * A) :=
  if bool_decide (k ∈ o.*1) then obj_replace o k v
  else
    match array_index k with
    | Some i => obj_insert i o k v
    | None => o ++ [(k, v)]
    end.

(** [actionMethods[method] = record]: for ['__proto__'] the assignment
    sets the prototype of the mapping, which nothing reads, and adds no
    property. *)
Definition set_method (actionMethods : list (string * loc)) (method : string)
    (l : loc) : list (string * loc) :=
  if bool_decide (method = "__proto__") then actionMethods
  else obj_set actionMethods method l.

(** The record before the extraction pass: the group, either computed or
    overridden by [meta.group], and the declared lists. *)
Definition declared (meta : option PartialMeta) (computed : string)
    (target : Target) : ActionMetadata :=
  {| m_group := default computed (meta ≫= (λ m, truthy (p_group m)));
     m_fulfills := default [] (meta ≫= p_fulfills);
     m_dependsOn := default [] (meta ≫= p_dependsOn);
     m_target := target |}.

Definition populate (a : ActionMetadata) (injections : list Injection)
    : ActionMetadata :=
  let r := populateActionMetadata
    {| kl_fulfills := m_fulfills a; kl_dependsOn := m_dependsOn a |}
    injections in
  {| m_group := m_group a; m_fulfills := kl_fulfills r;
     m_dependsOn := kl_dependsOn r; m_target := m_target a |}.

(** [action(meta)(target, method)], the method-level branch, taken
    when [method] is not [''] (a symbol makes the template literal
    raise); [injections] is [describeInjectedArguments(target, method)]. *)
Definition action_method (meta : option PartialMeta) (target : Target)
    (method : string) (injections : list Injection) (R : Reflector)
    : Reflector :=
  let '(group, isStatic) :=
    match target with
    | TClass c => ("method:" +:+ c +:+ "." +:+ method, true)
    | TProto c => ("method:" +:+ c +:+ ".prototype." +:+ method, false)
    end in
  let a := declared meta group target in
  let binds := meta ≫= (λ m, truthy (p_bindsReturnValueAs m)) in
  let a :=
    match binds with
    | Some b => {| m_group := m_group a; m_fulfills := m_fulfills a ++ [b];
                   m_dependsOn := m_dependsOn a; m_target := m_target a |}
    | None => a
    end in
  let a := populate a injections in
  let l := length (heap R) in
  let record := OMethod {| am_meta := a; method := method;
                           bindsReturnValueAs := binds; actionClass := None;
                           isStatic := isStatic |} in
  let actionMethods := default [] (action_methods_key R !! target) in
  {| heap := heap R ++ [record];
     action_key := action_key R;
     action_key_method := <[(target, method) := l]> (action_key_method R);
     action_methods_key :=
       <[target := set_method actionMethods method l]> (action_methods_key R) |}.

(** [action(meta)(target)], the class-level branch; [injections] is
    [describeInjectedArguments(target)] followed by the values of
    [describeInjectedProperties(target.prototype)]. *)
Definition action_class (meta : option PartialMeta) (cls : Constructor)
    (injections : list Injection) (R : Reflector) : Reflector :=
  let a := declared meta ("class:" +:+ cls) (TClass cls) in
  let a := populate a injections in
  let l := length (heap R) in
  {| heap := heap R ++ [OMeta a];
     action_key := <[TClass cls := l]> (action_key R);
     action_key_method := action_key_method R;
     action_methods_key := action_methods_key R |}.

End Decorator.

(** ** The classes of [test/unit/action.test.ts] *)

Module TestClasses.
Export Decorator.

Definition inject (k : string) : Injection := {| bindingKey := k; setter := false |}.
Definition inject_setter (k : string) : Injection := {| bindingKey := k; setter := true |}.

Definition no_meta : PartialMeta :=
  {| p_group := None; p_fulfills := None; p_dependsOn := None;
     p_bindsReturnValueAs := None |}.

(** Members are decorated before their class, classes in file order. *)
Definition registry : Reflector :=
  let R := empty_registry in
  (* StopWatch *)
  let R := action_method
    (Some {| p_group := None; p_fulfills := None;
             p_dependsOn := Some ["http.request"];
             p_bindsReturnValueAs := None |})
    (TProto "StopWatch") "start" [inject_setter "startTime"] R in
  let R := action_method
    (Some {| p_group := None; p_fulfills := None;
             p_dependsOn := Some ["invocation"];
             p_bindsReturnValueAs := Some "duration" |})
    (TProto "StopWatch") "stop" [inject "startTime"] R in
  let R := action_class
    (Some {| p_group := Some "timer-group"; p_fulfills := None;
             p_dependsOn := None; p_bindsReturnValueAs := None |})
    "StopWatch" [] R in
  (* Logger *)
  let R := action_method
    (Some {| p_group := None; p_fulfills := None;
             p_dependsOn := Some ["invocation"];
             p_bindsReturnValueAs := None |})
    (TProto "Logger") "log" [inject "tracingId"; inject "duration"] R in
  let R := action_class
    (Some {| p_group := None; p_fulfills := Some ["logging"];
             p_dependsOn := None; p_bindsReturnValueAs := None |})
    "Logger" [inject "log.prefix"; inject "log.level"] R in
  (* Tracing *)
  let R := action_method
    (Some {| p_group := None; p_fulfills := None; p_dependsOn := None;
             p_bindsReturnValueAs := Some "tracingId" |})
    (TProto "Tracing") "setupTracingId" [inject "http.request"] R in
  let R := action_class None "Tracing" [] R in
  (* HttpServer *)
  let R := action_method None (TProto "HttpServer") "createRequest"
    [inject_setter "http.request"] R in
  let R := action_class None "HttpServer" [] R in
  (* MethodInvoker *)
  let R := action_method
    (Some {| p_group := None; p_fulfills := Some ["invocation"];
             p_dependsOn := Some ["tracingId"];
             p_bindsReturnValueAs := Some "result" |})
    (TProto "MethodInvoker") "invoke" [] R in
  let R := action_class None "MethodInvoker" [] R in
  (* MyDummyAction *)
  let R := action_method None (TClass "MyDummyAction") "test" [inject "foo"] R in
  action_class None "MyDummyAction" [] R.

(** [typeof n === 'object' ? n.group : n], as the tests print a node. *)
Definition label (R : Reflector) (n : Node) : string :=
  match n with
  | NKey k => k
  | NObj l => default "undefined" (m_group <$> ((heap R !! l) ≫= meta_of))
  end.

End TestClasses.

(** ** The executor *)

Module Sequence.
Export Action.

(** [Sequence]: the classes it was created with and the cached graph.
    The binding store it extends ([Context]) is the world [run] acts on. *)
Record Sequence := mkSequence {
  actionClasses : list Constructor;
  actionGraph : option ActionGraph
}.

(** [buildGraph()] *)
Definition buildGraph (S : Sequence) (R : Reflector)
    : Reflector * (Error + (Sequence * ActionGraph)) :=
  match actionGraph S with
  | Some ag => (R, inr (S, ag))
  | None =>
      match sortActions (actionClasses S) true false R with
      | (R', inl e) => (R', inl e)
      | (R', inr ag) =>
          (R', inr ({| actionClasses := actionClasses S;
                       actionGraph := Some ag |}, ag))
      end
  end.

(** [!!a.method]: a key has no [method] property, nor has a class. *)
Definition has_method (R : Reflector) (a : Node) : bool :=
  match a with
  | NKey _ => false
  | NObj l =>
      match heap R !! l with
      | Some (OMethod m) => bool_decide (method m ≠ "")
      | _ => false
      end
  end.

(** [target.name]: a class has a name, a prototype has none. *)
Definition target_name (t : Target) : string :=
  match t with
  | TClass c => c
  | TProto _ => "undefined"
  end.

(** [m.actionClass.target.name] *)
Definition owner_name (R : Reflector) (m : ActionMethod) : option string :=
  match actionClass m with
  | None => None
  | Some d =>
      match (heap R !! d) ≫= meta_of with
      | Some cm => Some (target_name (m_target cm))
      | None => None
      end
  end.

Section Run.
Context {Instance Value : Type}.

(** What [run] asks of its collaborators, in the order it asks:
    [ctx.get(key)], [invokeMethod(v, method, ctx)] whose result may be
    [undefined] ([None]), and [ctx.bind(key).to(value)].  Each [await]
    is the continuation of the call it waits for. *)
Inductive prog :=
  | Return
  | Throw (e : Error)
  | Get (key : string) (k : Instance → prog)
  | Invoke (v : Instance) (method : string) (k : option Value → prog)
  | Bind (key : string) (value : Value) (k : prog).

(** The body of the loop of [run] for the method record [m]. *)
Definition run_step (R : Reflector) (m : ActionMethod) (rest : prog) : prog :=
  match owner_name R m with
  | None => Throw TypeError
  | Some name =>
      Get ("actions." +:+ name) (λ v,
        Invoke v (method m) (λ result,
          match result, Decorator.truthy (bindsReturnValueAs m) with
          | Some r, Some key => Bind key r rest
          | _, _ => rest
          end))
  end.

(** [for (const m of ...)] over the filtered nodes. *)
Fixpoint run_loop (R : Reflector) (ms : list Node) : prog :=
  match ms with
  | [] => Return
  | NObj l :: ms' =>
      match heap R !! l with
      | Some (OMethod m) => run_step R m (run_loop R ms')
      | _ => Throw TypeError
      end
  | NKey _ :: _ => Throw TypeError
  end.

(** [run()]: the registry and the sequence after [buildGraph], and what
    the call then does. *)
Definition run (S : Sequence) (R : Reflector) : Reflector * Sequence * prog :=
  match buildGraph S R with
  | (R', inl e) => (R', S, Throw e)
  | (R', inr (S', ag)) =>
      (R', S', run_loop R' (filter (λ a, has_method R' a = true) (actions ag)))
  end.

(** *** The collaborators *)

Context {World Failure : Type}.

(** The binding store and the invoker: each call changes the world and
    returns or fails. *)
Record Handlers := mkHandlers {
  h_get : string → World → World * (Failure + Instance);
  h_invoke : Instance → string → World → World * (Failure + option Value);
  h_bind : string → Value → World → World
}.

Inductive Event :=
  | EGet (key : string)
  | EInvoke (v : Instance) (method : string)
  | EBind (key : string) (value : Value).

Inductive Outcome :=
  | Resolved
  | RejectedBy (f : Failure)     (* an error of a collaborator *)
  | RejectedWith (e : Error).    (* an error of [run] itself *)

(** Running a program against the collaborators: the calls made, the
    world left behind and how the promise settles. *)
Fixpoint exec (H : Handlers) (p : prog) (w : World)
    : list Event * World * Outcome :=
  match p with
  | Return => ([], w, Resolved)
  | Throw e => ([], w, RejectedWith e)
  | Get key k =>
      match h_get H key w with
      | (w', inl f) => ([EGet key], w', RejectedBy f)
      | (w', inr v) =>
          let '(tr, w'', o) := exec H (k v) w' in (EGet key :: tr, w'', o)
      end
  | Invoke v m k =>
      match h_invoke H v m w with
      | (w', inl f) => ([EInvoke v m], w', RejectedBy f)
      | (w', inr r) =>
          let '(tr, w'', o) := exec H (k r) w' in (EInvoke v m :: tr, w'', o)
      end
  | Bind key value k =>
      let '(tr, w', o) := exec H k (h_bind H key value w) in
      (EBind key value :: tr, w', o)
  end.

End Run.
Global Arguments prog : clear implicits.
Global Arguments Handlers : clear implicits.
Global Arguments Event : clear implicits.
Global Arguments Outcome : clear implicits.
End Sequence.

(** ** What the properties are stated with *)

Module TopoSpec.
Import Topo.

Section Sorter.
Context {Node : Type}.
Implicit Types (p q u v : Item Node) (all pending out : list (Item Node)).

(** The items carry their insertion index as [seq]. *)
Definition indexed (items : list (Item Node)) : Prop :=
  seq <$> items = List.seq 0 (length items).

Definition by_seq : relation (Item Node) := λ a b, seq a < seq b.

(** The runs of the algorithm: each output item was ready when it was
    placed and the pending items in front of it were not. *)
Inductive Kahn all : list nat → list (Item Node) → list (Item Node) → Prop :=
  | Kahn_nil placed : Kahn all placed [] []
  | Kahn_cons placed l1 q l2 out :
      ready all placed q = true →
      Forall (λ u, ready all placed u = false) l1 →
      Kahn all (seq q :: placed) (l1 ++ l2) out →
      Kahn all placed (l1 ++ q :: l2) (q :: out).

End Sorter.
End TopoSpec.

Module GraphSpec.
Import Keys Topo TopoSpec Action.

Implicit Types (g : Graph) (it a b : Item Node) (k : string).

(** The graph holds its items under their insertion index and its nodes
    in the order the sorter gives for them. *)
Definition built (g : Graph) : Prop :=
  indexed (_items g) ∧ ∃ s, sort (_items g) = Some s ∧ nodes g = node <$> s.

Definition key_item (i : nat) (k : string) : Item Node :=
  {| seq := i; before := []; after := []; group := k; node := NKey k |}.

Definition action_item (i : nat) (n : Node) (meta : ActionMetadata) : Item Node :=
  {| seq := i; before := m_fulfills meta; after := m_dependsOn meta;
     group := m_group meta; node := n |}.

(** Key nodes numbered from [i] on. *)
Fixpoint key_items (i : nat) (ks : list string) : list (Item Node) :=
  match ks with
  | [] => []
  | k :: ks' => key_item i k :: key_items (S i) ks'
  end.

(** The keys of [keys] that no item of [g] has as its group, each once,
    in first-seen order. *)
Definition missing (g : Graph) (keys : list string) : list string :=
  filter (λ k, exists_group g k = false) (dedup_first keys).

(** [g'] has the items of [g] and possibly more. *)
Definition grows (g g' : Graph) : Prop :=
  ∃ ext, _items g' = _items g ++ ext.

(** Some item of [g] names all of [F] in its [before] list and all of
    [D] in its [after] list, and every one of these keys is the group
    of some item. *)
Definition covers (g : Graph) (F D : list string) : Prop :=
  (∃ it, it ∈ _items g ∧ F ⊆ before it ∧ D ⊆ after it) ∧
  (∀ k, k ∈ F ∨ k ∈ D → exists_group g k = true).

End GraphSpec.

Module RegistrySpec.
Import Topo Action.

(** What the sorting functions may change in a record: a method record
    keeps everything but its [actionClass], and its [dependsOn] list may
    get longer at the end. *)
Definition obj_le (o o' : Object) : Prop :=
  match o, o' with
  | OMeta a, OMeta a' => a = a'
  | OClass c, OClass c' => c = c'
  | OMethod m, OMethod m' =>
      m_group (am_meta m') = m_group (am_meta m) ∧
      m_fulfills (am_meta m') = m_fulfills (am_meta m) ∧
      m_target (am_meta m') = m_target (am_meta m) ∧
      (∃ ext, m_dependsOn (am_meta m') = m_dependsOn (am_meta m) ++ ext) ∧
      method m' = method m ∧
      bindsReturnValueAs m' = bindsReturnValueAs m ∧
      isStatic m' = isStatic m
  | _, _ => False
  end.

(** The registry [R'] holds what [R] holds, up to [obj_le]. *)
Definition extends (R R' : Reflector) : Prop :=
  action_key R' = action_key R ∧
  action_key_method R' = action_key_method R ∧
  action_methods_key R' = action_methods_key R ∧
  ∀ l o, heap R !! l = Some o → ∃ o', heap R' !! l = Some o' ∧ obj_le o o'.

End RegistrySpec.

Module OrderSpec.
Import Topo TopoSpec Action GraphSpec.

(** [a] occurs somewhere before [b] in [l]. *)
Definition occurs_before {A} (l : list A) (a b : A) : Prop :=
  ∃ l1 l2 l3, l = l1 ++ a :: l2 ++ b :: l3.

(** Every [before] and [after] list is respected by the order [s]. *)
Definition respects_constraints (s : list (Item Node)) : Prop :=
  ∀ a b, a ∈ s → b ∈ s →
    (group b ∈ before a → occurs_before s a b) ∧
    (group b ∈ after a → occurs_before s b a).

(** The constraint relation among the items of [s], and its paths. *)
Definition constrains (s : list (Item Node)) : relation (Item Node) :=
  λ x y, x ∈ s ∧ y ∈ s ∧ precedes x y = true.

Definition unconstrained (s : list (Item Node)) (a b : Item Node) : Prop :=
  ¬ tc (constrains s) a b ∧ ¬ tc (constrains s) b a.

(** The tie-break as the specification words it: two items with no
    constraint between them stand in insertion order. *)
Definition insertion_stable (s : list (Item Node)) : Prop :=
  ∀ a b, a ∈ s → b ∈ s → unconstrained s a b → seq a < seq b →
    occurs_before s a b.

(** The tie-break of the sorter: an item stands behind a later inserted
    one only if one of its predecessors is that item or stands behind
    it. *)
Definition insertion_order_unless_waiting (s : list (Item Node)) : Prop :=
  ∀ u v, occurs_before s v u → seq u < seq v →
    ∃ p, p ∈ s ∧ precedes p u = true ∧ (p = v ∨ occurs_before s v p).

(** [s] is the order of the graph [g]. *)
Definition order_of (g : Graph) (s : list (Item Node)) : Prop :=
  sort (_items g) = Some s ∧ s ≡ₚ _items g ∧ NoDup s ∧ nodes g = node <$> s.

(** [ag] is returned by one of the two sorting functions. *)
Definition produced (removeKeys : bool) (ag : ActionGraph) : Prop :=
  (∃ R classes, sortActionClasses R classes removeKeys = inr ag) ∨
  (∃ R classes includeClasses R',
     sortActions classes includeClasses removeKeys R = (R', inr ag)).

Definition is_action (it : Item Node) : Prop := is_object (node it) = true.

Global Instance is_action_dec it : Decision (is_action it).
Proof. unfold is_action. apply _. Defined.

End OrderSpec.

Module SequenceSpec.
Import Topo Action Sequence.

Section Run.
Context {Instance Value World Failure : Type}.
Abbreviation Handlers := (Handlers Instance Value World Failure).
Abbreviation Event := (Event Instance Value).
Abbreviation Outcome := (Outcome Failure).


(** The methods invoked, in the order of the trace. *)
Definition invoked (tr : list Event) : list string :=
  omap (λ e, match e with EInvoke _ m => Some m | _ => None end) tr.


Definition is_method_node (R : Reflector) (n : Node) : Prop :=
  has_method R n = true.

Global Instance is_method_node_dec R n : Decision (is_method_node R n).
Proof. unfold is_method_node. apply _. Defined.

(** A method-bearing node, in the words of the specification: an action
    that is an object with a [method] that is not empty.  A key has no
    [method], nor has the descriptor of a class. *)
Definition method_bearing (R : Reflector) (n : Node) : Prop :=
  ∃ l m, n = NObj l ∧ heap R !! l = Some (OMethod m) ∧ method m ≠ EmptyString.

Global Instance method_bearing_dec R n : Decision (method_bearing R n).
Proof.
  destruct n as [k|l]; [right; by intros (? & ? & ? & _)|].
  destruct (heap R !! l) as [[a|m|c]|] eqn:Hl;
    try (right; intros (? & ? & [= <-] & ? & _); congruence).
  destruct (decide (method m = EmptyString)) as [E|E].
  - right. intros (? & m' & [= <-] & ? & ?). congruence.
  - left. by exists l, m.
Defined.

End Run.
End SequenceSpec.

(** ** Registries used as examples *)

Module Examples.
Export TestClasses.

Definition declare (fulfills dependsOn : list string) : option PartialMeta :=
  Some {| p_group := None; p_fulfills := Some fulfills;
          p_dependsOn := Some dependsOn; p_bindsReturnValueAs := None |}.

(** A consumer registered before the producer of its key, and a class
    with no keys at all between them. *)
Definition tie_registry : Reflector :=
  let R := action_class (declare [] ["data"]) "Consumer" [] empty_registry in
  let R := action_class None "Bystander" [] R in
  action_class (declare ["data"] []) "Producer" [] R.

(** A consumer registered before the producer of its key. *)
Definition two_registry : Reflector :=
  let R := action_class (declare [] ["data"]) "Consumer" [] empty_registry in
  action_class (declare ["data"] []) "Producer" [] R.

(** Two classes, and a method of each, that produce what the other
    needs. *)
Definition cycle_registry : Reflector :=
  let R := action_method (declare ["x"] ["y"]) (TProto "A") "run" [] empty_registry in
  let R := action_class (declare ["x"] ["y"]) "A" [] R in
  let R := action_method (declare ["y"] ["x"]) (TProto "B") "run" [] R in
  action_class (declare ["y"] ["x"]) "B" [] R.

(** A binding store for the executor: the keys bound so far with their
    values.  Every [actions.*] key resolves to the instance of its class;
    [setupTracingId] returns a tracing id, [invoke] needs [tracingId]
    bound to resolve its argument, the other methods return nothing. *)
Definition Store := list (string * string).

Definition is_bound (k : string) (st : Store) : bool :=
  bool_decide (k ∈ st.*1).

Definition store_handlers : Sequence.Handlers string string Store string :=
  {| Sequence.h_get := λ key st, (st, inr key);
     Sequence.h_invoke := λ v m st,
       if bool_decide (m = "setupTracingId") then (st, inr (Some "tracing:1"))
       else if bool_decide (m = "invoke") then
         if is_bound "tracingId" st then (st, inr (Some "Hello, world"))
         else (st, inl "The key tracingId was not bound to any value.")
       else (st, inr None);
     Sequence.h_bind := λ key value st, (key, value) :: st |}.

(** The registry after [buildGraph] for a sequence of [HttpServer] and
    [MethodInvoker] only. *)
Definition registry_without_tracing : Reflector :=
  fst (sortActions ["HttpServer"; "MethodInvoker"] true false registry).

(** [Reflector.getMetadata('action', target, method).dependsOn] *)
Definition stored_dependsOn (R : Reflector) (target : Target) (method : string)
    : option (list string) :=
  m_dependsOn <$>
    (((action_key_method R !! (target, method)) ≫= (λ l, heap R !! l)) ≫= meta_of).

(** [record.actionClass] of the method record at [l]. *)
Definition actionClass_of (R : Reflector) (l : loc) : option loc :=
  match heap R !! l with
  | Some (OMethod m) => actionClass m
  | _ => None
  end.

(** The nodes as the tests print them. *)
Definition labels (x : Reflector * (Error + ActionGraph)) : list string :=
  match x with
  | (R, inr ag) => label R <$> actions ag
  | (_, inl _) => []
  end.

Definition test_classes : list Constructor :=
  ["Logger"; "StopWatch"; "HttpServer"; "MethodInvoker"; "Tracing"].

End Examples.

(** ** What the further properties are stated with *)

Module DecoratorSpec.
Import Keys Topo Action Decorator.

(** [obj[k]] on an object whose properties are listed in enumeration
    order. *)
Fixpoint obj_get {A} (o : list (string * A)) (k : string) : option A :=
  match o with
  | [] => None
  | (k', v) :: o' => if bool_decide (k' = k) then Some v else obj_get o' k
  end.

(** The order in which the own properties of an ordinary object are
    enumerated: an array index before a larger one and before every
    other name. *)
Definition enum_before (a b : string) : Prop :=
  match array_index a, array_index b with
  | Some i, Some j => (i < j)%N
  | Some _, None => True
  | None, Some _ => False
  | None, None => True
  end.

(** The names are listed in enumeration order. *)
Definition enumerated (names : list string) : Prop :=
  StronglySorted enum_before names.

(** The lists of a record are normalised: no key twice, no ['#']. *)
Definition normalized (a : ActionMetadata) : Prop :=
  NoDup (m_fulfills a) ∧ NoDup (m_dependsOn a) ∧
  ∀ k, k ∈ m_fulfills a ∨ k ∈ m_dependsOn a → has_hash k = false.

(** The registries the decorator builds: [@action] applied to methods,
    whose names are not empty, and to classes, in any order. *)
Inductive decorated : Reflector → Prop :=
  | decorated_empty : decorated empty_registry
  | decorated_method meta target method injections R :
      decorated R → method ≠ EmptyString →
      decorated (action_method meta target method injections R)
  | decorated_class meta cls injections R :
      decorated R → decorated (action_class meta cls injections R).

Definition static_target (t : Target) : bool :=
  match t with TClass _ => true | TProto _ => false end.

(** The record a method decoration makes. *)
Definition method_record (meta : option PartialMeta) (t : Target) (n : string)
    (injections : list Injection) : ActionMethod :=
  let group :=
    match t with
    | TClass c => "method:" +:+ c +:+ "." +:+ n
    | TProto c => "method:" +:+ c +:+ ".prototype." +:+ n
    end in
  let a := declared meta group t in
  let binds := meta ≫= (λ m, truthy (p_bindsReturnValueAs m)) in
  let a :=
    match binds with
    | Some b => {| m_group := m_group a; m_fulfills := m_fulfills a ++ [b];
                   m_dependsOn := m_dependsOn a; m_target := m_target a |}
    | None => a
    end in
  {| am_meta := populate a injections; method := n;
     bindsReturnValueAs := binds; actionClass := None;
     isStatic := static_target t |}.

(** Every entry of the registry leads to a record of its kind that
    carries the target, and for a method the name, it is registered
    under; a method mapping lists its names once each, in enumeration
    order, and has no property ['__proto__']. *)
Definition well_formed (R : Reflector) : Prop :=
  (∀ t l, action_key R !! t = Some l →
     ∃ cls a, t = TClass cls ∧ heap R !! l = Some (OMeta a) ∧
       m_target a = TClass cls ∧ normalized a) ∧
  (∀ t ms, action_methods_key R !! t = Some ms →
     NoDup ms.*1 ∧ enumerated ms.*1 ∧ ("__proto__" ∉ ms.*1) ∧
     ∀ n l, (n, l) ∈ ms →
       n ≠ EmptyString ∧ action_key_method R !! (t, n) = Some l ∧
       ∃ m, heap R !! l = Some (OMethod m) ∧ method m = n ∧
         m_target (am_meta m) = t ∧ isStatic m = static_target t ∧
         normalized (am_meta m)).

(** The group the record at the end of the heap carries: the record the
    last decoration made. *)
Definition last_group (R : Reflector) : option string :=
  m_group <$> (last (heap R) ≫= meta_of).

End DecoratorSpec.

Module CensusSpec.
Import Topo Action.

(** The key of a key node. *)
Definition key_of (n : Node) : option string :=
  match n with NKey k => Some k | NObj _ => None end.

(** The keys among the nodes [ns], in their order. *)
Definition keys_of (ns : list Node) : list string := omap key_of ns.

(** The object nodes among [ns], in their order. *)
Definition objects_of (ns : list Node) : list Node :=
  filter (λ n, is_object n = true) ns.

(** The graphs [addActionToGraph] builds from the empty graph for
    metadata objects. *)
Inductive grown : Graph → Prop :=
  | grown_new : grown new
  | grown_add g l meta g' :
      grown g → addActionToGraph g (NObj l) meta = inr g' → grown g'.

(** The invariant of the graphs under construction: a key node carries
    its key as group and no constraints, and no key has two nodes. *)
Definition key_nodes_ok (g : Graph) : Prop :=
  (∀ it k, it ∈ _items g → node it = NKey k →
     group it = k ∧ before it = [] ∧ after it = []) ∧
  NoDup (keys_of (node <$> _items g)).

(** The method records registered for the prototype of [cls]. *)
Definition methods_of (R : Reflector) (cls : Constructor) : list loc :=
  map snd (default [] (action_methods_key R !! TProto cls)).

(** The objects [sortActions] adds for the classes, in the order it adds
    them: for each class its new descriptor, allocated at the end of the
    heap, when the classes are included, and then its method records. *)
Fixpoint census (includeClasses : bool) (R : Reflector) (next : loc)
    (classes : list Constructor) : list Node :=
  match classes with
  | [] => []
  | cls :: rest =>
      (if includeClasses then [NObj next] else []) ++
      (NObj <$> methods_of R cls) ++
      census includeClasses R (S next) rest
  end.

End CensusSpec.

Module SmallExample.
Export TestClasses.

(** One class with one method that reads [in] and binds its result as
    [out]. *)
Definition small_registry : Reflector :=
  let R := action_method
    (Some {| p_group := None; p_fulfills := None; p_dependsOn := None;
             p_bindsReturnValueAs := Some "out" |})
    (TProto "A") "m" [inject "in"] empty_registry in
  action_class None "A" [] R.

End SmallExample.

Module FrameSpec.
Import Topo Action.

(** [o'] is [o] up to its [actionClass]. *)
Definition obj_stamped (o o' : Object) : Prop :=
  o' = o ∨ ∃ d, o' = set_actionClass d o.

(** The registry [R'] holds the entries of [R] and, where [R] holds an
    object, the same object up to its [actionClass]. *)
Definition stamped (R R' : Reflector) : Prop :=
  action_key R' = action_key R ∧
  action_key_method R' = action_key_method R ∧
  action_methods_key R' = action_methods_key R ∧
  ∀ l o, heap R !! l = Some o → ∃ o', heap R' !! l = Some o' ∧ obj_stamped o o'.

End FrameSpec.

Module BindSpec.
Import Topo Action Sequence SequenceSpec.

Section Run.
Context {Instance Value : Type}.

(** The keys bound, in the order of the trace. *)
Definition bound_keys (tr : list (Event Instance Value)) : list string :=
  omap (λ e, match e with EBind k _ => Some k | _ => None end) tr.

(** The lookups made, in the order of the trace. *)
Definition looked_up (tr : list (Event Instance Value)) : list string :=
  omap (λ e, match e with EGet k => Some k | _ => None end) tr.

(** What the trace [tr] of a run over [ms] may hold. *)
Definition trace_ok (R : Reflector) (ms : list Node)
    (tr : list (Event Instance Value)) : Prop :=
  (∀ k, k ∈ bound_keys tr →
     k ≠ EmptyString ∧
     ∃ l m, NObj l ∈ ms ∧ heap R !! l = Some (OMethod m) ∧
       bindsReturnValueAs m = Some k) ∧
  (∀ n, n ∈ invoked tr →
     ∃ l m, NObj l ∈ ms ∧ heap R !! l = Some (OMethod m) ∧ method m = n) ∧
  length (bound_keys tr) ≤ length (invoked tr) ∧
  length (invoked tr) ≤ length (looked_up tr).

End Run.
End BindSpec.

(** ** The diagram *)

Module Dot.
Import Topo Action Sequence.

(** The double quote and the line feed. *)
Definition dq : string := String (ascii_of_nat 34) EmptyString.
Definition nl : string := String (ascii_of_nat 10) EmptyString.

(** [s.indexOf(p) === 0] *)
Definition starts_with (p s : string) : bool := String.prefix p s.

(** [s.substring(n)] *)
Fixpoint substring_from (n : nat) (s : string) : string :=
  match n, s with
  | S n', String _ s' => substring_from n' s'
  | _, _ => s
  end.

(** [Array.prototype.join] *)
Fixpoint join (sep : string) (l : list string) : string :=
  match l with
  | [] => EmptyString
  | [x] => x
  | x :: l' => x +:+ sep +:+ join sep l'
  end.

(** The [normalize] of [generateDot]. *)
Definition normalize (group : string) : string :=
  let group :=
    if starts_with "class:" group
    then substring_from (String.length "class:") group else group in
  let group :=
    if starts_with "method:" group
    then substring_from (String.length "method:") group else group in
  dq +:+ group +:+ dq.

(** [GraphvizNodeAttributes]: every attribute may be absent. *)
Record GraphvizNodeAttributes := mkAttributes {
  stateAttrs : option string;
  classAttrs : option string;
  methodAttrs : option string
}.

Definition default_stateAttrs : string :=
  "[shape=" +:+ dq +:+ "ellipse" +:+ dq +:+ "]".
Definition default_classAttrs : string :=
  "[shape=" +:+ dq +:+ "box" +:+ dq +:+ "]".
Definition default_methodAttrs : string :=
  "[shape=" +:+ dq +:+ "box" +:+ dq +:+ ", style=" +:+ dq +:+ "rounded" +:+ dq +:+ "]".

(** The statements [generateDot] pushes for one item: the node statement
    and an edge statement for each of [before] and [after] whose joined
    text is not empty. *)
Definition item_statements (R : Reflector) (attrs : option GraphvizNodeAttributes)
    (item : Item Node) : list string :=
  let stateAttrs' := default default_stateAttrs (attrs ≫= stateAttrs) in
  let classAttrs' := default default_classAttrs (attrs ≫= classAttrs) in
  let methodAttrs' := default default_methodAttrs (attrs ≫= methodAttrs) in
  let before' := join " " (map normalize (before item)) in
  let after' := join " " (map normalize (after item)) in
  let group' := normalize (group item) in
  [ match node item with
    | NKey _ => "  " +:+ group' +:+ " " +:+ stateAttrs' +:+ ";"
    | NObj _ =>
        if has_method R (node item)
        then "  " +:+ group' +:+ " " +:+ methodAttrs' +:+ ";"
        else "  " +:+ group' +:+ " " +:+ classAttrs' +:+ ";"
    end ] ++
  (if bool_decide (before' = EmptyString) then []
   else ["  " +:+ group' +:+ " -> {" +:+ before' +:+ "};"]) ++
  (if bool_decide (after' = EmptyString) then []
   else ["  {" +:+ after' +:+ "} -> " +:+ group' +:+ ";"]).

(** The array [dot] of [generateDot] before it is joined; [items] is
    [graph._items], in the order the sorter keeps them. *)
Definition dot_statements (R : Reflector) (items : list (Item Node))
    (attrs : option GraphvizNodeAttributes) : list string :=
  ["digraph action_dependency_graph {"] ++
  concat (map (item_statements R attrs) items) ++
  ["}" +:+ nl].

(** [generateDot(graph, attrs)] *)
Definition generateDot (R : Reflector) (items : list (Item Node))
    (attrs : option GraphvizNodeAttributes) : string :=
  join nl (dot_statements R items attrs).

(** The text with every double quote replaced by a single one. *)
Fixpoint single_quoted (s : string) : string :=
  match s with
  | EmptyString => EmptyString
  | String c s' =>
      String (if Ascii.eqb c (ascii_of_nat 34) then ascii_of_nat 39 else c)
        (single_quoted s')
  end.

End Dot.

Module OwnerSpec.
Import Topo Action Sequence CensusSpec.

(** [bindClasses()]: the keys it binds, one per class and in the order
    of the classes; the bindings themselves are the context's. *)
Definition bindClasses (S : Sequence) : list string :=
  (λ c, "actions." +:+ c) <$> actionClasses S.

(** Every class-level entry of the registry leads to a record whose
    target is the class, every entry of a method mapping to a method
    record with a name and with the target of the mapping. *)
Definition linked (R : Reflector) : Prop :=
  (∀ cls l, action_key R !! TClass cls = Some l →
     ∃ a, heap R !! l = Some (OMeta a) ∧ m_target a = TClass cls) ∧
  (∀ t ms n l, action_methods_key R !! t = Some ms → (n, l) ∈ ms →
     ∃ m, heap R !! l = Some (OMethod m) ∧ method m ≠ EmptyString ∧
       m_target (am_meta m) = t).

(** The method record at [l] points to a descriptor of the class [cls]
    that carries the class-level properties. *)
Definition owned (R : Reflector) (l : loc) (cls : Constructor) : Prop :=
  ∃ m d c a, heap R !! l = Some (OMethod m) ∧ actionClass m = Some d ∧
    heap R !! d = Some (OClass c) ∧ ac_meta c = Some a ∧
    m_target a = TClass cls.

(** [R'] holds the objects of [R] up to the [dependsOn] of the method
    records. *)
Definition pushed (R R' : Reflector) : Prop :=
  action_key R' = action_key R ∧
  action_methods_key R' = action_methods_key R ∧
  length (heap R') = length (heap R) ∧
  ∀ l o, heap R !! l = Some o →
    ∃ o', heap R' !! l = Some o' ∧
      match o, o' with
      | OMethod m, OMethod m' =>
          method m' = method m ∧ actionClass m' = actionClass m ∧
          m_target (am_meta m') = m_target (am_meta m)
      | _, _ => o' = o
      end.

End OwnerSpec.

Module ClosedSpec.
Import Topo Action.

(** Every key an item names in its [before] or [after] list is the group
    of some item. *)
Definition closed (g : Graph) : Prop :=
  ∀ it k, it ∈ _items g → k ∈ before it ∨ k ∈ after it →
    exists_group g k = true.

End ClosedSpec.

(** * Properties *)

Module KeysFacts.
Import Keys.

Lemma split_nonempty sep s : split sep s ≠ [].
Proof. destruct s as [|c s]; simpl; [done|]. repeat case_match; done. Qed.

Lemma strip_base_name k : strip k = base_name k.
Proof.
  unfold strip. induction k as [|c k IH]; simpl; [done|].
  destruct (Ascii.eqb c "#"); [done|].
  destruct (split "#" k) eqn:E; [by apply split_nonempty in E|].
  by rewrite IH.
Qed.

Lemma base_name_no_hash k : has_hash (base_name k) = false.
Proof.
  induction k as [|c k IH]; simpl; [done|].
  destruct (Ascii.eqb c "#") eqn:E; simpl; [done|]. by rewrite E.
Qed.

Lemma base_name_id k : has_hash k = false → base_name k = k.
Proof.
  induction k as [|c k IH]; simpl; [done|].
  destruct (Ascii.eqb c "#"); simpl; [done|]. intros H. by rewrite IH.
Qed.

Lemma base_name_app p r :
  has_hash p = false → base_name (p ++ String "#" r) = p.
Proof.
  induction p as [|c p IH]; simpl; [done|].
  destruct (Ascii.eqb c "#"); simpl; [done|]. intros H. by rewrite IH.
Qed.

Lemma filter_all {A} (P : A → Prop) `{∀ x, Decision (P x)} (l : list A) :
  Forall P l → filter P l = l.
Proof.
  induction 1 as [|x l Hx Hl IH]; [done|].
  by rewrite filter_cons_True, IH.
Qed.

Lemma elem_of_dedup_first x l : x ∈ dedup_first l ↔ x ∈ l.
Proof.
  induction l as [|a l IH]; simpl; [done|].
  rewrite !elem_of_cons, list_elem_of_filter, IH.
  destruct (decide (x = a)); tauto.
Qed.

Lemma NoDup_dedup_first l : NoDup (dedup_first l).
Proof.
  induction l as [|a l IH]; simpl; [constructor|].
  constructor; [|by apply NoDup_filter].
  rewrite list_elem_of_filter. tauto.
Qed.

Lemma dedup_first_NoDup l : NoDup l → dedup_first l = l.
Proof.
  induction 1 as [|x l Hx Hl IH]; simpl; [done|].
  rewrite IH. f_equal. apply filter_all.
  apply Forall_forall. intros y Hy ->. done.
Qed.

(** The accumulator of the [Set] loop: what is already in the set stays in
    front, the new keys follow in first-seen order. *)
Lemma foldl_Set_add acc l :
  foldl Set_add acc l = acc ++ filter (λ z, z ∉ acc) (dedup_first l).
Proof.
  revert acc. induction l as [|x l IH]; intros acc; simpl.
  - by rewrite filter_nil, app_nil_r.
  - unfold Set_add at 2. rewrite filter_cons. case_bool_decide as Hin.
    + rewrite decide_False by tauto.
      rewrite IH, list_filter_filter. f_equal.
      apply list_filter_iff. intros y. split; [|tauto].
      intros Hy. split; [done|]. by intros ->.
    + rewrite decide_True by done.
      rewrite IH, <- app_assoc. simpl. do 2 f_equal.
      rewrite list_filter_filter. apply list_filter_iff. intros y.
      rewrite elem_of_app, list_elem_of_singleton. tauto.
Qed.

Lemma Set_from_dedup_first l : Set_from l = dedup_first l.
Proof.
  unfold Set_from. rewrite foldl_Set_add. simpl.
  apply filter_all, Forall_forall. intros x _. apply not_elem_of_nil.
Qed.

End KeysFacts.


(** ** The sorter *)

Module TopoFacts.
Import Topo.
Export TopoSpec.

Section Sorter.
Context {Node : Type}.
Implicit Types (p q u v : Item Node) (all pending out : list (Item Node)).
Implicit Types (placed : list nat) (items : list (Item Node)).

Lemma ready_true all placed q :
  ready all placed q = true ↔
  ∀ p, p ∈ all → precedes p q = true → seq p ∈ placed.
Proof.
  unfold ready. rewrite <- Is_true_true, forallb_True, Forall_forall.
  split; intros H p Hp.
  - intros Hpq. specialize (H p Hp). rewrite Hpq in H. simpl in H.
    by apply bool_decide_unpack in H.
  - destruct (precedes p q) eqn:E; simpl; [|done].
    apply bool_decide_pack. by apply H.
Qed.

Lemma ready_false all placed q :
  ready all placed q = false →
  ∃ p, p ∈ all ∧ precedes p q = true ∧ seq p ∉ placed.
Proof.
  unfold ready. intros H.
  induction all as [|a all IH]; simpl in H; [done|].
  apply andb_false_iff in H as [H|H].
  - exists a. destruct (precedes a q); simpl in H; [|done].
    apply bool_decide_eq_false in H. split_and!; [left|done|done].
  - destruct (IH H) as (p & ? & ? & ?). exists p. split_and!; [by right|done|done].
Qed.

Lemma select_Some all placed pending q rest :
  select all placed pending = Some (q, rest) →
  ∃ l1 l2, pending = l1 ++ q :: l2 ∧ rest = l1 ++ l2 ∧
    ready all placed q = true ∧ Forall (λ u, ready all placed u = false) l1.
Proof.
  revert rest. induction pending as [|a pending IH]; intros rest; simpl; [done|].
  destruct (ready all placed a) eqn:E.
  - intros [= <- <-]. by exists [], pending.
  - destruct (select all placed pending) as [[r rest']|]; [|done].
    intros [= -> <-]. destruct (IH _ eq_refl) as (l1 & l2 & -> & -> & ? & ?).
    exists (a :: l1), l2. split_and!; [done|done|done|by constructor].
Qed.

Lemma kahn_Kahn n all placed pending out :
  kahn n all placed pending = Some out → Kahn all placed pending out.
Proof.
  revert placed pending out.
  induction n as [|n IH]; intros placed pending out; simpl.
  - destruct pending; [|done]. intros [= <-]. constructor.
  - destruct (select all placed pending) as [[q rest]|] eqn:Hs; [|done].
    destruct (kahn n all (seq q :: placed) rest) as [out'|] eqn:Hk; [|done].
    intros [= <-]. apply select_Some in Hs as (l1 & l2 & -> & -> & ? & ?).
    constructor; [done|done|]. by apply IH.
Qed.

Lemma Kahn_perm all placed pending out :
  Kahn all placed pending out → out ≡ₚ pending.
Proof.
  induction 1 as [|placed l1 q l2 out _ _ _ IH]; [done|].
  rewrite IH. by rewrite Permutation_middle.
Qed.

Lemma Kahn_sound all placed pending out :
  Kahn all placed pending out →
  ∀ l1 q l2 p, out = l1 ++ q :: l2 → p ∈ all → precedes p q = true →
    seq p ∈ placed ∨ seq p ∈ (seq <$> l1).
Proof.
  induction 1 as [|placed k1 x k2 out Hr _ _ IH]; intros l1 q l2 p Ho Hp Hpq.
  - by destruct l1.
  - destruct l1 as [|y l1]; simplify_eq/=.
    + left. by eapply ready_true.
    + destruct (IH _ _ _ _ eq_refl Hp Hpq) as [Hin|Hin].
      * apply elem_of_cons in Hin as [->|Hin]; [right; left|by left].
      * right. by right.
Qed.

Lemma Kahn_stable all placed pending out :
  Kahn all placed pending out → StronglySorted by_seq pending →
  ∀ l1 v l2 u, out = l1 ++ v :: l2 → u ∈ l2 → seq u < seq v →
    ∃ p, p ∈ all ∧ precedes p u = true ∧ (seq p ∉ placed) ∧ (seq p ∉ seq <$> l1).
Proof.
  induction 1 as [|placed k1 x k2 out Hr Hn HK IH];
    intros Hs l1 v l2 u Ho Hu Huv.
  - by destruct l1.
  - assert (StronglySorted by_seq (k1 ++ k2)) as Hs'.
    { apply StronglySorted_app in Hs as (H1 & H2 & H3).
      apply StronglySorted_cons in H3 as [_ H3].
      apply StronglySorted_app. split_and!; [|done|done].
      intros a b Ha Hb. apply H1; [done|by right]. }
    destruct l1 as [|y l1]; simplify_eq/=.
    + assert (u ∈ k1 ++ k2) as Hin by (by rewrite <- (Kahn_perm _ _ _ _ HK)).
      apply elem_of_app in Hin as [Hin|Hin].
      * rewrite Forall_forall in Hn.
        destruct (ready_false _ _ _ (Hn _ Hin)) as (p & ? & ? & ?).
        exists p. split_and!; [done|done|done|]. apply not_elem_of_nil.
      * apply StronglySorted_app_1_r, StronglySorted_cons in Hs as [Hs _].
        rewrite Forall_forall in Hs. specialize (Hs _ Hin).
        unfold by_seq in Hs. lia.
    + destruct (IH Hs' _ _ _ _ eq_refl Hu Huv) as (p & ? & ? & Hp1 & Hp2).
      exists p. split_and!; [done|done|..].
      * intros ?. apply Hp1. by right.
      * intros [Heq|?]%elem_of_cons; [apply Hp1; rewrite Heq; left|done].
Qed.

Lemma indexed_NoDup items : indexed items → NoDup (seq <$> items).
Proof. intros ->. apply NoDup_seq. Qed.

Lemma indexed_inj items a b :
  indexed items → a ∈ items → b ∈ items → seq a = seq b → a = b.
Proof.
  intros Hi Ha Hb Hab. apply indexed_NoDup in Hi.
  apply list_elem_of_lookup in Ha as [i Ha], Hb as [j Hb].
  assert (i = j) as ->; [|congruence].
  eapply NoDup_lookup; [done|..]; rewrite list_lookup_fmap.
  - by rewrite Ha.
  - rewrite Hb. simpl. by rewrite Hab.
Qed.

Lemma indexed_sorted items : indexed items → StronglySorted by_seq items.
Proof.
  unfold indexed. generalize 0.
  induction items as [|a items IH]; intros n; [constructor|].
  rewrite fmap_cons. cbn [List.seq length]. intros [= Ha Hi].
  constructor; [by eapply IH|].
  apply Forall_forall. intros b Hb.
  apply (list_elem_of_fmap_2 seq) in Hb. rewrite Hi in Hb.
  apply elem_of_seq in Hb. unfold by_seq. lia.
Qed.

Lemma indexed_lookup items i a :
  indexed items → items !! i = Some a → seq a = i.
Proof.
  intros Hi Ha. assert ((seq <$> items) !! i = Some (seq a)) as H.
  { by rewrite list_lookup_fmap, Ha. }
  rewrite Hi in H. apply lookup_seq in H as [-> _]. done.
Qed.

Lemma sort_perm items out : sort items = Some out → out ≡ₚ items.
Proof. intros H. eapply Kahn_perm, kahn_Kahn, H. Qed.

Lemma sort_NoDup items out :
  indexed items → sort items = Some out → NoDup out.
Proof.
  intros Hi Hs. rewrite (sort_perm _ _ Hs).
  eapply NoDup_fmap_1, indexed_NoDup, Hi.
Qed.

(** Every constraint holds in the order the sorter returns. *)
Lemma sort_sound items out i j a b :
  indexed items → sort items = Some out →
  out !! i = Some a → out !! j = Some b → precedes a b = true → i < j.
Proof.
  intros Hi Hs Ha Hb Hab.
  pose proof (sort_perm _ _ Hs) as Hp.
  pose proof (sort_NoDup _ _ Hi Hs) as Hnd.
  apply kahn_Kahn in Hs.
  destruct (list_elem_of_split_length _ _ _ Hb) as (l1 & l2 & Ho & Hj).
  assert (a ∈ items) as Hain.
  { rewrite <- Hp. apply list_elem_of_lookup. eauto. }
  destruct (Kahn_sound _ _ _ _ Hs _ _ _ _ Ho Hain Hab) as [H|H];
    [by apply elem_of_nil in H|].
  apply list_elem_of_fmap in H as (a' & Hseq & Ha').
  assert (a' = a) as ->.
  { eapply indexed_inj; [done| |done|done].
    rewrite <- Hp, Ho. apply elem_of_app. by left. }
  apply list_elem_of_lookup in Ha' as [i' Ha'].
  assert (i = i') as ->.
  { eapply NoDup_lookup; [done|done|]. rewrite Ho.
    by rewrite lookup_app_l by (by eapply lookup_lt_Some). }
  apply lookup_lt_Some in Ha'. lia.
Qed.

(** Insertion order yields only where it must: an item placed behind a
    later inserted one was waiting for a predecessor that was not yet
    placed. *)
Lemma sort_stable items out i j u v :
  indexed items → sort items = Some out →
  out !! i = Some v → out !! j = Some u → i < j → seq u < seq v →
  ∃ k p, i ≤ k ∧ out !! k = Some p ∧ precedes p u = true.
Proof.
  intros Hi Hs Hv Hu Hij Huv.
  pose proof (sort_perm _ _ Hs) as Hp.
  pose proof (sort_NoDup _ _ Hi Hs) as Hnd.
  apply kahn_Kahn in Hs.
  destruct (list_elem_of_split_length _ _ _ Hv) as (l1 & l2 & Ho & Hlen).
  assert (u ∈ l2) as Hul2.
  { rewrite Ho in Hu. rewrite lookup_app_r in Hu by lia.
    destruct (j - length l1) as [|m] eqn:E; [lia|]. simpl in Hu.
    apply list_elem_of_lookup. eauto. }
  destruct (Kahn_stable _ _ _ _ Hs (indexed_sorted _ Hi) _ _ _ _ Ho Hul2 Huv)
    as (p & Hpin & Hpu & _ & Hpl1).
  rewrite <- Hp in Hpin. apply list_elem_of_lookup in Hpin as [k Hk].
  exists k, p. split_and!; [|done|done].
  destruct (decide (i ≤ k)) as [|Hlt]; [done|]. exfalso. apply Hpl1.
  apply list_elem_of_fmap. exists p. split; [done|].
  apply list_elem_of_lookup. exists k.
  rewrite Ho in Hk. by rewrite lookup_app_l in Hk by lia.
Qed.

End Sorter.
End TopoFacts.

(** ** The graph builder *)

Module GraphFacts.
Import Keys KeysFacts Topo TopoFacts Action.
Export GraphSpec.

Implicit Types (g : Graph) (it a b : Item Node) (k : string).

Lemma exists_group_true g k :
  exists_group g k = true ↔ ∃ it, it ∈ _items g ∧ group it = k.
Proof.
  unfold exists_group. rewrite <- Is_true_true, existb_True, Exists_exists.
  split; intros (it & ? & H); exists it; split; try done.
  - by apply bool_decide_unpack in H.
  - by apply bool_decide_pack.
Qed.

Lemma built_new : built new.
Proof. split; [done|]. by exists []. Qed.

Lemma indexed_snoc (items : list (Item Node)) it :
  indexed items → seq it = length items → indexed (items ++ [it]).
Proof.
  unfold indexed. intros Hi Hs.
  rewrite fmap_app, length_app, Hi. simpl.
  rewrite Nat.add_1_r, seq_S. simpl. by rewrite Hs.
Qed.

Lemma add_inr g n grp bef aft g' :
  add g n grp bef aft = inr g' →
  _items g' = _items g ++
    [{| seq := length (_items g); before := bef; after := aft;
        group := grp; node := n |}] ∧
  ∃ s, sort (_items g') = Some s ∧ nodes g' = node <$> s.
Proof.
  unfold add. destruct (sort _) as [s|] eqn:E; [|done].
  intros [= <-]. simpl. split; [done|]. by exists s.
Qed.

Lemma add_inl g n grp bef aft e :
  add g n grp bef aft = inl e →
  e = DependencyError ∧
  sort (_items g ++
    [{| seq := length (_items g); before := bef; after := aft;
        group := grp; node := n |}]) = None.
Proof.
  unfold add. destruct (sort _) as [s|] eqn:E; [done|]. by intros [= <-].
Qed.

Lemma add_built g n grp bef aft g' :
  indexed (_items g) → add g n grp bef aft = inr g' → built g'.
Proof.
  intros Hi [Hit Hs]%add_inr. split; [|done].
  rewrite Hit. by apply indexed_snoc.
Qed.

Lemma exists_group_add g n grp bef aft g' :
  add g n grp bef aft = inr g' →
  ∀ k, exists_group g' k = exists_group g k || bool_decide (grp = k).
Proof.
  intros [Hit _]%add_inr k. unfold exists_group.
  rewrite Hit, existsb_app. simpl. by rewrite orb_false_r.
Qed.

Lemma missing_cons_present g k keys :
  exists_group g k = true → missing g (k :: keys) = missing g keys.
Proof.
  intros Hk. unfold missing. simpl.
  rewrite filter_cons_False by (by rewrite Hk).
  rewrite list_filter_filter. apply list_filter_iff. intros y.
  split; [tauto|]. intros Hy. split; [done|]. intros ->. congruence.
Qed.

Lemma missing_cons_absent g g' k keys :
  exists_group g k = false →
  (∀ y, exists_group g' y = exists_group g y || bool_decide (k = y)) →
  missing g (k :: keys) = k :: missing g' keys.
Proof.
  intros Hk Hg'. unfold missing. simpl.
  rewrite filter_cons_True by done. f_equal.
  rewrite list_filter_filter. apply list_filter_iff. intros y.
  rewrite Hg', orb_false_iff, bool_decide_eq_false.
  split; [intros [? ?]; split; [done|congruence]|].
  intros [? ?]. split; [done|congruence].
Qed.

Lemma add_keys_inr g keys g' :
  add_keys g keys = inr g' →
  _items g' = _items g ++ key_items (length (_items g)) (missing g keys) ∧
  (∀ k, exists_group g' k = exists_group g k || bool_decide (k ∈ keys)) ∧
  (g' = g ∨ ∃ s, sort (_items g') = Some s ∧ nodes g' = node <$> s).
Proof.
  revert g. induction keys as [|k keys IH]; intros g; cbn [add_keys].
  - intros [= <-]. unfold missing. cbn [dedup_first].
    rewrite filter_nil. cbn [key_items]. rewrite app_nil_r.
    split_and!; [done| |by left].
    intros k. rewrite bool_decide_eq_false_2 by apply not_elem_of_nil.
    by rewrite orb_false_r.
  - destruct (exists_group g k) eqn:Hk.
    + intros H. destruct (IH _ H) as (Hit & Hex & Hs).
      rewrite missing_cons_present by done. split_and!; [done| |done].
      intros y. rewrite Hex. destruct (decide (y = k)) as [->|Hne].
      * rewrite Hk. done.
      * f_equal. apply bool_decide_ext. rewrite elem_of_cons. tauto.
    + destruct (add g (NKey k) k [] []) as [e|g1] eqn:Ha; [done|].
      intros H. destruct (IH _ H) as (Hit & Hex & Hs).
      pose proof (exists_group_add _ _ _ _ _ _ Ha) as Hex1.
      apply add_inr in Ha as [Hit1 Hs1].
      rewrite (missing_cons_absent g g1) by done.
      split_and!.
      * rewrite Hit, Hit1, length_app, <- app_assoc. cbn [length key_items app].
        by rewrite Nat.add_1_r.
      * intros y. rewrite Hex, Hex1, <- orb_assoc. f_equal.
        destruct (decide (k = y)) as [->|Hne].
        -- rewrite (bool_decide_eq_true_2 (y = y)) by done.
           rewrite (bool_decide_eq_true_2 (y ∈ y :: keys)) by left.
           done.
        -- rewrite (bool_decide_eq_false_2 (k = y)) by done.
           rewrite orb_false_l.
           apply bool_decide_ext. rewrite elem_of_cons.
           split; [tauto|]. intros [->|?]; [done|done].
      * right. destruct Hs as [->|Hs]; [done|done].
Qed.

Lemma add_keys_inl g keys e :
  add_keys g keys = inl e →
  e = DependencyError ∧
  ∃ m, sort (take m (_items g ++ key_items (length (_items g)) (missing g keys)))
       = None.
Proof.
  revert g. induction keys as [|k keys IH]; intros g; cbn [add_keys]; [done|].
  destruct (exists_group g k) eqn:Hk.
  - intros H. rewrite missing_cons_present by done. by apply IH.
  - destruct (add g (NKey k) k [] []) as [e'|g1] eqn:Ha.
    + intros [= ->]. apply add_inl in Ha as [-> Ha]. split; [done|].
      exists (S (length (_items g))).
      unfold missing. cbn [dedup_first]. rewrite filter_cons_True by done.
      cbn [key_items]. rewrite take_app_ge by lia.
      replace (S (length (_items g)) - length (_items g)) with 1 by lia.
      cbn [take]. by rewrite take_0.
    + intros H. destruct (IH _ H) as (-> & m & Hm). split; [done|].
      pose proof (exists_group_add _ _ _ _ _ _ Ha) as Hex1.
      apply add_inr in Ha as [Hit1 _].
      rewrite (missing_cons_absent g g1) by done.
      exists m. rewrite Hit1, length_app, <- app_assoc in Hm.
      cbn [length app] in Hm. cbn [key_items].
      by rewrite Nat.add_1_r in Hm.
Qed.

Lemma add_keys_app g ks1 ks2 :
  add_keys g (ks1 ++ ks2) =
  match add_keys g ks1 with
  | inl e => inl e
  | inr g1 => add_keys g1 ks2
  end.
Proof.
  revert g. induction ks1 as [|k ks1 IH]; intros g; simpl; [done|].
  destruct (exists_group g k); [done|].
  by destruct (add g (NKey k) k [] []).
Qed.

Lemma add_keys_indexed g keys g' :
  indexed (_items g) → add_keys g keys = inr g' → indexed (_items g').
Proof.
  revert g. induction keys as [|k keys IH]; intros g Hi; simpl.
  - by intros [= <-].
  - destruct (exists_group g k); [by apply IH|].
    destruct (add g (NKey k) k [] []) as [e|g1] eqn:Ha; [done|].
    apply IH. by eapply add_built.
Qed.

Lemma length_key_items i ks : length (key_items i ks) = length ks.
Proof. revert i. induction ks as [|k ks IH]; intros i; simpl; [done|]. by rewrite IH. Qed.

Lemma elem_of_missing g keys k :
  k ∈ missing g keys ↔ k ∈ keys ∧ ¬ ∃ it, it ∈ _items g ∧ group it = k.
Proof.
  unfold missing. rewrite list_elem_of_filter, elem_of_dedup_first.
  rewrite <- exists_group_true. destruct (exists_group g k); naive_solver.
Qed.

Lemma NoDup_missing g keys : NoDup (missing g keys).
Proof. apply NoDup_filter, NoDup_dedup_first. Qed.

(** The two key loops are one loop over the two lists in a row. *)
Lemma addActionToGraph_add_keys g n meta :
  addActionToGraph g n meta =
  match add_keys g (m_fulfills meta ++ m_dependsOn meta) with
  | inl e => inl e
  | inr g2 => add g2 n (m_group meta) (m_fulfills meta) (m_dependsOn meta)
  end.
Proof.
  unfold addActionToGraph. rewrite add_keys_app.
  by destruct (add_keys g (m_fulfills meta)).
Qed.

Lemma addActionToGraph_built g n meta g' :
  indexed (_items g) → addActionToGraph g n meta = inr g' → built g'.
Proof.
  rewrite addActionToGraph_add_keys. intros Hi.
  destruct (add_keys g _) as [e|g2] eqn:Hk; [done|].
  apply add_built. by eapply add_keys_indexed.
Qed.

Global Instance grows_refl : Reflexive grows.
Proof. intros g. exists []. by rewrite app_nil_r. Qed.

Global Instance grows_trans : Transitive grows.
Proof.
  intros g1 g2 g3 [e1 H1] [e2 H2]. exists (e1 ++ e2).
  by rewrite H2, H1, app_assoc.
Qed.

Lemma exists_group_grows g g' k :
  grows g g' → exists_group g k = true → exists_group g' k = true.
Proof.
  intros [ext Hext]. rewrite !exists_group_true. intros (it & ? & ?).
  exists it. split; [|done]. rewrite Hext. apply elem_of_app. by left.
Qed.

Lemma covers_grows g g' F D : grows g g' → covers g F D → covers g' F D.
Proof.
  intros Hg [(it & Hit & ? & ?) Hk]. split.
  - exists it. split; [|done]. destruct Hg as [ext ->].
    apply elem_of_app. by left.
  - intros k Hin. eapply exists_group_grows; [done|]. by apply Hk.
Qed.

Lemma addActionToGraph_covers g n meta g' :
  addActionToGraph g n meta = inr g' →
  grows g g' ∧ covers g' (m_fulfills meta) (m_dependsOn meta).
Proof.
  rewrite addActionToGraph_add_keys.
  destruct (add_keys g _) as [e|g2] eqn:Hk; [done|]. intros Ha.
  apply add_keys_inr in Hk as (Hit2 & Hex2 & _).
  pose proof (exists_group_add _ _ _ _ _ _ Ha) as Hex.
  apply add_inr in Ha as [Hit _].
  split; [|split].
  - eexists. by rewrite Hit, Hit2, <- app_assoc.
  - eexists. split; [rewrite Hit; apply elem_of_app; right; left|done].
  - intros k Hin. rewrite Hex, Hex2.
    rewrite (bool_decide_eq_true_2 (k ∈ _)) by (by apply elem_of_app).
    by rewrite orb_true_r.
Qed.

(** Two actions that each produce what the other needs cannot both be in
    a graph that has an order. *)
Lemma mutual_dependency_unsortable g Fa Da Fb Db x y :
  built g → covers g Fa Da → covers g Fb Db →
  x ∈ Fa → y ∈ Da → y ∈ Fb → x ∈ Db → False.
Proof.
  intros [Hi (s & Hs & _)] [(a & Ha & HFa & HDa) Hka] [(b & Hb & HFb & HDb) Hkb].
  intros Hx1 Hy1 Hy2 Hx2.
  destruct (proj1 (exists_group_true g x)) as (X & HX & HgX);
    [apply Hka; by left|].
  destruct (proj1 (exists_group_true g y)) as (Y & HY & HgY);
    [apply Hka; by right|].
  pose proof (sort_perm _ _ Hs) as Hp.
  rewrite <- Hp in Ha, Hb, HX, HY.
  apply list_elem_of_lookup in Ha as [ia Ha], Hb as [ib Hb].
  apply list_elem_of_lookup in HX as [ix HX], HY as [iy HY].
  assert (precedes a X = true) as H1.
  { unfold precedes. rewrite HgX, bool_decide_eq_true_2; [done|by apply HFa]. }
  assert (precedes X b = true) as H2.
  { unfold precedes. rewrite HgX, (bool_decide_eq_true_2 (x ∈ after b));
      [by rewrite orb_true_r|by apply HDb]. }
  assert (precedes b Y = true) as H3.
  { unfold precedes. rewrite HgY, bool_decide_eq_true_2; [done|by apply HFb]. }
  assert (precedes Y a = true) as H4.
  { unfold precedes. rewrite HgY, (bool_decide_eq_true_2 (y ∈ after a));
      [by rewrite orb_true_r|by apply HDa]. }
  pose proof (sort_sound _ _ _ _ _ _ Hi Hs Ha HX H1).
  pose proof (sort_sound _ _ _ _ _ _ Hi Hs HX Hb H2).
  pose proof (sort_sound _ _ _ _ _ _ Hi Hs Hb HY H3).
  pose proof (sort_sound _ _ _ _ _ _ Hi Hs HY Ha H4).
  lia.
Qed.

(** *** The class-level loop *)

Lemma sortActionClasses_loop_inr R g classes g' :
  sortActionClasses_loop R g classes = inr g' →
  built g →
  built g' ∧ grows g g' ∧
  ∀ cls l meta, cls ∈ classes → action_key R !! TClass cls = Some l →
    (heap R !! l) ≫= meta_of = Some meta →
    covers g' (m_fulfills meta) (m_dependsOn meta).
Proof.
  revert g. induction classes as [|c classes IH]; intros g; simpl.
  - intros [= <-] Hb. split_and!; [done|done|]. intros ??? []%elem_of_nil.
  - destruct (action_key R !! TClass c) as [l|] eqn:Hl; [|done].
    destruct ((heap R !! l) ≫= meta_of) as [meta|] eqn:Hm; [|done].
    destruct (addActionToGraph g (NObj l) meta) as [e|g1] eqn:Ha; [done|].
    intros Hloop Hb.
    pose proof (addActionToGraph_built _ _ _ _ (proj1 Hb) Ha) as Hb1.
    apply addActionToGraph_covers in Ha as [Hg1 Hc1].
    destruct (IH _ Hloop Hb1) as (Hb' & Hg' & Hc').
    split_and!; [done|by etrans|].
    intros cls l' meta' [->|Hin]%elem_of_cons Hl' Hm'.
    + simplify_eq. by eapply covers_grows.
    + by eapply Hc'.
Qed.

End GraphFacts.

(** ** The registry under inspection and sorting *)

Module RegistryFacts.
Import Keys KeysFacts Topo TopoFacts Action GraphFacts.
Export RegistrySpec.

Implicit Types (R : Reflector) (h : list Object) (o : Object) (l d : loc).

Global Instance obj_le_refl : Reflexive obj_le.
Proof.
  intros [a|m|c]; simpl; [done| |done].
  split_and!; try done. exists []. by rewrite app_nil_r.
Qed.

Global Instance obj_le_trans : Transitive obj_le.
Proof.
  intros [a1|m1|c1] [a2|m2|c2] [a3|m3|c3]; simpl; try done; try congruence.
  intros (?&?&?&[e1 He1]&?&?&?) (?&?&?&[e2 He2]&?&?&?).
  split_and!; try congruence.
  exists (e1 ++ e2). by rewrite He2, He1, app_assoc.
Qed.

Lemma obj_le_set_actionClass d o : obj_le o (set_actionClass d o).
Proof.
  destruct o as [a|m|c]; simpl; [done| |done].
  split_and!; try done. exists []. by rewrite app_nil_r.
Qed.

Lemma obj_le_push_dependsOn grp o : obj_le o (push_dependsOn grp o).
Proof.
  destruct o as [a|m|c]; simpl; [done| |done].
  split_and!; try done. by exists [grp].
Qed.

Global Instance extends_refl : Reflexive extends.
Proof. intros R. split_and!; try done. intros l o ?. by exists o. Qed.

Global Instance extends_trans : Transitive extends.
Proof.
  intros R1 R2 R3 (?&?&?&H12) (?&?&?&H23). split_and!; try congruence.
  intros l o Hl. destruct (H12 _ _ Hl) as (o2 & Hl2 & ?).
  destruct (H23 _ _ Hl2) as (o3 & ? & ?). exists o3. split; [done|by etrans].
Qed.

Lemma extends_update R l o o' :
  heap R !! l = Some o → obj_le o o' →
  extends R (set_heap R (<[l := o']> (heap R))).
Proof.
  intros Hl Hle. split_and!; try done. simpl. intros l' o1 Hl'.
  destruct (decide (l = l')) as [->|Hne].
  - exists o'. rewrite list_lookup_insert_eq by (by eapply lookup_lt_Some).
    split; [done|congruence].
  - exists o1. by rewrite list_lookup_insert_ne.
Qed.

Lemma set_actionClass_idemp d o :
  set_actionClass d (set_actionClass d o) = set_actionClass d o.
Proof. by destruct o. Qed.

Lemma foldl_stamp_lookup d ls h l :
  foldl (stamp d) h ls !! l =
  (λ o, if bool_decide (l ∈ ls) then set_actionClass d o else o) <$> (h !! l).
Proof.
  revert h. induction ls as [|l0 ls IH]; intros h; cbn [foldl].
  - rewrite bool_decide_eq_false_2 by apply not_elem_of_nil.
    by destruct (h !! l).
  - rewrite IH. unfold stamp.
    destruct (decide (l0 = l)) as [->|Hne].
    + rewrite (bool_decide_eq_true_2 (l ∈ l :: ls)) by left.
      destruct (h !! l) as [o0|] eqn:H0; [|by rewrite H0].
      rewrite list_lookup_insert_eq by (by eapply lookup_lt_Some).
      cbn [fmap option_fmap option_map]. f_equal.
      case_bool_decide; [by rewrite set_actionClass_idemp|done].
    + assert (bool_decide (l ∈ l0 :: ls) = bool_decide (l ∈ ls)) as ->.
      { apply bool_decide_ext. rewrite elem_of_cons.
        split; [intros [?|?]; [congruence|done]|by right]. }
      destruct (h !! l0) as [o0|]; [|done].
      by rewrite list_lookup_insert_ne.
Qed.

(** [inspectAction] allocates the descriptor behind everything else; the
    descriptor holds the registered method mapping as it is. *)
Lemma inspectAction_spec cls R R1 d :
  inspectAction cls R = (R1, d) →
  d = length (heap R) ∧ extends R R1 ∧
  heap R1 !! d = Some (OClass
    {| ac_meta := ((action_key R !! TClass cls) ≫= (λ l, heap R !! l)) ≫= meta_of;
       methods := default [] (action_methods_key R !! TProto cls) |}).
Proof.
  unfold inspectAction. intros [= <- <-]. split_and!; [done| |].
  - split_and!; try done. simpl. intros l o Hl.
    rewrite foldl_stamp_lookup, lookup_app_l by (by eapply lookup_lt_Some).
    rewrite Hl. simpl. eexists. split; [done|].
    case_bool_decide; [apply obj_le_set_actionClass|done].
  - simpl. rewrite foldl_stamp_lookup.
    rewrite list_lookup_middle by done. simpl. by case_bool_decide.
Qed.

Lemma covers_subseteq g F D F' D' :
  F ⊆ F' → D ⊆ D' → covers g F' D' → covers g F D.
Proof.
  intros HF HD [(it & ? & ? & ?) Hk]. split.
  - exists it. split_and!; [done|by etrans|by etrans].
  - intros k [?|?]; apply Hk; [left; by apply HF|right; by apply HD].
Qed.

Lemma obj_le_method m o' :
  obj_le (OMethod m) o' →
  ∃ m', o' = OMethod m' ∧
    m_fulfills (am_meta m') = m_fulfills (am_meta m) ∧
    m_dependsOn (am_meta m) ⊆ m_dependsOn (am_meta m').
Proof.
  destruct o' as [a|m'|c]; simpl; [done| |done].
  intros (_ & HF & _ & [ext HD] & _). exists m'. split_and!; [done|done|].
  rewrite HD. intros k ?. apply elem_of_app. by left.
Qed.

(** *** The method loop *)

Lemma sortActions_methods_inr ic d ms R g R' g' :
  sortActions_methods ic d ms R g = (R', inr g') →
  built g →
  extends R R' ∧ built g' ∧ grows g g' ∧
  ∀ n l m, (n, l) ∈ ms → heap R !! l = Some (OMethod m) →
    covers g' (m_fulfills (am_meta m)) (m_dependsOn (am_meta m)).
Proof.
  revert R g. induction ms as [|[n0 l0] ms IH]; intros R g; cbn [sortActions_methods].
  - intros [= <- <-] Hb. split_and!; [done|done|done|].
    intros ??? []%elem_of_nil.
  - set (R1 := if ic then _ else R).
    assert (extends R R1) as HR1.
    { unfold R1. destruct ic; [|done].
      destruct ((heap R !! d) ≫= meta_of) as [cm|]; [|done].
      destruct (heap R !! l0) as [o|] eqn:Ho; [|done].
      eapply extends_update; [done|apply obj_le_push_dependsOn]. }
    clearbody R1.
    destruct ((heap R1 !! l0) ≫= meta_of) as [mm|] eqn:Hmm; [|done].
    destruct (addActionToGraph g (NObj l0) mm) as [e|g1] eqn:Ha; [done|].
    intros Hloop Hb.
    pose proof (addActionToGraph_built _ _ _ _ (proj1 Hb) Ha) as Hb1.
    apply addActionToGraph_covers in Ha as [Hg1 Hc1].
    destruct (IH _ _ Hloop Hb1) as (HR' & Hb' & Hg' & Hc').
    split_and!; [by etrans|done|by etrans|].
    intros n l m Hin Hl.
    destruct HR1 as (_ & _ & _ & Hheap).
    destruct (Hheap _ _ Hl) as (o' & Hl1 & Hle).
    apply obj_le_method in Hle as (m' & -> & HF & HD).
    apply elem_of_cons in Hin as [[= -> ->]|Hin].
    + rewrite Hl1 in Hmm. simpl in Hmm. injection Hmm as <-.
      eapply covers_grows; [done|].
      eapply covers_subseteq; [|done|done]. by rewrite HF.
    + eapply covers_subseteq; [| |by eapply Hc'];
        [by rewrite HF|done].
Qed.

(** *** The class loop of [sortActions] *)

Lemma sortActions_loop_inr ic classes R g R' g' :
  sortActions_loop ic classes R g = (R', inr g') →
  built g →
  extends R R' ∧ built g' ∧ grows g g' ∧
  ∀ cls ms n l m, cls ∈ classes →
    action_methods_key R !! TProto cls = Some ms → (n, l) ∈ ms →
    heap R !! l = Some (OMethod m) →
    covers g' (m_fulfills (am_meta m)) (m_dependsOn (am_meta m)).
Proof.
  revert R g. induction classes as [|c classes IH]; intros R g;
    cbn [sortActions_loop].
  - intros [= <- <-] Hb. split_and!; [done|done|done|].
    intros ????? []%elem_of_nil.
  - destruct (inspectAction c R) as [R1 d] eqn:Hins.
    apply inspectAction_spec in Hins as (_ & HR1 & Hd).
    rewrite Hd. cbn [methods].
    set (step1 := if ic then _ else _).
    destruct step1 as [e|g1] eqn:Hstep; [done|].
    assert (built g → built g1 ∧ grows g g1) as Hg1.
    { intros Hb. unfold step1 in Hstep. destruct ic; [|by simplify_eq].
      case_match; [|done].
      split; [by eapply addActionToGraph_built; [apply Hb|]|].
      by eapply addActionToGraph_covers. }
    clear Hstep.
    destruct (sortActions_methods ic d _ R1 g1) as [R2 [e|g2]] eqn:Hms; [done|].
    intros Hloop Hb. destruct (Hg1 Hb) as [Hb1 Hgr1].
    destruct (sortActions_methods_inr _ _ _ _ _ _ _ Hms Hb1)
      as (HR2 & Hb2 & Hgr2 & Hc2).
    destruct (IH _ _ Hloop Hb2) as (HR' & Hb' & Hgr' & Hc').
    split_and!; [by etrans; [|etrans]|done|by etrans; [|etrans]|].
    intros cls ms n l m Hcls Hms' Hin Hl.
    assert (extends R R2) as (_ & _ & Hkey & Hheap) by (by etrans).
    destruct HR1 as (_ & _ & _ & Hheap1).
    apply elem_of_cons in Hcls as [->|Hcls].
    + rewrite Hms' in Hc2. cbn [default] in Hc2.
      destruct (Hheap1 _ _ Hl) as (o1 & Hl1 & Hle).
      apply obj_le_method in Hle as (m1 & -> & HF & HD).
      eapply covers_grows; [done|].
      eapply covers_subseteq; [| |by eapply Hc2]; [by rewrite HF|done].
    + destruct (Hheap _ _ Hl) as (o2 & Hl2 & Hle).
      apply obj_le_method in Hle as (m2 & -> & HF & HD).
      eapply covers_subseteq; [| |eapply Hc'; [done| |done|done]];
        [by rewrite HF|done|].
      by rewrite Hkey.
Qed.

End RegistryFacts.

(** ** Orders *)

Module OrderFacts.
Import Keys KeysFacts Topo TopoFacts Action GraphFacts RegistryFacts.
Export OrderSpec.

Lemma lookup_occurs_before {A} (l : list A) i j a b :
  l !! i = Some a → l !! j = Some b → i < j → occurs_before l a b.
Proof.
  intros Ha Hb Hij.
  destruct (list_elem_of_split_length _ _ _ Ha) as (l1 & l2 & -> & ->).
  rewrite lookup_app_r in Hb by lia.
  destruct (j - length l1) as [|m] eqn:E; [lia|]. simpl in Hb.
  destruct (list_elem_of_split_length _ _ _ Hb) as (l2' & l3 & -> & _).
  by exists l1, l2', l3.
Qed.

Lemma occurs_before_lookup {A} (l : list A) a b :
  occurs_before l a b → ∃ i j, l !! i = Some a ∧ l !! j = Some b ∧ i < j.
Proof.
  intros (l1 & l2 & l3 & ->).
  exists (length l1), (length l1 + S (length l2)). split_and!; [| |lia].
  - by rewrite list_lookup_middle.
  - rewrite lookup_app_r by lia.
    replace (length l1 + S (length l2) - length l1) with (S (length l2)) by lia.
    simpl. by rewrite list_lookup_middle.
Qed.

Lemma occurs_before_filter {A} (P : A → Prop) `{∀ x, Decision (P x)} l a b :
  P a → P b → occurs_before l a b → occurs_before (filter P l) a b.
Proof.
  intros Ha Hb (l1 & l2 & l3 & ->).
  exists (filter P l1), (filter P l2), (filter P l3).
  rewrite filter_app, filter_cons_True by done.
  by rewrite filter_app, filter_cons_True by done.
Qed.

Lemma occurs_before_filter_inv {A} (P : A → Prop) `{∀ x, Decision (P x)} l a b :
  occurs_before (filter P l) a b → occurs_before l a b.
Proof.
  induction l as [|x l IH]; [by intros ([|??] & ? & ? & ?)|].
  rewrite filter_cons. case_decide as Hx.
  - intros (l1 & l2 & l3 & Heq). destruct l1 as [|y l1]; cbn in Heq.
    + injection Heq as -> Heq.
      assert (b ∈ l) as (l' & l'' & ->)%list_elem_of_split.
      { eapply (list_elem_of_filter P). rewrite Heq, elem_of_app. right. left. }
      by exists [], l', l''.
    + injection Heq as -> Heq.
      destruct IH as (l1' & l2' & l3' & ->); [by exists l1, l2, l3|].
      by exists (y :: l1'), l2', l3'.
  - intros (l1 & l2 & l3 & ->)%IH. by exists (x :: l1), l2, l3.
Qed.

Lemma filter_fmap {A B} (f : A → B) (P : B → Prop) `{∀ x, Decision (P x)}
    (l : list A) :
  filter P (f <$> l) = f <$> filter (λ x, P (f x)) l.
Proof.
  induction l as [|x l IH]; [done|].
  rewrite fmap_cons, !filter_cons. case_decide; [|done].
  by rewrite fmap_cons, IH.
Qed.

Lemma built_order g :
  built g →
  ∃ s, order_of g s ∧ respects_constraints s ∧
    insertion_order_unless_waiting s.
Proof.
  intros [Hi (s & Hs & Hn)]. exists s.
  pose proof (sort_perm _ _ Hs) as Hp.
  pose proof (sort_NoDup _ _ Hi Hs) as Hnd.
  split_and!; [by unfold order_of| |].
  - intros a b [i Ha]%list_elem_of_lookup [j Hb]%list_elem_of_lookup. split.
    + intros Hin. eapply lookup_occurs_before; [done|done|].
      eapply sort_sound; [done|done|done|done|].
      unfold precedes. by rewrite bool_decide_eq_true_2.
    + intros Hin. eapply lookup_occurs_before; [done|done|].
      eapply sort_sound; [done|done|done|done|].
      unfold precedes. rewrite (bool_decide_eq_true_2 (_ ∈ after a)) by done.
      by rewrite orb_true_r.
  - intros u v (i & j & Hv & Hu & Hij)%occurs_before_lookup Huv.
    destruct (sort_stable _ _ _ _ _ _ Hi Hs Hv Hu Hij Huv) as (k & p & Hik & Hk & Hp').
    exists p. split_and!; [apply list_elem_of_lookup; eauto|done|].
    destruct (decide (k = i)) as [->|Hne]; [left; congruence|right].
    eapply lookup_occurs_before; [done|done|lia].
Qed.

Lemma respects_constraints_filter s :
  respects_constraints s → respects_constraints (filter is_action s).
Proof.
  intros Hs a b [Ha ?]%list_elem_of_filter [Hb ?]%list_elem_of_filter.
  destruct (Hs a b) as [H1 H2]; [done|done|].
  split; intros Hin; apply occurs_before_filter; auto.
Qed.

Lemma finish_actions g s removeKeys :
  nodes g = node <$> s →
  actions (finish g removeKeys)
  = node <$> (if removeKeys then filter is_action s else s).
Proof.
  intros Hn. unfold finish. destruct removeKeys; simpl; [|done].
  rewrite Hn. by rewrite (filter_fmap node (λ n, is_object n = true)).
Qed.

Lemma produced_built removeKeys ag :
  produced removeKeys ag →
  ∃ g, built g ∧ ag = finish g removeKeys.
Proof.
  intros [(R & classes & H)|(R & classes & ic & R' & H)].
  - unfold sortActionClasses in H.
    destruct (sortActionClasses_loop R new classes) as [e|g] eqn:Hl; [done|].
    injection H as <-. exists g. split; [|done].
    by eapply sortActionClasses_loop_inr; [|apply built_new].
  - unfold sortActions in H.
    destruct (sortActions_loop ic classes R new) as [R1 [e|g]] eqn:Hl; [done|].
    injection H as <- <-. exists g. split; [|done].
    by eapply sortActions_loop_inr; [|apply built_new].
Qed.

Lemma constrains_order s :
  (∀ i j a b, s !! i = Some a → s !! j = Some b → precedes a b = true → i < j) →
  ∀ a b, tc (constrains s) a b →
  ∀ i j, s !! i = Some a → s !! j = Some b → i < j.
Proof.
  intros Hs a b. induction 1 as [a b (_ & _ & Hab)|a y b (_ & Hy & Hay) _ IH];
    intros i j Ha Hb.
  - by eapply Hs.
  - apply list_elem_of_lookup in Hy as [k Hk].
    specialize (Hs _ _ _ _ Ha Hk Hay). specialize (IH _ _ Hk Hb). lia.
Qed.

End OrderFacts.

(** ** The executor *)

Module SequenceFacts.
Import Topo Action Sequence.
Export SequenceSpec.

Section Run.
Context {Instance Value World Failure : Type}.
Abbreviation Handlers := (Handlers Instance Value World Failure).
Abbreviation Event := (Event Instance Value).
Abbreviation Outcome := (Outcome Failure).
Implicit Types (H : Handlers) (R : Reflector) (w : World) (ms : list Node).




(** A run over [ms1 ++ ms2] is the run over [ms1] followed, when that
    one resolves, by the run over [ms2] from the world it left. *)
Lemma exec_run_loop_app H R ms1 ms2 w :
  exec H (run_loop R (ms1 ++ ms2)) w =
  let '(tr1, w1, o1) := exec H (run_loop R ms1) w in
  match o1 with
  | Resolved =>
      let '(tr2, w2, o2) := exec H (run_loop R ms2) w1 in (tr1 ++ tr2, w2, o2)
  | _ => (tr1, w1, o1)
  end.
Proof.
  revert w. induction ms1 as [|n ms1 IH]; intros w.
  - cbn. by destruct (exec H (run_loop R ms2) w) as [[tr2 w2] o2].
  - destruct n as [k|l]; [done|]. cbn [app run_loop].
    destruct (heap R !! l) as [[a|m|c]|]; try done.
    unfold run_step. destruct (owner_name R m) as [name|]; [|done].
    cbn [exec]. destruct (h_get H _ w) as [w1 [f|v]]; [done|].
    cbn [exec]. destruct (h_invoke H v _ w1) as [w2 [f|result]]; [done|].
    assert (∀ w0 (pre : list Event),
      (let '(tr, w'', o) := exec H (run_loop R (ms1 ++ ms2)) w0 in
         (pre ++ tr, w'', o)) =
      (let '(tr1, w1', o1) :=
         (let '(tr, w'', o) := exec H (run_loop R ms1) w0 in (pre ++ tr, w'', o)) in
       match o1 with
       | Resolved =>
           let '(tr2, w2', o2) := exec H (run_loop R ms2) w1' in
           (tr1 ++ tr2, w2', o2)
       | _ => (tr1, w1', o1)
       end)) as Hrest.
    { intros w0 pre. rewrite IH.
      destruct (exec H (run_loop R ms1) w0) as [[tr1 w1'] o1].
      destruct o1; try done.
      destruct (exec H (run_loop R ms2) w1') as [[tr2 w2'] o2].
      by rewrite app_assoc. }
    destruct result as [r|];
      [destruct (Decorator.truthy (bindsReturnValueAs m)) as [key|]|].
    + cbn [exec].
      specialize (Hrest (h_bind H key r w2)
        [EGet ("actions." +:+ name); EInvoke v (method m); EBind key r]).
      cbn [app] in Hrest.
      destruct (exec H (run_loop R (ms1 ++ ms2)) (h_bind H key r w2)) as [[tr w''] o].
      destruct (exec H (run_loop R ms1) (h_bind H key r w2)) as [[tr1 w1'] o1].
      exact Hrest.
    + specialize (Hrest w2 [EGet ("actions." +:+ name); EInvoke v (method m)]).
      cbn [app] in Hrest.
      destruct (exec H (run_loop R (ms1 ++ ms2)) w2) as [[tr w''] o].
      destruct (exec H (run_loop R ms1) w2) as [[tr1 w1'] o1].
      exact Hrest.
    + specialize (Hrest w2 [EGet ("actions." +:+ name); EInvoke v (method m)]).
      cbn [app] in Hrest.
      destruct (exec H (run_loop R (ms1 ++ ms2)) w2) as [[tr w''] o].
      destruct (exec H (run_loop R ms1) w2) as [[tr1 w1'] o1].
      exact Hrest.
Qed.

End Run.
End SequenceFacts.

(** * The claims *)

Section ExtractorAndBuilder.
Import Keys KeysFacts Topo TopoFacts Action GraphFacts RegistryFacts OrderFacts.
Import Examples.

(** C4.  The extractor: the keys of the plain-read injections go to
    [dependsOn] and those of the setter injections to [fulfills], the
    declared entries follow the derived ones, and the list is normalised:
    every key is cut at its first ['#'] and the list is deduplicated in
    first-seen order.  An absent list of keys is the empty list, and the
    function always returns. *)
Theorem populateActionMetadata_extracts (a : KeyLists) (injections : list Injection) :
  let reads := bindingKey <$> filter (λ p, setter p = false) injections in
  let writes := bindingKey <$> filter (λ p, setter p = true) injections in
  let r := populateActionMetadata a injections in
  kl_dependsOn r = dedup_first (base_name <$> (reads ++ kl_dependsOn a)) ∧
  kl_fulfills r = dedup_first (base_name <$> (writes ++ kl_fulfills a)) ∧
  NoDup (kl_dependsOn r) ∧ NoDup (kl_fulfills r) ∧
  (∀ k, k ∈ kl_dependsOn r ∨ k ∈ kl_fulfills r → has_hash k = false) ∧
  (∀ p, p ∈ injections →
     if setter p then base_name (bindingKey p) ∈ kl_fulfills r
     else base_name (bindingKey p) ∈ kl_dependsOn r) ∧
  (∀ k, k ∈ kl_dependsOn a → base_name k ∈ kl_dependsOn r) ∧
  (∀ k, k ∈ kl_fulfills a → base_name k ∈ kl_fulfills r) ∧
  normalizeKeys None = [].
Proof.
  intros reads writes r.
  assert (∀ keys, normalizeKeys (Some keys) = dedup_first (base_name <$> keys)) as Hn.
  { intros keys. unfold normalizeKeys. simpl. rewrite Set_from_dedup_first.
    f_equal. apply map_ext. intros k. apply strip_base_name. }
  assert (kl_dependsOn r = dedup_first (base_name <$> (reads ++ kl_dependsOn a))) as Hd.
  { unfold r, populateActionMetadata. simpl. by rewrite Hn. }
  assert (kl_fulfills r = dedup_first (base_name <$> (writes ++ kl_fulfills a))) as Hf.
  { unfold r, populateActionMetadata. simpl. by rewrite Hn. }
  split_and!; [done|done|..].
  - rewrite Hd. apply NoDup_dedup_first.
  - rewrite Hf. apply NoDup_dedup_first.
  - intros k. rewrite Hd, Hf, !elem_of_dedup_first.
    intros [(k' & -> & _)%list_elem_of_fmap|(k' & -> & _)%list_elem_of_fmap];
      apply base_name_no_hash.
  - intros p Hp. destruct (setter p) eqn:E.
    + rewrite Hf, elem_of_dedup_first. apply list_elem_of_fmap_2, elem_of_app.
      left. apply list_elem_of_fmap_2, list_elem_of_filter. done.
    + rewrite Hd, elem_of_dedup_first. apply list_elem_of_fmap_2, elem_of_app.
      left. apply list_elem_of_fmap_2, list_elem_of_filter. done.
  - intros k Hk. rewrite Hd, elem_of_dedup_first.
    apply list_elem_of_fmap_2, elem_of_app. by right.
  - intros k Hk. rewrite Hf, elem_of_dedup_first.
    apply list_elem_of_fmap_2, elem_of_app. by right.
  - done.
Qed.

Lemma count_NoDup (x : string) (l : list string) :
  NoDup l → x ∈ l → length (filter (λ k, k = x) l) = 1.
Proof.
  induction 1 as [|y l Hy Hl IH]; [by intros ?%elem_of_nil|].
  intros Hx. rewrite filter_cons. case_decide as E.
  - subst y. simpl. f_equal.
    assert (filter (λ k, k = x) l = []) as ->; [|done].
    clear -Hy. induction l as [|z l IHl]; [done|].
    apply not_elem_of_cons in Hy as [? ?].
    rewrite filter_cons_False by congruence. by apply IHl.
  - apply elem_of_cons in Hx as [->|Hx]; [done|]. by apply IH.
Qed.

(** C10.  A key that starts with ['#'] normalises to the empty string,
    the part before its first ['#']; the empty string stays in the
    normalised list, once, however many such keys there are, and so it
    does in the lists [populateActionMetadata] stores. *)
Theorem qualifier_only_key_normalizes_to_empty (keys : list string) (q : string) :
  String "#" q ∈ keys →
  strip (String "#" q) = "" ∧
  (∀ k, strip k = base_name k) ∧
  "" ∈ normalizeKeys (Some keys) ∧
  length (filter (λ k, k = "") (normalizeKeys (Some keys))) = 1 ∧
  (∀ a injections,
     keys = (bindingKey <$> filter (λ p, setter p = false) injections)
            ++ kl_dependsOn a →
     "" ∈ kl_dependsOn (populateActionMetadata a injections)) ∧
  (∀ a injections,
     keys = (bindingKey <$> filter (λ p, setter p = true) injections)
            ++ kl_fulfills a →
     "" ∈ kl_fulfills (populateActionMetadata a injections)).
Proof.
  intros Hin.
  assert ("" ∈ normalizeKeys (Some keys)) as Hempty.
  { unfold normalizeKeys. simpl. rewrite Set_from_dedup_first, elem_of_dedup_first.
    apply list_elem_of_fmap. by exists (String "#" q). }
  split_and!; [done|apply strip_base_name|done| | |].
  - apply count_NoDup; [|done]. unfold normalizeKeys. simpl.
    rewrite Set_from_dedup_first. apply NoDup_dedup_first.
  - intros a injections ->. done.
  - intros a injections ->. done.
Qed.

Lemma qualifier_only_key_witness :
  normalizeKeys (Some ["#a"; "x#y"; "#b"; "x"]) = [""; "x"] ∧
  "" ∈ normalizeKeys (Some ["#a"; "x#y"; "#b"; "x"]).
Proof.
  split; [reflexivity|].
  apply (qualifier_only_key_normalizes_to_empty ["#a"; "x#y"; "#b"; "x"] "a").
  left.
Defined.

(** C5.  [addActionToGraph] leaves the items of the graph in place and
    adds, in this order, a key node for every key of [fulfills] and then
    of [dependsOn] that is the group of no item yet (whatever node that
    item holds), each once, and the node of the action with
    [before = fulfills] and [after = dependsOn]; the nodes are then in
    the sorter's order.  The call fails only when the sorter finds the
    constraints of the items added so far contradictory. *)
Theorem addActionToGraph_steps (g : Graph) (n : Node) (meta : ActionMetadata) :
  let ks := missing g (m_fulfills meta ++ m_dependsOn meta) in
  let full := _items g ++ key_items (length (_items g)) ks
              ++ [action_item (length (_items g) + length ks) n meta] in
  NoDup ks ∧
  (∀ k, k ∈ ks ↔
     (k ∈ m_fulfills meta ∨ k ∈ m_dependsOn meta) ∧
     ¬ ∃ it, it ∈ _items g ∧ group it = k) ∧
  match addActionToGraph g n meta with
  | inr g' =>
      _items g' = full ∧
      ∃ s, sort full = Some s ∧ nodes g' = node <$> s
  | inl e =>
      e = DependencyError ∧ ∃ m, sort (take m full) = None
  end.
Proof.
  intros ks full. split_and!.
  - apply NoDup_missing.
  - intros k. unfold ks. by rewrite elem_of_missing, elem_of_app.
  - rewrite addActionToGraph_add_keys.
    destruct (add_keys g _) as [e|g2] eqn:Hk.
    + apply add_keys_inl in Hk as (-> & m & Hm). split; [done|].
      exists (m `min` length (_items g ++ key_items (length (_items g)) ks)).
      unfold full. rewrite app_assoc, take_app_le by lia.
      rewrite <- Hm. fold ks.
      destruct (decide (m ≤ length (_items g ++ key_items (length (_items g)) ks))).
      * by rewrite Nat.min_l.
      * rewrite Nat.min_r by lia. by rewrite !take_ge by lia.
    + apply add_keys_inr in Hk as (Hit2 & _ & _). fold ks in Hit2.
      assert (length (_items g2) = length (_items g) + length ks) as Hlen.
      { by rewrite Hit2, length_app, length_key_items. }
      destruct (add g2 n _ _ _) as [e|g'] eqn:Ha.
      * apply add_inl in Ha as [-> Ha]. split; [done|].
        exists (length full). rewrite take_ge by done.
        unfold full. by rewrite app_assoc, <- Hit2, <- Hlen.
      * apply add_inr in Ha as [Hit (s & Hs & Hn)].
        assert (_items g' = full) as Hfull.
        { unfold full. by rewrite Hit, Hlen, Hit2, <- app_assoc. }
        split; [done|]. exists s. by rewrite <- Hfull.
Qed.

(** C1, as amended.  In every order [sortActions] or
    [sortActionClasses] returns, a node that names a group in its
    [before] list stands before every node of that group and a node that
    names a group in its [after] list stands behind every node of that
    group, with the keys or with the keys removed.  In the order of all
    nodes, which is the order returned unless the keys are removed, a
    node stands behind a later inserted one only if one of its own
    predecessors is that node or stands behind it.  With the keys
    removed the actions returned are that order without the key nodes:
    an action stands behind a later inserted one only if one of its
    predecessors in the graph, which may be a key node that was removed,
    is that action or stands behind it in the order of all nodes. *)
Theorem sorted_order_respects_constraints (removeKeys : bool) (ag : ActionGraph) :
  produced removeKeys ag →
  ∃ s, order_of (graph ag) s ∧
    respects_constraints s ∧
    insertion_order_unless_waiting s ∧
    actions ag = node <$> (if removeKeys then filter is_action s else s) ∧
    respects_constraints (filter is_action s) ∧
    (∀ u v, occurs_before (filter is_action s) v u → seq u < seq v →
       ∃ p, p ∈ s ∧ precedes p u = true ∧ (p = v ∨ occurs_before s v p)).
Proof.
  intros (g & Hb & ->)%produced_built.
  destruct (built_order _ Hb) as (s & Ho & Hr & Hw).
  assert (graph (finish g removeKeys) = g) as -> by (by destruct removeKeys).
  exists s. do 3 (split; [done|]).
  split; [|split; [by apply respects_constraints_filter|]].
  - apply finish_actions. by destruct Ho as (_ & _ & _ & ?).
  - intros u v Hvu%occurs_before_filter_inv Hseq. by apply Hw.
Qed.

Lemma sorted_order_witness :
  ∃ ag, sortActionClasses registry ["Logger"; "StopWatch"; "HttpServer"; "Tracing"] false
        = inr ag ∧
    ∃ s, order_of (graph ag) s ∧ respects_constraints s ∧
      insertion_order_unless_waiting s ∧ actions ag = node <$> s ∧
      respects_constraints (filter is_action s) ∧
      (∀ u v, occurs_before (filter is_action s) v u → seq u < seq v →
         ∃ p, p ∈ s ∧ precedes p u = true ∧ (p = v ∨ occurs_before s v p)).
Proof.
  eexists. split; [vm_compute; reflexivity|].
  apply (sorted_order_respects_constraints false).
  left. exists registry, ["Logger"; "StopWatch"; "HttpServer"; "Tracing"].
  vm_compute. reflexivity.
Defined.

(** With the keys removed the rule of the order of all nodes does not
    hold of the actions returned in its own terms: for a consumer
    registered before the producer of its key, the producer, inserted
    later, stands in front, and the predecessor the consumer waited for
    is the key, which is not among the actions. *)
Lemma removed_key_was_waited_for :
  ∃ ag s,
    sortActionClasses two_registry ["Consumer"; "Producer"] true = inr ag ∧
    sort (_items (graph ag)) = Some s ∧
    actions ag = node <$> filter is_action s ∧
    actions ag = [NObj 1; NObj 0] ∧
    ¬ insertion_order_unless_waiting (filter is_action s).
Proof.
  eexists. eexists. split; [vm_compute; reflexivity|].
  split; [vm_compute; reflexivity|].
  split; [reflexivity|]. split; [reflexivity|].
  intros Hw.
  set (consumer := {| seq := 1; before := []; after := ["data"];
                      group := "class:Consumer"; node := NObj 0 |}).
  set (producer := {| seq := 2; before := ["data"]; after := [];
                      group := "class:Producer"; node := NObj 1 |}).
  destruct (Hw consumer producer) as (p & Hp & Hpre & _).
  - by exists [], [], [].
  - cbn. lia.
  - vm_compute in Hp.
    repeat (apply elem_of_cons in Hp as [->|Hp]; [by vm_compute in Hpre|]).
    by apply elem_of_nil in Hp.
Qed.


Lemma tc_first {A} (R : relation A) a b : tc R a b → ∃ y, R a y.
Proof. destruct 1; eauto. Qed.

Lemma tc_last {A} (R : relation A) a b : tc R a b → ∃ y, R y b.
Proof. induction 1; eauto. Qed.

(** The order of [sortActionClasses] for the classes Consumer, Bystander
    and Producer: the key [data], inserted first, stands behind the class
    Bystander, inserted third, though no constraint mentions Bystander. *)
Lemma insertion_order_not_kept :
  ∃ ag s,
    sortActionClasses tie_registry ["Consumer"; "Bystander"; "Producer"] false
      = inr ag ∧
    sort (_items (graph ag)) = Some s ∧
    actions ag = node <$> s ∧
    label tie_registry <$> actions ag
      = ["class:Bystander"; "class:Producer"; "data"; "class:Consumer"] ∧
    ¬ insertion_stable s.
Proof.
  eexists. eexists. split; [vm_compute; reflexivity|].
  split; [vm_compute; reflexivity|].
  split; [reflexivity|]. split; [reflexivity|].
  intros Hst.
  set (data := {| seq := 0; before := []; after := []; group := "data";
                  node := NKey "data" |}).
  set (bystander := {| seq := 2; before := []; after := [];
                       group := "class:Bystander"; node := NObj 1 |}).
  pose proof (Hst data bystander) as Hob.
  lapply Hob; [clear Hob; intros Hob|do 2 right; left].
  lapply Hob; [clear Hob; intros Hob|left].
  lapply Hob; [clear Hob; intros Hob|].
  2:{ split.
      - intros (y & Hy & _ & Hp)%tc_last.
        repeat (apply elem_of_cons in Hy as [->|Hy]; [by vm_compute in Hp|]).
        by apply elem_of_nil in Hy.
      - intros (y & _ & Hy & Hp)%tc_first.
        repeat (apply elem_of_cons in Hy as [->|Hy]; [by vm_compute in Hp|]).
        by apply elem_of_nil in Hy. }
  lapply Hob; [clear Hob; intros Hob|simpl; lia].
  apply occurs_before_lookup in Hob as (i & j & Hi & Hj & Hij).
  destruct j as [|j]; [lia|].
  do 3 (destruct j as [|j]; [done|]). done.
Qed.

(** For these three classes no order at all respects the constraints and
    keeps unconstrained nodes in insertion order. *)
Lemma insertion_stable_unsatisfiable (s : list (Item Node)) :
  s ≡ₚ [ {| seq := 0; before := []; after := []; group := "data";
            node := NKey "data" |};
         {| seq := 1; before := []; after := ["data"]; group := "class:Consumer";
            node := NObj 0 |};
         {| seq := 2; before := []; after := []; group := "class:Bystander";
            node := NObj 1 |};
         {| seq := 3; before := ["data"]; after := []; group := "class:Producer";
            node := NObj 2 |} ] →
  respects_constraints s → insertion_stable s → False.
Proof.
  set (data := {| seq := 0; before := []; after := []; group := "data";
                  node := NKey "data" |}).
  set (bystander := {| seq := 2; before := []; after := [];
                       group := "class:Bystander"; node := NObj 1 |}).
  set (producer := {| seq := 3; before := ["data"]; after := [];
                      group := "class:Producer"; node := NObj 2 |}).
  intros Hp Hr Hst.
  assert (NoDup s) as Hnd.
  { rewrite Hp. apply NoDup_fmap_1 with (f := seq). vm_compute.
    repeat (constructor; [set_solver|]). constructor. }
  assert (∀ x, x ∈ s → unconstrained s bystander x ∧ unconstrained s x bystander)
    as Hun.
  { assert (∀ y, y ∈ s → precedes y bystander = false ∧ precedes bystander y = false)
      as Hno.
    { intros y Hy. rewrite Hp in Hy.
      repeat (apply elem_of_cons in Hy as [->|Hy]; [by vm_compute|]).
      by apply elem_of_nil in Hy. }
    intros x Hx. repeat split.
    - intros (y & _ & Hy & Hpy)%tc_first. destruct (Hno _ Hy). congruence.
    - intros (y & Hy & _ & Hpy)%tc_last. destruct (Hno _ Hy). congruence.
    - intros (y & Hy & _ & Hpy)%tc_last. destruct (Hno _ Hy). congruence.
    - intros (y & _ & Hy & Hpy)%tc_first. destruct (Hno _ Hy). congruence. }
  assert (data ∈ s) as Hd by (rewrite Hp; left).
  assert (bystander ∈ s) as Hb by (rewrite Hp; do 2 right; left).
  assert (producer ∈ s) as Hpr by (rewrite Hp; do 3 right; left).
  destruct (occurs_before_lookup _ _ _
    (Hst data bystander Hd Hb (proj2 (Hun _ Hd)) ltac:(simpl; lia)))
    as (i1 & j1 & H1 & H2 & ?).
  destruct (occurs_before_lookup _ _ _
    (Hst bystander producer Hb Hpr (proj1 (Hun _ Hpr)) ltac:(simpl; lia)))
    as (i2 & j2 & H3 & H4 & ?).
  destruct (occurs_before_lookup _ _ _
    (proj1 (Hr producer data Hpr Hd) ltac:(left)))
    as (i3 & j3 & H5 & H6 & ?).
  pose proof (NoDup_lookup _ _ _ _ Hnd H1 H6).
  pose proof (NoDup_lookup _ _ _ _ Hnd H2 H3).
  pose proof (NoDup_lookup _ _ _ _ Hnd H4 H5).
  lia.
Qed.

(** A graph that has an order has no cycle among its constraints. *)
Lemma built_acyclic (g : Graph) (a : Item Node) :
  built g → ¬ tc (constrains (_items g)) a a.
Proof.
  intros [Hi (s & Hs & _)] Hc.
  assert (tc (constrains s) a a) as Hc'.
  { eapply tc_congruence with (f := id); [|done].
    intros x y (Hx & Hy & ?). unfold constrains.
    by rewrite !(sort_perm _ _ Hs). }
  destruct (tc_first _ _ _ Hc') as (y & [i Ha]%list_elem_of_lookup & _).
  pose proof (constrains_order s
    (λ i j a b, sort_sound _ _ i j a b Hi Hs) a a Hc' i i Ha Ha).
  lia.
Qed.

(** C2.  Two actions of which each fulfills a key the other depends on
    make both sorting functions fail: with two such classes in the list
    [sortActionClasses] raises an error, with two such methods of listed
    classes [sortActions] raises an error, and neither returns a graph.
    More generally a graph is only returned when its constraints have no
    cycle. *)
Theorem mutual_dependency_fails
    (R : Reflector) (classes : list Constructor) (A B : Constructor) (x y : string) :
  A ∈ classes → B ∈ classes →
  (∀ removeKeys la lb ma mb,
     action_key R !! TClass A = Some la → (heap R !! la) ≫= meta_of = Some ma →
     action_key R !! TClass B = Some lb → (heap R !! lb) ≫= meta_of = Some mb →
     x ∈ m_fulfills ma → y ∈ m_dependsOn ma →
     y ∈ m_fulfills mb → x ∈ m_dependsOn mb →
     ∃ e, sortActionClasses R classes removeKeys = inl e) ∧
  (∀ includeClasses removeKeys msA msB na la nb lb ma mb,
     action_methods_key R !! TProto A = Some msA → (na, la) ∈ msA →
     heap R !! la = Some (OMethod ma) →
     action_methods_key R !! TProto B = Some msB → (nb, lb) ∈ msB →
     heap R !! lb = Some (OMethod mb) →
     x ∈ m_fulfills (am_meta ma) → y ∈ m_dependsOn (am_meta ma) →
     y ∈ m_fulfills (am_meta mb) → x ∈ m_dependsOn (am_meta mb) →
     ∃ R' e, sortActions classes includeClasses removeKeys R = (R', inl e)) ∧
  (∀ removeKeys ag a,
     produced removeKeys ag → ¬ tc (constrains (_items (graph ag))) a a).
Proof.
  intros HA HB. split_and!.
  - intros rk la lb ma mb Hla Hma Hlb Hmb Hx1 Hy1 Hy2 Hx2.
    unfold sortActionClasses.
    destruct (sortActionClasses_loop R new classes) as [e|g] eqn:Hl; [by exists e|].
    exfalso.
    destruct (sortActionClasses_loop_inr _ _ _ _ Hl built_new) as (Hb & _ & Hc).
    apply (mutual_dependency_unsortable g (m_fulfills ma) (m_dependsOn ma)
             (m_fulfills mb) (m_dependsOn mb) x y); [done| | |done|done|done|done].
    + by eapply (Hc A).
    + by eapply (Hc B).
  - intros ic rk msA msB na la nb lb ma mb HmsA Hna Hla HmsB Hnb Hlb Hx1 Hy1 Hy2 Hx2.
    unfold sortActions.
    destruct (sortActions_loop ic classes R new) as [R' [e|g]] eqn:Hl;
      [by exists R', e|].
    exfalso.
    destruct (sortActions_loop_inr _ _ _ _ _ _ Hl built_new) as (_ & Hb & _ & Hc).
    apply (mutual_dependency_unsortable g
             (m_fulfills (am_meta ma)) (m_dependsOn (am_meta ma))
             (m_fulfills (am_meta mb)) (m_dependsOn (am_meta mb)) x y);
      [done| | |done|done|done|done].
    + by eapply (Hc A).
    + by eapply (Hc B).
  - intros rk ag a (g & Hb & ->)%produced_built.
    assert (graph (finish g rk) = g) as -> by (by destruct rk).
    by apply built_acyclic.
Qed.

Lemma mutual_dependency_witness :
  (∃ e, sortActionClasses cycle_registry ["A"; "B"] false = inl e) ∧
  (∃ R' e, sortActions ["A"; "B"] false false cycle_registry = (R', inl e)).
Proof.
  destruct (mutual_dependency_fails cycle_registry ["A"; "B"] "A" "B" "x" "y")
    as (H1 & H2 & _).
  - left.
  - right. left.
  - split.
    + apply (H1 false 1 3
        {| m_group := "class:A"; m_fulfills := ["x"]; m_dependsOn := ["y"];
           m_target := TClass "A" |}
        {| m_group := "class:B"; m_fulfills := ["y"]; m_dependsOn := ["x"];
           m_target := TClass "B" |}); try reflexivity; left.
    + apply (H2 false false [("run", 0)] [("run", 2)] "run" 0 "run" 2
        {| am_meta := {| m_group := "method:A.prototype.run"; m_fulfills := ["x"];
                         m_dependsOn := ["y"]; m_target := TProto "A" |};
           method := "run"; bindsReturnValueAs := None; actionClass := None;
           isStatic := false |}
        {| am_meta := {| m_group := "method:B.prototype.run"; m_fulfills := ["y"];
                         m_dependsOn := ["x"]; m_target := TProto "B" |};
           method := "run"; bindsReturnValueAs := None; actionClass := None;
           isStatic := false |}); try reflexivity; left.
Defined.

End ExtractorAndBuilder.


Section Executor.
Import Topo Action Sequence SequenceFacts RegistryFacts Examples.
Context {Instance Value World Failure : Type}.
Abbreviation Handlers := (Handlers Instance Value World Failure).
Implicit Types (H : Handlers) (R : Reflector) (w : World).

(** C7.  When the lookup of the owning instance or the invocation of an
    action fails, [run()] is rejected with that very failure; the calls
    made are those of the actions before it and the failing call, none
    of a later action; the world is the one the failing call left, with
    everything the earlier actions did to it. *)
Theorem run_failure_aborts H R (ms1 ms2 : list Node) l m name w tr1 w1 :
  exec H (run_loop R ms1) w = (tr1, w1, Resolved) →
  heap R !! l = Some (OMethod m) → owner_name R m = Some name →
  (∀ w2 f,
     h_get H ("actions." +:+ name) w1 = (w2, inl f) →
     exec H (run_loop R (ms1 ++ NObj l :: ms2)) w
     = (tr1 ++ [EGet ("actions." +:+ name)], w2, RejectedBy f)) ∧
  (∀ w2 v w3 f,
     h_get H ("actions." +:+ name) w1 = (w2, inr v) →
     h_invoke H v (method m) w2 = (w3, inl f) →
     exec H (run_loop R (ms1 ++ NObj l :: ms2)) w
     = (tr1 ++ [EGet ("actions." +:+ name); EInvoke v (method m)], w3,
        RejectedBy f)).
Proof.
  intros He Hl Ho. split.
  - intros w2 f Hg. rewrite exec_run_loop_app, He.
    cbn [run_loop]. rewrite Hl. unfold run_step. rewrite Ho.
    cbn [exec]. by rewrite Hg.
  - intros w2 v w3 f Hg Hi. rewrite exec_run_loop_app, He.
    cbn [run_loop]. rewrite Hl. unfold run_step. rewrite Ho.
    cbn [exec]. rewrite Hg. cbn [exec]. by rewrite Hi.
Qed.

End Executor.

Section SharedRecords.
Import Topo Action Sequence SequenceFacts RegistryFacts Examples.

(** The run of [HttpServer] and [MethodInvoker] without [Tracing]:
    [createRequest] is invoked, then [invoke] fails on [tracingId]. *)
Lemma run_failure_witness :
  exec store_handlers
    (run_loop registry_without_tracing [NObj 7; NObj 9]) []
  = ([EGet "actions.HttpServer"; EInvoke "actions.HttpServer" "createRequest";
      EGet "actions.MethodInvoker"; EInvoke "actions.MethodInvoker" "invoke"],
     [], RejectedBy "The key tracingId was not bound to any value.").
Proof.
  refine (proj2 (run_failure_aborts store_handlers registry_without_tracing
    [NObj 7] [] 9
    {| am_meta := {| m_group := "method:MethodInvoker.prototype.invoke";
                     m_fulfills := ["invocation"; "result"];
                     m_dependsOn := ["tracingId"; "class:MethodInvoker"];
                     m_target := TProto "MethodInvoker" |};
       method := "invoke"; bindsReturnValueAs := Some "result";
       actionClass := Some 14; isStatic := false |}
    "MethodInvoker" []
    [EGet "actions.HttpServer"; EInvoke "actions.HttpServer" "createRequest"]
    [] _ _ _) [] "actions.MethodInvoker" [] _ _ _);
    vm_compute; reflexivity.
Defined.

Lemma length_foldl_stamp d ls h : length (foldl (stamp d) h ls) = length h.
Proof.
  revert h. induction ls as [|l ls IH]; intros h; cbn [foldl]; [done|].
  rewrite IH. unfold stamp. destruct (h !! l); [|done].
  by rewrite length_insert.
Qed.

(** Whatever the registry, a second inspection of a class points every
    method record of the class to the second descriptor. *)
Lemma inspectAction_restamps cls R R1 d1 R2 d2 :
  inspectAction cls R = (R1, d1) → inspectAction cls R1 = (R2, d2) →
  d2 = S d1 ∧
  ∀ n l m, (n, l) ∈ default [] (action_methods_key R !! TProto cls) →
    heap R2 !! l = Some (OMethod m) → actionClass m = Some d2.
Proof.
  intros H1 H2. unfold inspectAction in H1, H2.
  injection H1 as <- <-. injection H2 as <- <-. cbn [heap action_methods_key].
  split.
  - by rewrite length_foldl_stamp, length_app, Nat.add_1_r.
  - intros n l m Hin. rewrite foldl_stamp_lookup.
    rewrite bool_decide_eq_true_2
      by (apply list_elem_of_fmap; by exists (n, l)).
    destruct (_ !! l) as [[a|m0|c]|]; cbn; try done. by intros [= <-].
Qed.

(** C8, at the class [StopWatch] of the tests.  Two inspections return
    two different descriptors that hold equal properties and the very
    same two method records; after the second inspection the
    [actionClass] of these records is the second descriptor, also when
    they are reached from the first one. *)
Lemma inspectAction_twice_shares_method_records :
  let first := inspectAction "StopWatch" registry in
  let second := inspectAction "StopWatch" (fst first) in
  let R1 := fst first in
  let R2 := fst second in
  let c := {| ac_meta := Some {| m_group := "timer-group"; m_fulfills := [];
                                 m_dependsOn := []; m_target := TClass "StopWatch" |};
              methods := [("start", 0); ("stop", 1)] |} in
  snd first = 13 ∧ snd second = 14 ∧
  heap R2 !! 13 = Some (OClass c) ∧ heap R2 !! 14 = Some (OClass c) ∧
  actionClass_of registry 0 = None ∧ actionClass_of registry 1 = None ∧
  actionClass_of R1 0 = Some 13 ∧ actionClass_of R1 1 = Some 13 ∧
  actionClass_of R2 0 = Some 14 ∧ actionClass_of R2 1 = Some 14.
Proof. cbn zeta. split_and!; vm_compute; reflexivity. Qed.

(** C9, at the classes of the tests.  The record the registry holds for
    [StopWatch.prototype.start] has one more entry in its [dependsOn]
    list after every call of [sortActions] that includes the classes. *)
Lemma sortActions_appends_to_stored_dependsOn :
  let R1 := fst (sortActions test_classes true false registry) in
  let R2 := fst (sortActions test_classes true false R1) in
  stored_dependsOn registry (TProto "StopWatch") "start"
    = Some ["http.request"] ∧
  stored_dependsOn R1 (TProto "StopWatch") "start"
    = Some ["http.request"; "timer-group"] ∧
  stored_dependsOn R2 (TProto "StopWatch") "start"
    = Some ["http.request"; "timer-group"; "timer-group"].
Proof. cbn zeta. split_and!; vm_compute; reflexivity. Qed.

(** C3, at the classes of the tests.  The first call of [sortActions]
    without the classes returns the order the test expects; after a call
    that includes the classes the same call returns another order, with
    the groups of the classes as key nodes. *)
Lemma sortActions_depends_on_earlier_calls :
  let first := sortActions test_classes false false registry in
  let R2 := fst (sortActions test_classes true false (fst first)) in
  let again := sortActions test_classes false false R2 in
  labels first =
    ["method:HttpServer.prototype.createRequest"; "http.request";
     "method:StopWatch.prototype.start"; "startTime";
     "method:Tracing.prototype.setupTracingId"; "tracingId";
     "method:MethodInvoker.prototype.invoke"; "invocation";
     "method:StopWatch.prototype.stop"; "duration";
     "method:Logger.prototype.log"; "result"] ∧
  labels again =
    ["class:Logger"; "timer-group"; "class:HttpServer";
     "method:HttpServer.prototype.createRequest"; "http.request";
     "method:StopWatch.prototype.start"; "startTime";
     "class:MethodInvoker"; "class:Tracing";
     "method:Tracing.prototype.setupTracingId"; "tracingId";
     "method:MethodInvoker.prototype.invoke"; "invocation";
     "method:StopWatch.prototype.stop"; "duration";
     "method:Logger.prototype.log"; "result"] ∧
  labels first ≠ labels again.
Proof. cbn zeta. split_and!; [vm_compute; reflexivity..|by vm_compute]. Qed.

(** The orders the tests of the repository expect. *)
Example sorts_action_classes :
  labels (registry, sortActionClasses registry
            ["Logger"; "StopWatch"; "HttpServer"; "Tracing"] false)
  = ["log.prefix"; "log.level"; "class:Logger"; "logging"; "timer-group";
     "class:HttpServer"; "class:Tracing"].
Proof. vm_compute. reflexivity. Qed.

Example generates_dot_order :
  labels (sortActions test_classes true false registry)
  = ["log.prefix"; "log.level"; "class:Logger"; "logging"; "timer-group";
     "class:HttpServer"; "method:HttpServer.prototype.createRequest";
     "http.request"; "method:StopWatch.prototype.start"; "startTime";
     "class:MethodInvoker"; "class:Tracing";
     "method:Tracing.prototype.setupTracingId"; "tracingId";
     "method:MethodInvoker.prototype.invoke"; "invocation";
     "method:StopWatch.prototype.stop"; "duration";
     "method:Logger.prototype.log"; "result"].
Proof. vm_compute. reflexivity. Qed.

End SharedRecords.

(** * Further properties *)

(** ** Keys *)

Module KeysMore.
Import Keys KeysFacts.

Lemma normalizeKeys_dedup_first keys :
  normalizeKeys (Some keys) = dedup_first (base_name <$> keys).
Proof.
  unfold normalizeKeys. cbn [default]. rewrite Set_from_dedup_first.
  f_equal. apply map_ext. intros k. apply strip_base_name.
Qed.

Lemma fmap_base_name_id (keys : list string) :
  (∀ k, k ∈ keys → has_hash k = false) → base_name <$> keys = keys.
Proof.
  induction keys as [|k keys IH]; intros Hk; [done|].
  rewrite fmap_cons, base_name_id, IH; [done| |].
  - intros k' ?. apply Hk. by right.
  - apply Hk. left.
Qed.

(** X2.  A list of keys without ['#'] and without duplicates is left as
    it is by [normalizeKeys]. *)
Theorem normalizeKeys_fixed (keys : list string) :
  NoDup keys → (∀ k, k ∈ keys → has_hash k = false) →
  normalizeKeys (Some keys) = keys.
Proof.
  intros Hnd Hk.
  by rewrite normalizeKeys_dedup_first, fmap_base_name_id, dedup_first_NoDup.
Qed.

Lemma normalizeKeys_fixed_witness :
  normalizeKeys (Some ["http.request"; "startTime"]) = ["http.request"; "startTime"].
Proof.
  apply normalizeKeys_fixed.
  - repeat (constructor; [set_solver|]). constructor.
  - intros k Hk. repeat (apply elem_of_cons in Hk as [->|Hk]; [reflexivity|]).
    by apply elem_of_nil in Hk.
Defined.

(** X1.  Normalising twice is normalising once, for the keys and for the
    extractor run again on its own result without injections. *)
Theorem normalizeKeys_idempotent (keys : option (list string)) (a : KeyLists) (injections : list Injection) :
  normalizeKeys (Some (normalizeKeys keys)) = normalizeKeys keys ∧
  populateActionMetadata (populateActionMetadata a injections) []
  = populateActionMetadata a injections.
Proof.
  assert (∀ ks, normalizeKeys (Some (normalizeKeys (Some ks)))
                = normalizeKeys (Some ks)) as Hidem.
  { intros ks. rewrite (normalizeKeys_dedup_first ks).
    rewrite normalizeKeys_dedup_first, fmap_base_name_id, dedup_first_NoDup;
      [done|apply NoDup_dedup_first|].
    intros k (k' & -> & _)%elem_of_dedup_first%list_elem_of_fmap.
    apply base_name_no_hash. }
  split.
  - destruct keys as [ks|]; [apply Hidem|done].
  - unfold populateActionMetadata. cbn [kl_dependsOn kl_fulfills filter].
    rewrite !filter_nil. cbn [fmap list_fmap app map]. by rewrite !Hidem.
Qed.

End KeysMore.

(** ** The decorator *)

Module DecoratorFacts.
Import Keys KeysFacts KeysMore Topo Action Decorator.
Export DecoratorSpec.

Lemma string_length_app (s1 s2 : string) :
  String.length (s1 +:+ s2) = String.length s1 + String.length s2.
Proof. induction s1 as [|c s1 IH]; simpl; [done|]. by rewrite IH. Qed.

Lemma string_app_inv_head (p s1 s2 : string) : p +:+ s1 = p +:+ s2 → s1 = s2.
Proof. induction p as [|c p IH]; simpl; [done|]. intros [= ?]. by apply IH. Qed.

Lemma obj_get_None {A} (o : list (string * A)) k :
  k ∉ o.*1 → obj_get o k = None.
Proof.
  induction o as [|[k0 v0] o IH]; cbn [obj_get]; [done|].
  rewrite fmap_cons. cbn [fst]. intros [? ?]%not_elem_of_cons.
  rewrite bool_decide_eq_false_2 by done. by apply IH.
Qed.

Lemma obj_get_app {A} (o1 o2 : list (string * A)) k :
  obj_get (o1 ++ o2) k
  = match obj_get o1 k with Some v => Some v | None => obj_get o2 k end.
Proof.
  induction o1 as [|[k0 v0] o1 IH]; cbn [obj_get app]; [done|].
  by case_bool_decide.
Qed.

Lemma obj_replace_split {A} (o : list (string * A)) k v :
  k ∈ o.*1 →
  ∃ o1 v0 o2, o = o1 ++ (k, v0) :: o2 ∧ (k ∉ o1.*1) ∧
    obj_replace o k v = o1 ++ (k, v) :: o2.
Proof.
  induction o as [|[k0 v0] o IH]; cbn [obj_replace].
  - by intros ?%elem_of_nil.
  - rewrite fmap_cons. cbn [fst]. intros Hin.
    destruct (decide (k0 = k)) as [->|E].
    + rewrite bool_decide_eq_true_2 by done.
      exists [], v0, o. split_and!; [done|apply not_elem_of_nil|done].
    + rewrite bool_decide_eq_false_2 by done.
      apply elem_of_cons in Hin as [?|Hin]; [congruence|].
      destruct (IH Hin) as (o1 & v1 & o2 & -> & Hk & ->).
      exists ((k0, v0) :: o1), v1, o2. split_and!; [done| |done].
      rewrite fmap_cons. cbn [fst]. by apply not_elem_of_cons.
Qed.

Lemma obj_insert_split {A} i (o : list (string * A)) k v :
  ∃ o1 o2, o = o1 ++ o2 ∧ obj_insert i o k v = o1 ++ (k, v) :: o2.
Proof.
  induction o as [|[k0 v0] o IH]; cbn [obj_insert].
  - by exists [], [].
  - destruct (array_index k0) as [j|]; [|by exists [], ((k0, v0) :: o)].
    destruct (j <? i)%N; [|by exists [], ((k0, v0) :: o)].
    destruct IH as (o1 & o2 & -> & ->). by exists ((k0, v0) :: o1), o2.
Qed.

(** What an assignment does to the list of the properties. *)
Lemma obj_set_split {A} (o : list (string * A)) k v :
  ∃ o1 o2, obj_set o k v = o1 ++ (k, v) :: o2 ∧ (k ∉ o1.*1) ∧
    (((k ∉ o.*1) ∧ o = o1 ++ o2) ∨ (∃ v0, o = o1 ++ (k, v0) :: o2)).
Proof.
  unfold obj_set. case_bool_decide as Hin.
  - destruct (obj_replace_split o k v Hin) as (o1 & v0 & o2 & -> & Hk & ->).
    exists o1, o2. split_and!; [done|done|]. right. by exists v0.
  - assert (∀ o1 o2, o = o1 ++ o2 → k ∉ o1.*1) as Hout.
    { intros o1 o2 -> Hk. apply Hin. rewrite fmap_app, elem_of_app. by left. }
    destruct (array_index k) as [i|].
    + destruct (obj_insert_split i o k v) as (o1 & o2 & Ho & ->).
      exists o1, o2. split_and!; [done|by eapply Hout|by left].
    + exists o, []. rewrite app_nil_r. split_and!; [done|done|by left].
Qed.

Lemma obj_get_set_eq {A} (o : list (string * A)) k v :
  obj_get (obj_set o k v) k = Some v.
Proof.
  destruct (obj_set_split o k v) as (o1 & o2 & -> & Hk & _).
  rewrite obj_get_app, (obj_get_None o1 k Hk). cbn [obj_get].
  by rewrite bool_decide_eq_true_2.
Qed.

Lemma obj_get_set_ne {A} (o : list (string * A)) k v k' :
  k' ≠ k → obj_get (obj_set o k v) k' = obj_get o k'.
Proof.
  intros Hne. destruct (obj_set_split o k v) as (o1 & o2 & -> & _ & Ho).
  rewrite obj_get_app. cbn [obj_get]. rewrite bool_decide_eq_false_2 by done.
  destruct Ho as [[_ ->]|[v0 ->]]; rewrite obj_get_app; [done|].
  cbn [obj_get]. by rewrite bool_decide_eq_false_2 by done.
Qed.

(** An assignment leaves the other names in the order they have. *)
Lemma obj_set_others {A} (o : list (string * A)) k v :
  filter (λ x, x ≠ k) (obj_set o k v).*1 = filter (λ x, x ≠ k) o.*1.
Proof.
  destruct (obj_set_split o k v) as (o1 & o2 & -> & _ & Ho).
  rewrite fmap_app, fmap_cons, filter_app. cbn [fst].
  rewrite filter_cons_False by (by intros ?).
  destruct Ho as [[_ ->]|[v0 ->]].
  - by rewrite fmap_app, filter_app.
  - rewrite fmap_app, fmap_cons, filter_app. cbn [fst].
    by rewrite filter_cons_False by (by intros ?).
Qed.

Lemma obj_set_keys_present {A} (o : list (string * A)) k v :
  k ∈ o.*1 → (obj_set o k v).*1 = o.*1.
Proof.
  intros Hin. destruct (obj_set_split o k v) as (o1 & o2 & -> & _ & Ho).
  destruct Ho as [[? _]|[v0 ->]]; [done|].
  by rewrite !fmap_app, !fmap_cons.
Qed.

Lemma obj_set_keys_new {A} (o : list (string * A)) k v :
  k ∉ o.*1 → array_index k = None → (obj_set o k v).*1 = o.*1 ++ [k].
Proof.
  intros Hin Hk. unfold obj_set. rewrite bool_decide_eq_false_2 by done.
  rewrite Hk. by rewrite fmap_app.
Qed.

Lemma obj_set_keys_Permutation {A} (o : list (string * A)) k v :
  (obj_set o k v).*1 ≡ₚ if bool_decide (k ∈ o.*1) then o.*1 else k :: o.*1.
Proof.
  case_bool_decide as Hin; [by rewrite obj_set_keys_present|].
  destruct (obj_set_split o k v) as (o1 & o2 & -> & _ & Ho).
  destruct Ho as [[_ ->]|[v0 ->]].
  - rewrite !fmap_app, fmap_cons. cbn [fst]. by rewrite Permutation_middle.
  - exfalso. apply Hin. rewrite fmap_app, fmap_cons, elem_of_app. right. left.
Qed.

Lemma NoDup_obj_set {A} (o : list (string * A)) k v :
  NoDup o.*1 → NoDup (obj_set o k v).*1.
Proof.
  intros Hnd. rewrite obj_set_keys_Permutation.
  case_bool_decide; [done|]. by apply NoDup_cons.
Qed.

Lemma elem_of_obj_set {A} (o : list (string * A)) k v k' v' :
  NoDup o.*1 → (k', v') ∈ obj_set o k v →
  (k' = k ∧ v' = v) ∨ (k' ≠ k ∧ (k', v') ∈ o).
Proof.
  intros Hnd. destruct (obj_set_split o k v) as (o1 & o2 & -> & Hk1 & Ho).
  assert (k ∉ o2.*1) as Hk2.
  { destruct Ho as [[Hk ->]|[v0 ->]].
    - intros ?. apply Hk. rewrite fmap_app, elem_of_app. by right.
    - rewrite fmap_app, fmap_cons in Hnd.
      apply NoDup_app in Hnd as (_ & _ & Hnd). by apply NoDup_cons in Hnd as [? _]. }
  assert (∀ x, x ∈ o1 ∨ x ∈ o2 → x ∈ o) as Hsub.
  { intros x Hx. destruct Ho as [[_ ->]|[v0 ->]]; rewrite elem_of_app;
      [done|]. destruct Hx; [by left|right; by right]. }
  rewrite elem_of_app, elem_of_cons. intros [Hin|[[= -> ->]|Hin]].
  - right. split; [|apply Hsub; by left]. intros ->. apply Hk1.
    by apply (list_elem_of_fmap_2 fst) in Hin.
  - by left.
  - right. split; [|apply Hsub; by right]. intros ->. apply Hk2.
    by apply (list_elem_of_fmap_2 fst) in Hin.
Qed.

(** Which names are array indices. *)
Lemma array_index_values :
  array_index "0" = Some 0%N ∧ array_index "7" = Some 7%N ∧
  array_index "4294967294" = Some 4294967294%N ∧
  array_index "4294967295" = None ∧ array_index "07" = None ∧
  array_index "" = None ∧ array_index "-1" = None ∧ array_index "1.5" = None ∧
  array_index "start" = None ∧ array_index "__proto__" = None.
Proof. vm_compute. by repeat split. Qed.

Lemma array_index_inj k1 k2 i :
  array_index k1 = Some i → array_index k2 = Some i → k1 = k2.
Proof.
  unfold array_index. intros H1 H2.
  destruct (NilEmpty.uint_of_string k1) as [u1|]; [|done].
  destruct (NilEmpty.uint_of_string k2) as [u2|]; [|done].
  destruct (bool_decide _ && _) eqn:E1 in H1; [|done].
  destruct (bool_decide _ && _) eqn:E2 in H2; [|done].
  apply andb_true_iff in E1 as [E1%bool_decide_eq_true _].
  apply andb_true_iff in E2 as [E2%bool_decide_eq_true _].
  congruence.
Qed.

Lemma enum_before_index a b i :
  array_index a = Some i →
  enum_before a b ↔ match array_index b with Some j => (i < j)%N | None => True end.
Proof. intros Ha. unfold enum_before. by rewrite Ha. Qed.

Lemma enumerated_snoc names k :
  enumerated names → array_index k = None → enumerated (names ++ [k]).
Proof.
  intros Hs Hk. induction Hs as [|a names Hs IH Ha]; cbn [app].
  - repeat constructor.
  - constructor; [done|]. apply Forall_app. split; [done|].
    apply Forall_singleton. unfold enum_before. rewrite Hk.
    by destruct (array_index a).
Qed.

Lemma enumerated_insert {A} i (o : list (string * A)) k v :
  array_index k = Some i → k ∉ o.*1 → enumerated o.*1 →
  enumerated (obj_insert i o k v).*1.
Proof.
  intros Hk. induction o as [|[k0 v0] o IH]; cbn [obj_insert].
  - intros _ _. repeat constructor.
  - rewrite fmap_cons. cbn [fst]. intros [Hne Hin]%not_elem_of_cons Hs.
    apply StronglySorted_inv in Hs as [Hs Hall].
    assert (enum_before k k0 →
      enumerated ((k, v) :: (k0, v0) :: o).*1) as Hfront.
    { intros Hkk0. rewrite !fmap_cons. cbn [fst].
      constructor; [by constructor|]. constructor; [done|].
      eapply Forall_impl; [exact Hall|]. intros x Hx. cbn in Hx.
      revert Hkk0 Hx. unfold enum_before. rewrite Hk.
      destruct (array_index k0) as [j|], (array_index x) as [y|]; try done.
      lia. }
    destruct (array_index k0) as [j|] eqn:Hk0.
    + destruct (j <? i)%N eqn:Hji.
      * apply N.ltb_lt in Hji. rewrite fmap_cons. cbn [fst].
        constructor; [by apply IH|].
        destruct (obj_insert_split i o k v) as (o1 & o2 & Ho & ->).
        rewrite Ho, fmap_app in Hall. apply Forall_app in Hall as [H1 H2].
        rewrite fmap_app, fmap_cons. cbn [fst].
        apply Forall_app. split; [done|]. constructor; [|done].
        unfold enum_before. by rewrite Hk0, Hk.
      * apply N.ltb_ge in Hji. apply Hfront.
        unfold enum_before. rewrite Hk, Hk0.
        assert (i ≠ j); [|lia]. intros ->. apply Hne.
        by eapply array_index_inj.
    + apply Hfront. unfold enum_before. by rewrite Hk, Hk0.
Qed.

(** An assignment keeps the properties in enumeration order. *)
Lemma enumerated_obj_set {A} (o : list (string * A)) k v :
  enumerated o.*1 → enumerated (obj_set o k v).*1.
Proof.
  intros Hs. destruct (decide (k ∈ o.*1)) as [Hin|Hin].
  - by rewrite obj_set_keys_present.
  - destruct (array_index k) as [i|] eqn:Hk.
    + unfold obj_set. rewrite bool_decide_eq_false_2 by done. rewrite Hk.
      by apply enumerated_insert.
    + rewrite obj_set_keys_new by done. by apply enumerated_snoc.
Qed.

Lemma normalized_populate a injections : normalized (populate a injections).
Proof.
  unfold normalized, populate, populateActionMetadata.
  cbn [m_fulfills m_dependsOn kl_fulfills kl_dependsOn].
  rewrite !normalizeKeys_dedup_first.
  split_and!; [apply NoDup_dedup_first..|].
  intros k [Hk|Hk]; rewrite elem_of_dedup_first in Hk;
    apply list_elem_of_fmap in Hk as (k' & -> & _);
    apply base_name_no_hash.
Qed.

Lemma populate_frame a injections :
  m_group (populate a injections) = m_group a ∧
  m_target (populate a injections) = m_target a.
Proof. done. Qed.

(** A decoration leaves the objects of the heap where they are. *)
Lemma action_method_heap meta t n injections R l o :
  heap R !! l = Some o →
  heap (action_method meta t n injections R) !! l = Some o.
Proof.
  intros Hl. unfold action_method. destruct t; cbn [heap];
    by rewrite lookup_app_l by (by eapply lookup_lt_Some).
Qed.

Lemma action_class_heap meta cls injections R l o :
  heap R !! l = Some o →
  heap (action_class meta cls injections R) !! l = Some o.
Proof.
  intros Hl. unfold action_class. cbn [heap].
  by rewrite lookup_app_l by (by eapply lookup_lt_Some).
Qed.

Lemma action_method_unfold meta t n injections R :
  action_method meta t n injections R =
  {| heap := heap R ++ [OMethod (method_record meta t n injections)];
     action_key := action_key R;
     action_key_method := <[(t, n) := length (heap R)]> (action_key_method R);
     action_methods_key :=
       <[t := set_method (default [] (action_methods_key R !! t)) n (length (heap R))]>
         (action_methods_key R) |}.
Proof. unfold action_method, method_record. by destruct t. Qed.

Lemma action_class_unfold meta cls injections R :
  action_class meta cls injections R =
  {| heap := heap R ++
       [OMeta (populate (declared meta ("class:" +:+ cls) (TClass cls)) injections)];
     action_key := <[TClass cls := length (heap R)]> (action_key R);
     action_key_method := action_key_method R;
     action_methods_key := action_methods_key R |}.
Proof. done. Qed.

Lemma normalized_method_record meta t n injections :
  normalized (am_meta (method_record meta t n injections)).
Proof. apply normalized_populate. Qed.

Lemma well_formed_empty : well_formed empty_registry.
Proof.
  split; intros ??; unfold empty_registry;
    cbn [action_key action_methods_key]; by rewrite lookup_empty.
Qed.

Lemma well_formed_action_class meta cls injections R :
  well_formed R → well_formed (action_class meta cls injections R).
Proof.
  intros [Hc Hm]. rewrite action_class_unfold. split.
  - cbn [action_key heap]. intros t l.
    destruct (decide (TClass cls = t)) as [<-|Hne].
    + rewrite lookup_insert_eq. intros [= <-].
      eexists cls, _. split_and!; [done|by rewrite list_lookup_middle|done|].
      apply normalized_populate.
    + rewrite lookup_insert_ne by done. intros Hl.
      destruct (Hc _ _ Hl) as (c & a & -> & Ha & ? & ?).
      exists c, a. split_and!; try done.
      by rewrite lookup_app_l by (by eapply lookup_lt_Some).
  - cbn [action_methods_key action_key_method heap]. intros t ms Hms.
    destruct (Hm _ _ Hms) as (Hnd & Hen & Hpr & Hall). split_and!; [done..|].
    intros n l Hin. destruct (Hall _ _ Hin) as (? & ? & m & Hl & ?).
    split_and!; [done|done|]. exists m. split; [|done].
    by rewrite lookup_app_l by (by eapply lookup_lt_Some).
Qed.

Lemma well_formed_action_method meta t n injections R :
  n ≠ EmptyString → well_formed R →
  well_formed (action_method meta t n injections R).
Proof.
  intros Hn [Hc Hm]. rewrite action_method_unfold. split.
  - cbn [action_key heap]. intros t' l Hl.
    destruct (Hc _ _ Hl) as (c & a & -> & Ha & ? & ?).
    exists c, a. split_and!; try done.
    by rewrite lookup_app_l by (by eapply lookup_lt_Some).
  - cbn [action_methods_key action_key_method heap]. intros t' ms'.
    destruct (decide (t = t')) as [<-|Hne].
    + rewrite lookup_insert_eq. intros [= <-].
      assert (NoDup (default [] (action_methods_key R !! t)).*1 ∧
              enumerated (default [] (action_methods_key R !! t)).*1 ∧
              ("__proto__" ∉ (default [] (action_methods_key R !! t)).*1) ∧
              ∀ n0 l0, (n0, l0) ∈ default [] (action_methods_key R !! t) →
                n0 ≠ EmptyString ∧ action_key_method R !! (t, n0) = Some l0 ∧
                ∃ m, heap R !! l0 = Some (OMethod m) ∧ method m = n0 ∧
                  m_target (am_meta m) = t ∧ isStatic m = static_target t ∧
                  normalized (am_meta m)) as (Hnd & Hen & Hpr & Hall).
      { destruct (action_methods_key R !! t) as [ms|] eqn:E; cbn [default].
        - by apply Hm.
        - split_and!; [constructor|constructor|apply not_elem_of_nil|].
          by intros ?? ?%elem_of_nil. }
      assert (∀ n0 l0, (n0, l0) ∈ default [] (action_methods_key R !! t) →
        n0 ≠ n →
        n0 ≠ EmptyString ∧
        <[(t, n) := length (heap R)]> (action_key_method R) !! (t, n0) = Some l0 ∧
        ∃ m, (heap R ++ [OMethod (method_record meta t n injections)]) !! l0
             = Some (OMethod m) ∧ method m = n0 ∧
          m_target (am_meta m) = t ∧ isStatic m = static_target t ∧
          normalized (am_meta m)) as Hold.
      { intros n0 l0 Hin Hne. destruct (Hall _ _ Hin) as (? & ? & m & Hl & ?).
        rewrite lookup_insert_ne by congruence. split_and!; [done|done|].
        exists m. split; [|done].
        by rewrite lookup_app_l by (by eapply lookup_lt_Some). }
      unfold set_method. case_bool_decide as Hproto.
      * split_and!; [done..|]. intros n0 l0 Hin. apply Hold; [done|].
        intros ->. apply Hpr. rewrite Hproto in Hin.
        by apply (list_elem_of_fmap_2 fst) in Hin.
      * split_and!; [by apply NoDup_obj_set|by apply enumerated_obj_set| |].
        { rewrite obj_set_keys_Permutation. case_bool_decide; [done|].
          by apply not_elem_of_cons. }
        intros n0 l0 Hin.
        apply (elem_of_obj_set _ _ _ _ _ Hnd) in Hin as [[-> ->]|[Hne Hin]];
          [|by apply Hold].
        rewrite lookup_insert_eq. split_and!; [done|done|].
        eexists. split_and!; [by rewrite list_lookup_middle|done| |done|].
        -- unfold method_record. by destruct (_ ≫= _).
        -- apply normalized_method_record.
    + rewrite lookup_insert_ne by done. intros Hms.
      destruct (Hm _ _ Hms) as (Hnd & Hen & Hpr & Hall). split_and!; [done..|].
      intros n0 l0 Hin. destruct (Hall _ _ Hin) as (? & ? & m & Hl & ?).
      rewrite lookup_insert_ne by congruence. split_and!; [done|done|].
      exists m. split; [|done].
      by rewrite lookup_app_l by (by eapply lookup_lt_Some).
Qed.

End DecoratorFacts.

Module DecoratorMore.
Import Keys KeysFacts KeysMore Topo Action Decorator DecoratorFacts TestClasses.

(** X3.  The decoration of a method (its name is not ['']) puts one
    new record at the end of the heap and registers that very record
    under the target and the method and, unless the method is
    ['__proto__'], in the method mapping of the target.  The mapping
    stays in enumeration order: the other methods keep their records and
    their order, a method decorated again keeps its place, and a new one
    that is no array index goes last.  Nothing else in the registry
    changes. *)
Theorem action_method_registers meta t n injections R :
  n ≠ EmptyString →
  let R' := action_method meta t n injections R in
  let l := length (heap R) in
  let ms := default [] (action_methods_key R !! t) in
  let ms' := default [] (action_methods_key R' !! t) in
  (∃ m, heap R' !! l = Some (OMethod m) ∧ method m = n ∧
        m_target (am_meta m) = t ∧ actionClass m = None) ∧
  action_key_method R' !! (t, n) = Some l ∧
  (∀ t' n', (t', n') ≠ (t, n) →
     action_key_method R' !! (t', n') = action_key_method R !! (t', n')) ∧
  (n ≠ "__proto__" → obj_get ms' n = Some l) ∧
  (n = "__proto__" → ms' = ms) ∧
  (∀ n', n' ≠ n → obj_get ms' n' = obj_get ms n') ∧
  filter (λ x, x ≠ n) ms'.*1 = filter (λ x, x ≠ n) ms.*1 ∧
  (n ∈ ms.*1 → ms'.*1 = ms.*1) ∧
  (n ∉ ms.*1 → n ≠ "__proto__" → array_index n = None →
     ms'.*1 = ms.*1 ++ [n]) ∧
  (enumerated ms.*1 → enumerated ms'.*1) ∧
  (∀ t', t' ≠ t → action_methods_key R' !! t' = action_methods_key R !! t') ∧
  action_key R' = action_key R ∧
  length (heap R') = S (length (heap R)) ∧
  (∀ l' o, heap R !! l' = Some o → heap R' !! l' = Some o).
Proof.
  intros _. cbn zeta. rewrite action_method_unfold.
  cbn [heap action_key action_key_method action_methods_key].
  rewrite !lookup_insert_eq. cbn [default]. unfold set_method. split_and!.
  - eexists. split_and!; [by rewrite list_lookup_middle|done| |done].
    unfold method_record. by destruct (_ ≫= _).
  - done.
  - intros t' n' Hne. by rewrite lookup_insert_ne.
  - intros Hne. rewrite bool_decide_eq_false_2 by done. apply obj_get_set_eq.
  - intros ->. by rewrite bool_decide_eq_true_2.
  - intros n' Hne. case_bool_decide; [done|]. by apply obj_get_set_ne.
  - case_bool_decide; [done|]. apply obj_set_others.
  - intros Hin. case_bool_decide; [done|]. by apply obj_set_keys_present.
  - intros Hin Hne Hidx. rewrite bool_decide_eq_false_2 by done.
    by apply obj_set_keys_new.
  - intros Hen. case_bool_decide; [done|]. by apply enumerated_obj_set.
  - intros t' Hne. by rewrite lookup_insert_ne.
  - done.
  - rewrite length_app. cbn [length]. lia.
  - intros l' o Hl. by rewrite lookup_app_l by (by eapply lookup_lt_Some).
Qed.

Lemma action_method_registers_witness :
  let R := action_method None (TProto "A") "a" []
             (action_method None (TProto "A") "1" []
                (action_method None (TProto "A") "b" [] empty_registry)) in
  let R' := action_method None (TProto "A") "0" [] R in
  "0" ≠ EmptyString ∧
  (default [] (action_methods_key R !! TProto "A")).*1 = ["1"; "b"; "a"] ∧
  (default [] (action_methods_key R' !! TProto "A")).*1 = ["0"; "1"; "b"; "a"] ∧
  filter (λ x, x ≠ "0") (default [] (action_methods_key R' !! TProto "A")).*1
  = filter (λ x, x ≠ "0") (default [] (action_methods_key R !! TProto "A")).*1.
Proof.
  cbn zeta. split; [done|]. do 2 (split; [vm_compute; reflexivity|]).
  apply (action_method_registers None (TProto "A") "0" []
    (action_method None (TProto "A") "a" []
       (action_method None (TProto "A") "1" []
          (action_method None (TProto "A") "b" [] empty_registry)))).
  done.
Defined.

(** X4.  The key a method binds its return value as is a key the method
    fulfills: with a non-empty [bindsReturnValueAs] the record carries
    it and has its base name in [fulfills]; the declared [fulfills]
    stay, too. *)
Theorem bindsReturnValueAs_fulfilled pm t n injections R b :
  p_bindsReturnValueAs pm = Some b → b ≠ EmptyString →
  ∃ m, heap (action_method (Some pm) t n injections R) !! length (heap R)
       = Some (OMethod m) ∧
    bindsReturnValueAs m = Some b ∧
    base_name b ∈ m_fulfills (am_meta m) ∧
    ∀ k, k ∈ default [] (p_fulfills pm) → base_name k ∈ m_fulfills (am_meta m).
Proof.
  intros Hb Hne. rewrite action_method_unfold. cbn [heap].
  eexists. split; [by rewrite list_lookup_middle|].
  unfold method_record. cbn [mbind option_bind]. rewrite Hb. cbn [truthy].
  rewrite bool_decide_eq_false_2 by done.
  cbn [bindsReturnValueAs am_meta populate m_fulfills m_dependsOn m_group
       m_target populateActionMetadata kl_fulfills kl_dependsOn declared].
  rewrite !normalizeKeys_dedup_first. split; [done|].
  split.
  - rewrite elem_of_dedup_first. apply list_elem_of_fmap_2.
    rewrite !elem_of_app. right. right. left.
  - intros k Hk. rewrite elem_of_dedup_first. apply list_elem_of_fmap_2.
    rewrite !elem_of_app. right. by left.
Qed.

Lemma bindsReturnValueAs_fulfilled_witness :
  ∃ m, heap (action_method
         (Some {| p_group := None; p_fulfills := Some ["invocation"];
                  p_dependsOn := Some ["tracingId"];
                  p_bindsReturnValueAs := Some "result" |})
         (TProto "MethodInvoker") "invoke" [] empty_registry) !! 0
       = Some (OMethod m) ∧
    bindsReturnValueAs m = Some "result" ∧
    "result" ∈ m_fulfills (am_meta m).
Proof.
  destruct (bindsReturnValueAs_fulfilled
    {| p_group := None; p_fulfills := Some ["invocation"];
       p_dependsOn := Some ["tracingId"];
       p_bindsReturnValueAs := Some "result" |}
    (TProto "MethodInvoker") "invoke" [] empty_registry "result")
    as (m & Hm & Hb & Hf & _); [reflexivity|done|].
  exists m. by split_and!.
Defined.

(** X5.  The groups the decorator computes: the class, an instance
    method and a static method of the same names (the method name is
    not ['']) get three different groups; a non-empty [group] in the
    argument replaces the computed one, for a class and for a method; an
    empty or absent one does not, for a class, an instance method and a
    static method alike. *)
Theorem group_naming cls n injections R :
  n ≠ EmptyString →
  let gc := last_group (action_class None cls injections R) in
  let gi := last_group (action_method None (TProto cls) n injections R) in
  let gs := last_group (action_method None (TClass cls) n injections R) in
  gc = Some ("class:" +:+ cls) ∧
  gi = Some ("method:" +:+ cls +:+ ".prototype." +:+ n) ∧
  gs = Some ("method:" +:+ cls +:+ "." +:+ n) ∧
  gc ≠ gi ∧ gc ≠ gs ∧ gi ≠ gs ∧
  (∀ pm g t, p_group pm = Some g → g ≠ EmptyString →
     last_group (action_class (Some pm) cls injections R) = Some g ∧
     last_group (action_method (Some pm) t n injections R) = Some g) ∧
  (∀ pm, p_group pm = Some EmptyString ∨ p_group pm = None →
     last_group (action_class (Some pm) cls injections R) = gc ∧
     last_group (action_method (Some pm) (TProto cls) n injections R) = gi ∧
     last_group (action_method (Some pm) (TClass cls) n injections R) = gs).
Proof.
  intros _. cbn zeta. unfold last_group.
  rewrite !action_method_unfold, !action_class_unfold. cbn [heap].
  rewrite !last_snoc. cbn [mbind option_bind meta_of fmap option_fmap option_map].
  split_and!; [done|done|done|by cbn|by cbn| | |].
  - cbn. intros [= H]. apply (f_equal String.length) in H.
    rewrite !string_length_app in H. cbn in H. lia.
  - intros pm g t Hg Hne. rewrite !action_method_unfold, action_class_unfold.
    cbn [heap].
    rewrite !last_snoc.
    cbn [mbind option_bind meta_of fmap option_fmap option_map].
    unfold method_record. destruct (_ ≫= _);
      cbn [am_meta populate m_group declared mbind option_bind];
      rewrite Hg; cbn [truthy]; by rewrite bool_decide_eq_false_2.
  - intros pm Hg. rewrite !action_method_unfold, action_class_unfold.
    cbn [heap]. rewrite !last_snoc.
    cbn [mbind option_bind meta_of fmap option_fmap option_map].
    assert (truthy (p_group pm) = None) as Hgrp.
    { by destruct Hg as [-> | ->]. }
    unfold method_record. split_and!.
    + cbn [populate m_group declared mbind option_bind]. by rewrite Hgrp.
    + destruct (_ ≫= _);
        cbn [am_meta populate m_group declared mbind option_bind];
        by rewrite Hgrp.
    + destruct (_ ≫= _);
        cbn [am_meta populate m_group declared mbind option_bind];
        by rewrite Hgrp.
Qed.

Lemma group_naming_witness :
  "start" ≠ EmptyString ∧
  last_group (action_method
    (Some {| p_group := Some EmptyString; p_fulfills := None;
             p_dependsOn := None; p_bindsReturnValueAs := None |})
    (TProto "StopWatch") "start" [] empty_registry)
  = last_group (action_method None (TProto "StopWatch") "start" [] empty_registry).
Proof.
  split; [done|].
  apply (group_naming "StopWatch" "start" [] empty_registry); [done|].
  by left.
Defined.

(** X6.  Whatever classes and methods are decorated, in whatever order:
    every class-level entry of the registry leads to a record whose
    target is that class, every entry of a method mapping leads to the
    record registered under that method, with that name and target; no
    name is twice in a mapping, the names are in enumeration order and
    ['__proto__'] is none of them; the [fulfills] and [dependsOn] lists
    of every registered record have no duplicates and no ['#']; and no
    method record has an [actionClass] yet. *)
Theorem decorated_well_formed (R : Reflector) :
  decorated R →
  well_formed R ∧
  (∀ l m, heap R !! l = Some (OMethod m) → actionClass m = None) ∧
  (∀ l c, heap R !! l ≠ Some (OClass c)).
Proof.
  induction 1 as [|meta t n injections R HR IH Hn|meta cls injections R HR IH].
  - split_and!; [apply well_formed_empty|by intros ?? ?|by intros ?? ?].
  - destruct IH as (Hwf & Hac & Hnc).
    split_and!; [by apply well_formed_action_method|..];
      rewrite action_method_unfold; cbn [heap].
    + intros l m [Hl|[_ Hl]]%lookup_app_Some; [by eapply Hac|].
      destruct (l - length (heap R)) as [|k]; [|done].
      by injection Hl as <-.
    + intros l c [Hl|[_ Hl]]%lookup_app_Some; [by eapply Hnc|].
      by destruct (l - length (heap R)) as [|k].
  - destruct IH as (Hwf & Hac & Hnc).
    split_and!; [by apply well_formed_action_class|..];
      rewrite action_class_unfold; cbn [heap].
    + intros l m [Hl|[_ Hl]]%lookup_app_Some; [by eapply Hac|].
      by destruct (l - length (heap R)) as [|k].
    + intros l c [Hl|[_ Hl]]%lookup_app_Some; [by eapply Hnc|].
      by destruct (l - length (heap R)) as [|k].
Qed.

Lemma decorated_registry : decorated registry.
Proof.
  unfold registry.
  repeat first [apply decorated_class | apply decorated_method; [|done]].
  apply decorated_empty.
Qed.

Lemma decorated_well_formed_witness : well_formed SmallExample.small_registry.
Proof.
  apply (decorated_well_formed SmallExample.small_registry).
  apply decorated_class, decorated_method; [apply decorated_empty|done].
Defined.

End DecoratorMore.

(** ** The nodes of a graph *)

Module CensusFacts.
Import Keys KeysFacts Topo TopoFacts Action GraphFacts RegistryFacts OrderFacts.
Export CensusSpec.

Lemma keys_of_key_items i ks : keys_of (node <$> key_items i ks) = ks.
Proof.
  revert i. induction ks as [|k ks IH]; intros i; [done|].
  cbn. f_equal. apply IH.
Qed.

Lemma objects_of_key_items i ks : objects_of (node <$> key_items i ks) = [].
Proof.
  revert i. induction ks as [|k ks IH]; intros i; [done|].
  cbn [key_items]. rewrite fmap_cons. unfold objects_of.
  rewrite filter_cons_False by done. apply IH.
Qed.

Lemma keys_of_app ns1 ns2 : keys_of (ns1 ++ ns2) = keys_of ns1 ++ keys_of ns2.
Proof. apply omap_app. Qed.

Lemma objects_of_app ns1 ns2 :
  objects_of (ns1 ++ ns2) = objects_of ns1 ++ objects_of ns2.
Proof. apply filter_app. Qed.

(** What one call of [addActionToGraph] adds to the items. *)
Lemma addActionToGraph_items g n meta g' :
  addActionToGraph g n meta = inr g' →
  _items g' = _items g
    ++ key_items (length (_items g))
         (missing g (m_fulfills meta ++ m_dependsOn meta))
    ++ [action_item (length (_items g)
                     + length (missing g (m_fulfills meta ++ m_dependsOn meta)))
          n meta].
Proof.
  rewrite addActionToGraph_add_keys.
  destruct (add_keys g _) as [e|g2] eqn:Hk; [done|]. intros Ha.
  apply add_keys_inr in Hk as (Hit2 & _ & _).
  apply add_inr in Ha as [Hit _].
  rewrite Hit, Hit2, length_app, length_key_items, <- app_assoc. done.
Qed.

Lemma elem_of_keys_of_items (items : list (Item Node)) k :
  k ∈ keys_of (node <$> items) → ∃ it, it ∈ items ∧ node it = NKey k.
Proof.
  unfold keys_of. rewrite list_elem_of_omap.
  intros (n & (it & -> & Hit)%list_elem_of_fmap & Hk).
  exists it. split; [done|]. by destruct (node it); simplify_eq/=.
Qed.

Lemma key_items_inv i ks it k :
  it ∈ key_items i ks → node it = NKey k →
  group it = k ∧ before it = [] ∧ after it = [] ∧ k ∈ ks.
Proof.
  revert i. induction ks as [|k0 ks IH]; intros i; cbn [key_items].
  - by intros ?%elem_of_nil.
  - intros [->|Hin]%elem_of_cons Hn.
    + cbn in Hn. injection Hn as ->. split_and!; [done|done|done|left].
    + destruct (IH _ Hin Hn) as (? & ? & ? & ?). split_and!; [done..|by right].
Qed.

Lemma grown_key_nodes_ok g : grown g → built g ∧ key_nodes_ok g.
Proof.
  induction 1 as [|g l meta g' Hg [Hb [Hgrp Hnd]] Ha].
  - split; [apply built_new|]. split; [by intros ?? ?%elem_of_nil|constructor].
  - split; [by eapply addActionToGraph_built; [apply Hb|]|].
    pose proof (addActionToGraph_items _ _ _ _ Ha) as Hit.
    set (ks := missing g (m_fulfills meta ++ m_dependsOn meta)) in *.
    split.
    + intros it k. rewrite Hit, !elem_of_app.
      intros [Hin|[Hin|Hin%list_elem_of_singleton]] Hn.
      * by apply Hgrp.
      * destruct (key_items_inv _ _ _ _ Hin Hn) as (? & ? & ? & _). done.
      * by subst it.
    + rewrite Hit, !fmap_app, !keys_of_app, keys_of_key_items.
      cbn. rewrite app_nil_r. apply NoDup_app. split_and!; [done| |apply NoDup_missing].
      intros k (it & Hin & Hn)%elem_of_keys_of_items Hk.
      apply elem_of_missing in Hk as [_ Hk]. apply Hk.
      exists it. split; [done|]. by apply Hgrp.
Qed.

Lemma sortActionClasses_loop_grown R g classes g' :
  sortActionClasses_loop R g classes = inr g' → grown g → grown g'.
Proof.
  revert g. induction classes as [|c classes IH]; intros g; cbn.
  - by intros [= <-].
  - destruct (action_key R !! TClass c) as [l|]; [|done].
    destruct ((heap R !! l) ≫= meta_of) as [meta|]; [|done].
    destruct (addActionToGraph g (NObj l) meta) as [e|g1] eqn:Ha; [done|].
    intros Hloop Hg. eapply IH; [done|]. by eapply grown_add.
Qed.

Lemma sortActions_methods_grown ic d ms R g R' g' :
  sortActions_methods ic d ms R g = (R', inr g') → grown g → grown g'.
Proof.
  revert R g. induction ms as [|[n0 l0] ms IH]; intros R g;
    cbn [sortActions_methods].
  - by intros [= <- <-].
  - set (R1 := if ic then _ else R). clearbody R1.
    destruct ((heap R1 !! l0) ≫= meta_of) as [mm|]; [|done].
    destruct (addActionToGraph g (NObj l0) mm) as [e|g1] eqn:Ha; [done|].
    intros Hloop Hg. eapply IH; [done|]. by eapply grown_add.
Qed.

Lemma sortActions_loop_grown ic classes R g R' g' :
  sortActions_loop ic classes R g = (R', inr g') → grown g → grown g'.
Proof.
  revert R g. induction classes as [|c classes IH]; intros R g;
    cbn [sortActions_loop].
  - by intros [= <- <-].
  - destruct (inspectAction c R) as [R1 d].
    set (ms := match heap R1 !! d with Some (OClass c0) => methods c0 | _ => [] end).
    clearbody ms.
    set (step1 := if ic then _ else _).
    destruct step1 as [e|g1] eqn:Hstep; [done|].
    assert (grown g → grown g1) as Hg1.
    { intros Hg. unfold step1 in Hstep. destruct ic; [|by simplify_eq].
      case_match; [|done]. by eapply grown_add. }
    clear Hstep.
    destruct (sortActions_methods ic d ms R1 g1) as [R2 [e|g2]] eqn:Hms; [done|].
    intros Hloop Hg. eapply IH; [done|].
    eapply sortActions_methods_grown; [done|]. by apply Hg1.
Qed.

Lemma produced_grown removeKeys ag :
  produced removeKeys ag → ∃ g, grown g ∧ ag = finish g removeKeys.
Proof.
  intros [(R & classes & H)|(R & classes & ic & R' & H)].
  - unfold sortActionClasses in H.
    destruct (sortActionClasses_loop R new classes) as [e|g] eqn:Hl; [done|].
    injection H as <-. exists g. split; [|done].
    eapply sortActionClasses_loop_grown; [done|constructor].
  - unfold sortActions in H.
    destruct (sortActions_loop ic classes R new) as [R1 [e|g]] eqn:Hl; [done|].
    injection H as <- <-. exists g. split; [|done].
    eapply sortActions_loop_grown; [done|constructor].
Qed.

Lemma keys_of_Permutation ns1 ns2 : ns1 ≡ₚ ns2 → keys_of ns1 ≡ₚ keys_of ns2.
Proof. intros H. unfold keys_of. by rewrite H. Qed.

Lemma objects_of_Permutation ns1 ns2 :
  ns1 ≡ₚ ns2 → objects_of ns1 ≡ₚ objects_of ns2.
Proof. intros H. unfold objects_of. by rewrite H. Qed.

Lemma built_nodes_Permutation g : built g → nodes g ≡ₚ node <$> _items g.
Proof.
  intros [_ (s & Hs & ->)]. by rewrite (sort_perm _ _ Hs).
Qed.

Lemma addActionToGraph_objects g l meta g' :
  addActionToGraph g (NObj l) meta = inr g' →
  objects_of (node <$> _items g') = objects_of (node <$> _items g) ++ [NObj l].
Proof.
  intros Hit%addActionToGraph_items.
  rewrite Hit, !fmap_app, !objects_of_app, objects_of_key_items. done.
Qed.

Lemma sortActionClasses_loop_objects R g classes g' :
  sortActionClasses_loop R g classes = inr g' →
  ∃ locs, Forall2 (λ c l, action_key R !! TClass c = Some l) classes locs ∧
    objects_of (node <$> _items g')
    = objects_of (node <$> _items g) ++ (NObj <$> locs).
Proof.
  revert g. induction classes as [|c classes IH]; intros g; cbn.
  - intros [= <-]. exists []. split; [constructor|]. by rewrite app_nil_r.
  - destruct (action_key R !! TClass c) as [l|] eqn:Hl; [|done].
    destruct ((heap R !! l) ≫= meta_of) as [meta|]; [|done].
    destruct (addActionToGraph g (NObj l) meta) as [e|g1] eqn:Ha; [done|].
    intros (locs & HF & Ho)%IH. exists (l :: locs). split; [by constructor|].
    rewrite Ho, (addActionToGraph_objects _ _ _ _ Ha), <- app_assoc. done.
Qed.

Lemma sortActions_methods_objects ic d ms R g R' g' :
  sortActions_methods ic d ms R g = (R', inr g') →
  length (heap R') = length (heap R) ∧
  objects_of (node <$> _items g')
  = objects_of (node <$> _items g) ++ (NObj <$> map snd ms).
Proof.
  revert R g. induction ms as [|[n0 l0] ms IH]; intros R g;
    cbn [sortActions_methods].
  - intros [= <- <-]. by rewrite app_nil_r.
  - set (R1 := if ic then _ else R).
    assert (length (heap R1) = length (heap R)) as Hlen.
    { unfold R1. destruct ic; [|done]. repeat case_match; try done.
      cbn. by rewrite length_insert. }
    clearbody R1.
    destruct ((heap R1 !! l0) ≫= meta_of) as [mm|]; [|done].
    destruct (addActionToGraph g (NObj l0) mm) as [e|g1] eqn:Ha; [done|].
    intros [Hl Ho]%IH. split; [congruence|].
    rewrite Ho, (addActionToGraph_objects _ _ _ _ Ha), <- app_assoc. done.
Qed.

Lemma length_foldl_stamp_eq d ls h : length (foldl (stamp d) h ls) = length h.
Proof. apply length_foldl_stamp. Qed.

Lemma inspectAction_length cls R :
  length (heap (fst (inspectAction cls R))) = S (length (heap R)).
Proof.
  unfold inspectAction. cbn [fst heap].
  rewrite length_foldl_stamp, length_app. cbn. lia.
Qed.

Lemma sortActions_loop_objects ic classes R g R' g' :
  sortActions_loop ic classes R g = (R', inr g') → built g →
  length (heap R') = length (heap R) + length classes ∧
  objects_of (node <$> _items g')
  = objects_of (node <$> _items g) ++ census ic R (length (heap R)) classes.
Proof.
  revert R g. induction classes as [|c classes IH]; intros R g;
    cbn [sortActions_loop census].
  - intros [= <- <-] _. by rewrite app_nil_r, Nat.add_0_r.
  - pose proof (inspectAction_length c R) as Hlen1.
    destruct (inspectAction c R) as [R1 d] eqn:Hins. cbn [fst] in Hlen1.
    apply inspectAction_spec in Hins as (-> & HR1 & Hd).
    rewrite Hd. cbn [methods].
    set (step1 := if ic then _ else _).
    destruct step1 as [e|g1] eqn:Hstep; [done|].
    assert (built g → built g1 ∧
            objects_of (node <$> _items g1)
            = objects_of (node <$> _items g)
              ++ (if ic then [NObj (length (heap R))] else [])) as Hg1.
    { intros Hb. unfold step1 in Hstep. destruct ic.
      - case_match; [|done].
        split; [by eapply addActionToGraph_built; [apply Hb|]|].
        by eapply addActionToGraph_objects.
      - simplify_eq. by rewrite app_nil_r. }
    clear Hstep.
    destruct (sortActions_methods ic _ _ R1 g1) as [R2 [e|g2]] eqn:Hms; [done|].
    intros Hloop Hb. destruct (Hg1 Hb) as [Hb1 Ho1].
    destruct (sortActions_methods_inr _ _ _ _ _ _ _ Hms Hb1)
      as (HR2 & Hb2 & _ & _).
    apply sortActions_methods_objects in Hms as [Hlen2 Ho2].
    destruct (IH _ _ Hloop Hb2) as [Hlen' Ho'].
    assert (extends R R2) as (_ & _ & Hkey & _) by (by etrans).
    split; [cbn [length]; lia|].
    rewrite Ho', Ho2, Ho1, <- !app_assoc. do 3 f_equal.
    assert (length (heap R2) = S (length (heap R))) as -> by lia.
    assert (∀ n cs, census ic R2 n cs = census ic R n cs) as Hcen.
    { intros n cs. revert n. induction cs as [|c0 cs IHcs]; intros n; [done|].
      cbn [census]. unfold methods_of. by rewrite Hkey, IHcs. }
    apply Hcen.
Qed.

Lemma actions_finish g removeKeys :
  actions (finish g removeKeys)
  = if removeKeys then objects_of (nodes g) else nodes g.
Proof. by destruct removeKeys. Qed.

Lemma graph_finish g removeKeys : graph (finish g removeKeys) = g.
Proof. by destruct removeKeys. Qed.

Lemma keys_of_objects_of ns : keys_of (objects_of ns) = [].
Proof.
  unfold objects_of. induction ns as [|[k|l] ns IH]; [done|..].
  - rewrite filter_cons_False by (cbn; congruence). apply IH.
  - rewrite filter_cons_True by done. apply IH.
Qed.

Lemma objects_of_idemp ns : objects_of (objects_of ns) = objects_of ns.
Proof.
  unfold objects_of. rewrite list_filter_filter. apply list_filter_iff. tauto.
Qed.

End CensusFacts.

Module CensusMore.
Import Keys KeysFacts Topo TopoFacts Action GraphFacts RegistryFacts OrderFacts.
Import CensusFacts Examples SmallExample.

(** X7.  In every graph the two sorting functions return, a key has at
    most one node; a key node carries its key as group and an empty
    [before] and [after] list; with [removeKeys] no key is left among
    the actions. *)
Theorem key_nodes_unique (removeKeys : bool) (ag : ActionGraph) :
  produced removeKeys ag →
  NoDup (keys_of (nodes (graph ag))) ∧
  NoDup (keys_of (actions ag)) ∧
  (removeKeys = true → keys_of (actions ag) = []) ∧
  (∀ it k, it ∈ _items (graph ag) → node it = NKey k →
     group it = k ∧ before it = [] ∧ after it = []).
Proof.
  intros (g & Hg & ->)%produced_grown.
  destruct (grown_key_nodes_ok _ Hg) as [Hb [Hgrp Hnd]].
  rewrite graph_finish, actions_finish.
  assert (NoDup (keys_of (nodes g))) as Hnodes.
  { by rewrite (keys_of_Permutation _ _ (built_nodes_Permutation _ Hb)). }
  split_and!; [done| | |done].
  - destruct removeKeys; [rewrite keys_of_objects_of; constructor|done].
  - intros ->. apply keys_of_objects_of.
Qed.

Lemma key_nodes_unique_witness :
  ∃ R' ag, sortActions ["A"] true false small_registry = (R', inr ag) ∧
    NoDup (keys_of (actions ag)).
Proof.
  destruct (sortActions ["A"] true false small_registry) as [R' [e|ag]] eqn:Heq.
  - exfalso. vm_compute in Heq. discriminate.
  - exists R', ag. split; [done|].
    apply (key_nodes_unique false). right.
    by exists small_registry, ["A"], true, R'.
Defined.

(** X8.  [sortActionClasses] adds one object node per entry of the class
    list, the class-level record of that class, in the order of the
    list; sorting keeps them all, and with [removeKeys] they are all
    there is: the actions are a permutation of these records and as many
    as the classes listed. *)
Theorem sortActionClasses_census R (classes : list Constructor) removeKeys ag :
  sortActionClasses R classes removeKeys = inr ag →
  ∃ locs,
    Forall2 (λ c l, action_key R !! TClass c = Some l) classes locs ∧
    objects_of (node <$> _items (graph ag)) = NObj <$> locs ∧
    objects_of (actions ag) ≡ₚ NObj <$> locs ∧
    (removeKeys = true →
       actions ag ≡ₚ NObj <$> locs ∧ length (actions ag) = length classes).
Proof.
  unfold sortActionClasses.
  destruct (sortActionClasses_loop R new classes) as [e|g] eqn:Hl; [done|].
  intros [= <-].
  destruct (sortActionClasses_loop_inr _ _ _ _ Hl built_new) as (Hb & _ & _).
  apply sortActionClasses_loop_objects in Hl as (locs & HF & Ho).
  cbn in Ho. exists locs.
  rewrite graph_finish, actions_finish.
  assert (objects_of (nodes g) ≡ₚ NObj <$> locs) as Hn.
  { by rewrite (objects_of_Permutation _ _ (built_nodes_Permutation _ Hb)), Ho. }
  split_and!; [done|done| |].
  - destruct removeKeys; [by rewrite objects_of_idemp|done].
  - intros ->. split; [done|].
    rewrite Hn, length_fmap. symmetry. by eapply Forall2_length.
Qed.

Lemma sortActionClasses_census_witness :
  ∃ ag, sortActionClasses small_registry ["A"; "A"] true = inr ag ∧
    length (actions ag) = 2.
Proof.
  destruct (sortActionClasses small_registry ["A"; "A"] true) as [e|ag] eqn:Heq.
  - exfalso. vm_compute in Heq. discriminate.
  - exists ag. split; [done|].
    destruct (sortActionClasses_census _ _ _ _ Heq) as (locs & _ & _ & _ & Hr).
    by destruct (Hr eq_refl).
Defined.

(** X9.  [sortActions] adds, class by class in the order of the list,
    the new descriptor of the class when the classes are included and
    then every method record registered for the prototype of the class,
    in the enumeration order of the mapping; sorting keeps them all,
    and with [removeKeys] they are all there is.  Every class listed
    costs one new object of the heap. *)
Theorem sortActions_census (classes : list Constructor) includeClasses removeKeys
    R R' ag :
  sortActions classes includeClasses removeKeys R = (R', inr ag) →
  let objs := census includeClasses R (length (heap R)) classes in
  objects_of (node <$> _items (graph ag)) = objs ∧
  objects_of (actions ag) ≡ₚ objs ∧
  (removeKeys = true → actions ag ≡ₚ objs) ∧
  length (heap R') = length (heap R) + length classes.
Proof.
  unfold sortActions.
  destruct (sortActions_loop includeClasses classes R new) as [R1 [e|g]] eqn:Hl;
    [done|].
  intros [= <- <-]. cbn zeta.
  destruct (sortActions_loop_inr _ _ _ _ _ _ Hl built_new) as (_ & Hb & _ & _).
  apply sortActions_loop_objects in Hl as [Hlen Ho]; [|apply built_new].
  cbn in Ho.
  rewrite graph_finish, actions_finish.
  assert (objects_of (nodes g) ≡ₚ census includeClasses R (length (heap R)) classes)
    as Hn.
  { by rewrite (objects_of_Permutation _ _ (built_nodes_Permutation _ Hb)), Ho. }
  split_and!; [done| | |done].
  - destruct removeKeys; [by rewrite objects_of_idemp|done].
  - by intros ->.
Qed.

Lemma sortActions_census_witness :
  ∃ R' ag, sortActions ["A"] true true small_registry = (R', inr ag) ∧
    actions ag ≡ₚ [NObj 2; NObj 0].
Proof.
  destruct (sortActions ["A"] true true small_registry) as [R' [e|ag]] eqn:Heq.
  - exfalso. vm_compute in Heq. discriminate.
  - exists R', ag. split; [done|].
    exact (proj1 (proj2 (proj2 (sortActions_census _ _ _ _ _ _ Heq))) eq_refl).
Defined.

End CensusMore.

(** ** What inspection and sorting leave alone *)

Module FrameFacts.
Import Keys KeysFacts Topo TopoFacts Action GraphFacts RegistryFacts OrderFacts.
Export FrameSpec.

Lemma obj_stamped_refl o : obj_stamped o o.
Proof. by left. Qed.

Lemma set_actionClass_twice d d' o :
  set_actionClass d' (set_actionClass d o) = set_actionClass d' o.
Proof. by destruct o. Qed.

Lemma obj_stamped_trans o1 o2 o3 :
  obj_stamped o1 o2 → obj_stamped o2 o3 → obj_stamped o1 o3.
Proof.
  intros [->|[d ->]] [->|[d' ->]]; [by left|right; by exists d'|right; by exists d|].
  right. exists d'. apply set_actionClass_twice.
Qed.

Lemma obj_stamped_meta_of o o' : obj_stamped o o' → meta_of o' = meta_of o.
Proof. intros [->|[d ->]]; [done|]. by destruct o. Qed.

Lemma stamped_refl R : stamped R R.
Proof. split_and!; try done. intros l o ?. exists o. split; [done|by left]. Qed.

Lemma stamped_trans R1 R2 R3 : stamped R1 R2 → stamped R2 R3 → stamped R1 R3.
Proof.
  intros (?&?&?&H12) (?&?&?&H23). split_and!; try congruence.
  intros l o Hl. destruct (H12 _ _ Hl) as (o2 & Hl2 & ?).
  destruct (H23 _ _ Hl2) as (o3 & ? & ?). exists o3.
  split; [done|by eapply obj_stamped_trans].
Qed.

Lemma inspectAction_stamped cls R : stamped R (fst (inspectAction cls R)).
Proof.
  unfold inspectAction. cbn [fst]. split_and!; try done. cbn [heap].
  intros l o Hl.
  rewrite foldl_stamp_lookup, lookup_app_l by (by eapply lookup_lt_Some).
  rewrite Hl. cbn [fmap option_fmap option_map]. eexists. split; [done|].
  case_bool_decide; [right; by eexists|by left].
Qed.

Lemma sortActions_methods_false d ms R g :
  fst (sortActions_methods false d ms R g) = R.
Proof.
  revert g. induction ms as [|[n0 l0] ms IH]; intros g;
    cbn [sortActions_methods]; [done|].
  destruct ((heap R !! l0) ≫= meta_of) as [mm|]; [|done].
  destruct (addActionToGraph g (NObj l0) mm) as [e|g1]; [done|]. apply IH.
Qed.

Lemma sortActions_loop_false_stamped classes R g :
  stamped R (fst (sortActions_loop false classes R g)).
Proof.
  revert R g. induction classes as [|c classes IH]; intros R g;
    cbn [sortActions_loop]; [apply stamped_refl|].
  pose proof (inspectAction_stamped c R) as H1.
  destruct (inspectAction c R) as [R1 d]. cbn [fst] in H1.
  set (ms := match heap R1 !! d with Some (OClass c0) => methods c0 | _ => [] end).
  clearbody ms.
  pose proof (sortActions_methods_false d ms R1 g) as H2.
  destruct (sortActions_methods false d ms R1 g) as [R2 [e|g2]];
    cbn [fst] in H2; subst R2; [done|].
  eapply stamped_trans; [done|]. apply IH.
Qed.

End FrameFacts.

Module FrameMore.
Import Keys KeysFacts Topo TopoFacts Action GraphFacts RegistryFacts OrderFacts.
Import FrameFacts CensusSpec SmallExample.

(** X10.  [sortActions] without the classes leaves every entry of the
    registry and, but for the [actionClass] of method records, every
    object of the heap as it finds them, whether it returns or raises:
    group, [fulfills], [dependsOn] and target of every record stay. *)
Theorem sortActions_without_classes_keeps_records
    (classes : list Constructor) (removeKeys : bool) (R : Reflector) :
  let R' := fst (sortActions classes false removeKeys R) in
  action_key R' = action_key R ∧
  action_key_method R' = action_key_method R ∧
  action_methods_key R' = action_methods_key R ∧
  ∀ l o, heap R !! l = Some o →
    ∃ o', heap R' !! l = Some o' ∧ meta_of o' = meta_of o ∧
      (o' = o ∨ ∃ d, o' = set_actionClass d o).
Proof.
  cbn zeta.
  assert (fst (sortActions classes false removeKeys R)
          = fst (sortActions_loop false classes R new)) as ->.
  { unfold sortActions. by destruct (sortActions_loop _ _ _ _) as [? [?|?]]. }
  destruct (sortActions_loop_false_stamped classes R new) as (? & ? & ? & Hh).
  split_and!; [done..|].
  intros l o Hl. destruct (Hh _ _ Hl) as (o' & ? & Hs). exists o'.
  split_and!; [done|by apply obj_stamped_meta_of|done].
Qed.

(** X11.  [inspectAction] allocates the descriptor at the end of the
    heap, with a copy of the class-level properties and the registered
    method mapping; it sets the [actionClass] of the method records
    registered for the prototype of the class and changes nothing else:
    the entries of the registry and all other objects stay. *)
Theorem inspectAction_frame (cls : Constructor) (R : Reflector) :
  let R1 := fst (inspectAction cls R) in
  let d := snd (inspectAction cls R) in
  d = length (heap R) ∧ length (heap R1) = S (length (heap R)) ∧
  action_key R1 = action_key R ∧
  action_key_method R1 = action_key_method R ∧
  action_methods_key R1 = action_methods_key R ∧
  heap R1 !! d = Some (OClass
    {| ac_meta := ((action_key R !! TClass cls) ≫= (λ l, heap R !! l)) ≫= meta_of;
       methods := default [] (action_methods_key R !! TProto cls) |}) ∧
  ∀ l o, heap R !! l = Some o →
    heap R1 !! l =
    Some (if bool_decide (l ∈ methods_of R cls) then set_actionClass d o else o).
Proof.
  cbn zeta. unfold inspectAction, methods_of. cbn [fst snd heap action_key
    action_key_method action_methods_key].
  split_and!; try done.
  - rewrite CensusFacts.length_foldl_stamp_eq, length_app. cbn. lia.
  - rewrite foldl_stamp_lookup, list_lookup_middle by done.
    cbn [fmap option_fmap option_map]. by case_bool_decide.
  - intros l o Hl.
    rewrite foldl_stamp_lookup, lookup_app_l by (by eapply lookup_lt_Some).
    by rewrite Hl.
Qed.

End FrameMore.

(** ** Errors of the sorting functions *)

Module ErrorFacts.
Import Keys KeysFacts Topo TopoFacts Action GraphFacts RegistryFacts OrderFacts.

Lemma sortActionClasses_loop_undecorated R g classes cls :
  cls ∈ classes → action_key R !! TClass cls = None →
  ∃ e, sortActionClasses_loop R g classes = inl e.
Proof.
  intros Hin Hnone. revert g.
  induction classes as [|c classes IH]; intros g; [by apply elem_of_nil in Hin|].
  cbn [sortActionClasses_loop].
  destruct (decide (c = cls)) as [->|Hne].
  - rewrite Hnone. by eexists.
  - apply elem_of_cons in Hin as [->|Hin]; [done|].
    destruct (action_key R !! TClass c) as [l|]; [|by eexists].
    destruct ((heap R !! l) ≫= meta_of) as [meta|]; [|by eexists].
    destruct (addActionToGraph g (NObj l) meta) as [e|g1]; [by eexists|].
    by apply IH.
Qed.

Lemma sortActions_loop_undecorated classes cls R g :
  cls ∈ classes → action_key R !! TClass cls = None → built g →
  ∃ R' e, sortActions_loop true classes R g = (R', inl e).
Proof.
  intros Hin. revert R g.
  induction classes as [|c classes IH]; intros R g Hnone Hb;
    [by apply elem_of_nil in Hin|].
  cbn [sortActions_loop].
  destruct (inspectAction c R) as [R1 d] eqn:Hins.
  apply inspectAction_spec in Hins as (-> & HR1 & Hd).
  rewrite Hd. cbn [methods mbind option_bind meta_of ac_meta].
  destruct (decide (c = cls)) as [->|Hne].
  - rewrite Hnone. cbn [mbind option_bind]. by eexists _, _.
  - apply elem_of_cons in Hin as [->|Hin]; [done|].
    destruct (_ ≫= meta_of) as [meta|]; [|by eexists _, _].
    destruct (addActionToGraph g (NObj (length (heap R))) meta) as [e|g1] eqn:Ha;
      [by eexists _, _|].
    pose proof (addActionToGraph_built _ _ _ _ (proj1 Hb) Ha) as Hb1.
    destruct (sortActions_methods true _ _ R1 g1) as [R2 [e|g2]] eqn:Hms;
      [by eexists _, _|].
    destruct (sortActions_methods_inr _ _ _ _ _ _ _ Hms Hb1)
      as (HR2 & Hb2 & _ & _).
    apply IH; [done| |done].
    destruct HR1 as (Hk1 & _), HR2 as (Hk2 & _). by rewrite Hk2, Hk1.
Qed.

End ErrorFacts.

Module ErrorMore.
Import Keys KeysFacts Topo TopoFacts Action GraphFacts RegistryFacts OrderFacts.
Import ErrorFacts SmallExample.

(** X12.  A class of the list that has no class-level metadata makes
    [sortActionClasses] raise an error, and [sortActions] too when the
    classes are included; neither returns a graph. *)
Theorem undecorated_class_fails
    (R : Reflector) (classes : list Constructor) (cls : Constructor)
    (removeKeys : bool) :
  cls ∈ classes → action_key R !! TClass cls = None →
  (∃ e, sortActionClasses R classes removeKeys = inl e) ∧
  (∃ R' e, sortActions classes true removeKeys R = (R', inl e)).
Proof.
  intros Hin Hnone. split.
  - unfold sortActionClasses.
    destruct (sortActionClasses_loop_undecorated R new classes cls Hin Hnone)
      as [e ->]. by exists e.
  - unfold sortActions.
    destruct (sortActions_loop_undecorated classes cls R new Hin Hnone built_new)
      as (R' & e & ->). by exists R', e.
Qed.

Lemma undecorated_class_fails_witness :
  (∃ e, sortActionClasses small_registry ["A"; "B"] false = inl e) ∧
  (∃ R' e, sortActions ["A"; "B"] true false small_registry = (R', inl e)).
Proof.
  apply (undecorated_class_fails small_registry ["A"; "B"] "B" false).
  - right. left.
  - vm_compute. reflexivity.
Defined.

End ErrorMore.

(** ** What the executor binds *)

Module BindFacts.
Import Topo Action Sequence SequenceFacts.
Export BindSpec.

Section Run.
Context {Instance Value World Failure : Type}.
Abbreviation Handlers := (Handlers Instance Value World Failure).
Implicit Types (H : Handlers) (R : Reflector) (w : World) (ms : list Node).

Lemma truthy_Some s k : Decorator.truthy s = Some k → s = Some k ∧ k ≠ EmptyString.
Proof.
  destruct s as [v|]; cbn; [|done]. case_bool_decide; [done|].
  by intros [= <-].
Qed.

Ltac lens := unfold invoked, looked_up, bound_keys; cbn; lia.

Lemma trace_ok_nil R ms : trace_ok (Instance := Instance) (Value := Value) R ms [].
Proof. split_and!; [by intros ? ?%elem_of_nil..|done|done]. Qed.

Lemma trace_ok_get R ms key :
  trace_ok (Instance := Instance) (Value := Value) R ms [EGet key].
Proof. split_and!; [by intros ? ?%elem_of_nil..|done|lens]. Qed.

Lemma trace_ok_mono R n ms (tr : list (Event Instance Value)) :
  trace_ok R ms tr → trace_ok R (n :: ms) tr.
Proof.
  intros (Hb & Hi & ? & ?). split_and!; [| |done|done].
  - intros k Hk. destruct (Hb _ Hk) as (? & l & m & ? & ?).
    split; [done|]. exists l, m. split; [by right|done].
  - intros k Hk. destruct (Hi _ Hk) as (l & m & ? & ?).
    exists l, m. split; [by right|done].
Qed.

Lemma trace_ok_invoke R l m ms key (v : Instance)
    (tr : list (Event Instance Value)) :
  heap R !! l = Some (OMethod m) →
  trace_ok R ms tr →
  trace_ok R (NObj l :: ms) (EGet key :: EInvoke v (method m) :: tr).
Proof.
  intros Hl Hok. apply (trace_ok_mono R (NObj l)) in Hok.
  destruct Hok as (Hb & Hi & H0 & H1). split_and!; [done| |revert H0 H1; lens|revert H0 H1; lens].
  intros n [->|Hn]%elem_of_cons; [|by apply Hi].
  exists l, m. split; [left|done].
Qed.

Lemma trace_ok_bind R l m ms key (v : Instance) b (r : Value)
    (tr : list (Event Instance Value)) :
  heap R !! l = Some (OMethod m) →
  Decorator.truthy (bindsReturnValueAs m) = Some b →
  trace_ok R ms tr →
  trace_ok R (NObj l :: ms)
    (EGet key :: EInvoke v (method m) :: EBind b r :: tr).
Proof.
  intros Hl [Hb' Hne]%truthy_Some Hok. apply (trace_ok_mono R (NObj l)) in Hok.
  destruct Hok as (Hb & Hi & H0 & H1). split_and!; [| |revert H0 H1; lens|revert H0 H1; lens].
  - intros k [->|Hk]%elem_of_cons; [|by apply Hb].
    split; [done|]. exists l, m. split; [left|done].
  - intros n [->|Hn]%elem_of_cons; [|by apply Hi].
    exists l, m. split; [left|done].
Qed.

Lemma exec_trace_ok H R ms w : trace_ok R ms (exec H (run_loop R ms) w).1.1.
Proof.
  revert w. induction ms as [|n ms IH]; intros w; [apply trace_ok_nil|].
  destruct n as [k|l]; [apply trace_ok_nil|]. cbn [run_loop].
  destruct (heap R !! l) as [[a|m|c]|] eqn:Hl; try apply trace_ok_nil.
  unfold run_step. destruct (owner_name R m) as [name|]; [|apply trace_ok_nil].
  cbn [exec]. destruct (h_get H _ w) as [w1 [f|v]]; [apply trace_ok_get|].
  cbn [exec]. destruct (h_invoke H v _ w1) as [w2 [f|result]].
  { apply (trace_ok_invoke R l m ms _ v []); [done|apply trace_ok_nil]. }
  destruct result as [r|];
    [destruct (Decorator.truthy (bindsReturnValueAs m)) as [b|] eqn:Hb|].
  - cbn [exec]. specialize (IH (h_bind H b r w2)).
    destruct (exec H (run_loop R ms) (h_bind H b r w2)) as [[tr w'] o].
    by apply trace_ok_bind.
  - specialize (IH w2). destruct (exec H (run_loop R ms) w2) as [[tr w'] o].
    by apply trace_ok_invoke.
  - specialize (IH w2). destruct (exec H (run_loop R ms) w2) as [[tr w'] o].
    by apply trace_ok_invoke.
Qed.

(** X13.  Whatever the collaborators do, every key [run] binds is the
    non-empty [bindsReturnValueAs] of a method node it went through and
    every method it invokes is the method of such a node; it binds at
    most once per invocation and invokes at most once per lookup. *)
Theorem run_binds_only_declared H R ms w :
  let tr := (exec H (run_loop R ms) w).1.1 in
  (∀ k, k ∈ bound_keys tr →
     k ≠ EmptyString ∧
     ∃ l m, NObj l ∈ ms ∧ heap R !! l = Some (OMethod m) ∧
       bindsReturnValueAs m = Some k) ∧
  (∀ n, n ∈ invoked tr →
     ∃ l m, NObj l ∈ ms ∧ heap R !! l = Some (OMethod m) ∧ method m = n) ∧
  length (bound_keys tr) ≤ length (invoked tr) ∧
  length (invoked tr) ≤ length (looked_up tr).
Proof. apply exec_trace_ok. Qed.

End Run.
End BindFacts.

(** ** The diagram *)

Module DotFacts.
Import Topo Action Sequence Dot.





Lemma starts_with_app p s : starts_with p (p +:+ s) = true.
Proof.
  unfold starts_with. induction p as [|c p IH]; simpl; [by destruct s|].
  destruct (ascii_dec c c) as [_|Hne]; [exact IH|by destruct Hne].
Qed.

Lemma substring_from_app p s : substring_from (String.length p) (p +:+ s) = s.
Proof. induction p as [|c p IH]; cbn; [by destruct s|done]. Qed.


End DotFacts.

Module DotMore.
Import Topo Action Sequence Dot DotFacts Examples.


(** X15.  The names the diagram shows: a leading [class:] and after it
    a leading [method:] are cut off, once each, and the rest is put in
    double quotes; so the default group of a class, of a method and a
    key of the same text show the same name. *)
Theorem normalize_strips_namespace (s : string) :
  starts_with "class:" s = false → starts_with "method:" s = false →
  normalize s = dq +:+ s +:+ dq ∧
  normalize ("class:" +:+ s) = dq +:+ s +:+ dq ∧
  normalize ("method:" +:+ s) = dq +:+ s +:+ dq ∧
  normalize ("class:method:" +:+ s) = dq +:+ s +:+ dq ∧
  normalize ("method:class:" +:+ s) = dq +:+ "class:" +:+ s +:+ dq.
Proof.
  intros Hc Hm.
  assert (normalize s = dq +:+ s +:+ dq) as H0.
  { unfold normalize. by rewrite Hc, Hm. }
  assert (normalize ("class:" +:+ s) = dq +:+ s +:+ dq) as H1.
  { unfold normalize. by rewrite starts_with_app, substring_from_app, Hm. }
  assert (∀ t, normalize ("method:" +:+ t) = dq +:+ t +:+ dq) as H2.
  { intros t. unfold normalize.
    assert (starts_with "class:" ("method:" +:+ t) = false) as -> by done.
    by rewrite starts_with_app, substring_from_app. }
  split_and!; [done|done|apply H2| |apply H2].
  change ("class:method:" +:+ s) with ("class:" +:+ "method:" +:+ s).
  unfold normalize.
  by rewrite starts_with_app, substring_from_app, starts_with_app,
    substring_from_app.
Qed.

Lemma normalize_strips_namespace_witness :
  normalize "class:Logger" = dq +:+ "Logger" +:+ dq.
Proof.
  apply (normalize_strips_namespace "Logger"); reflexivity.
Defined.

(** The diagram the test of the repository expects for its five classes,
    with single quotes for the double ones; the statements follow the
    sorted order of the items. *)
Example generates_dot_text :
  match sortActions test_classes true true registry with
  | (R', inr ag) =>
      single_quoted
        (generateDot R' (default [] (sort (_items (graph ag)))) None)
  | _ => EmptyString
  end =
"digraph action_dependency_graph {
  'log.prefix' [shape='ellipse'];
  'log.level' [shape='ellipse'];
  'Logger' [shape='box'];
  'Logger' -> {'logging'};
  {'log.prefix' 'log.level'} -> 'Logger';
  'logging' [shape='ellipse'];
  'timer-group' [shape='box'];
  'HttpServer' [shape='box'];
  'HttpServer.prototype.createRequest' [shape='box', style='rounded'];
  'HttpServer.prototype.createRequest' -> {'http.request'};
  {'HttpServer'} -> 'HttpServer.prototype.createRequest';
  'http.request' [shape='ellipse'];
  'StopWatch.prototype.start' [shape='box', style='rounded'];
  'StopWatch.prototype.start' -> {'startTime'};
  {'http.request' 'timer-group'} -> 'StopWatch.prototype.start';
  'startTime' [shape='ellipse'];
  'MethodInvoker' [shape='box'];
  'Tracing' [shape='box'];
  'Tracing.prototype.setupTracingId' [shape='box', style='rounded'];
  'Tracing.prototype.setupTracingId' -> {'tracingId'};
  {'http.request' 'Tracing'} -> 'Tracing.prototype.setupTracingId';
  'tracingId' [shape='ellipse'];
  'MethodInvoker.prototype.invoke' [shape='box', style='rounded'];
  'MethodInvoker.prototype.invoke' -> {'invocation' 'result'};
  {'tracingId' 'MethodInvoker'} -> 'MethodInvoker.prototype.invoke';
  'invocation' [shape='ellipse'];
  'StopWatch.prototype.stop' [shape='box', style='rounded'];
  'StopWatch.prototype.stop' -> {'duration'};
  {'startTime' 'invocation' 'timer-group'} -> 'StopWatch.prototype.stop';
  'duration' [shape='ellipse'];
  'Logger.prototype.log' [shape='box', style='rounded'];
  {'tracingId' 'duration' 'invocation' 'Logger'} -> 'Logger.prototype.log';
  'result' [shape='ellipse'];
}
".
Proof. vm_compute. reflexivity. Qed.

End DotMore.

(** ** The owners of the method nodes *)

Module OwnerFacts.
Import Keys KeysFacts Topo TopoFacts Action GraphFacts RegistryFacts OrderFacts.
Import Sequence SequenceFacts CensusFacts DecoratorFacts.
Export OwnerSpec.

Lemma well_formed_linked R : well_formed R → linked R.
Proof.
  intros [Hc Hm]. split.
  - intros cls l Hl. destruct (Hc _ _ Hl) as (c & a & [= <-] & ? & ? & _).
    by exists a.
  - intros t ms n l Hms Hin. destruct (Hm _ _ Hms) as (_ & _ & _ & Hall).
    destruct (Hall _ _ Hin) as (Hne & _ & m & ? & Hmn & ? & _).
    exists m. split_and!; [done|congruence|done].
Qed.

Lemma pushed_refl R : pushed R R.
Proof.
  split_and!; try done. intros l o ?. exists o. split; [done|]. by destruct o.
Qed.

Lemma pushed_trans R1 R2 R3 : pushed R1 R2 → pushed R2 R3 → pushed R1 R3.
Proof.
  intros (?&?&?&H12) (?&?&?&H23). split_and!; try congruence.
  intros l o Hl. destruct (H12 _ _ Hl) as (o2 & Hl2 & Ho2).
  destruct (H23 _ _ Hl2) as (o3 & Hl3 & Ho3). exists o3. split; [done|].
  destruct o as [a|m|c], o2 as [a2|m2|c2]; try done; subst; try done.
  destruct o3 as [a3|m3|c3]; try done.
  destruct Ho2 as (?&?&?), Ho3 as (?&?&?). split_and!; congruence.
Qed.

Lemma pushed_linked R R' : pushed R R' → linked R → linked R'.
Proof.
  intros (Hk & Hms & _ & Hh) [Hc Hm]. split.
  - intros cls l. rewrite Hk. intros Hl. destruct (Hc _ _ Hl) as (a & Ha & ?).
    destruct (Hh _ _ Ha) as (o' & ? & ->). by exists a.
  - intros t ms n l. rewrite Hms. intros Hmst Hin.
    destruct (Hm _ _ _ _ Hmst Hin) as (m & Hl & ? & ?).
    destruct (Hh _ _ Hl) as ([a|m'|c] & ? & Ho); try done.
    destruct Ho as (? & ? & ?). exists m'. split_and!; congruence.
Qed.

Lemma pushed_owned R R' l cls : pushed R R' → owned R l cls → owned R' l cls.
Proof.
  intros (_ & _ & _ & Hh) (m & d & c & a & Hl & Hd & Hc & ? & ?).
  destruct (Hh _ _ Hl) as ([a'|m'|c'] & Hl' & Ho); try done.
  destruct Ho as (? & ? & ?).
  destruct (Hh _ _ Hc) as (o' & Hc' & ->).
  exists m', d, c, a. split_and!; try done. congruence.
Qed.

Lemma pushed_update R l o grp :
  heap R !! l = Some o →
  pushed R (set_heap R (<[l := push_dependsOn grp o]> (heap R))).
Proof.
  intros Hl. split_and!; try done; cbn [heap set_heap].
  - by rewrite length_insert.
  - intros l' o1 Hl'. destruct (decide (l = l')) as [->|Hne].
    + rewrite list_lookup_insert_eq by (by eapply lookup_lt_Some).
      eexists. split; [done|]. assert (o1 = o) as -> by congruence.
      by destruct o.
    + rewrite list_lookup_insert_ne by done. exists o1. split; [done|].
      by destruct o1.
Qed.

Lemma sortActions_methods_pushed ic d ms R g :
  pushed R (fst (sortActions_methods ic d ms R g)).
Proof.
  revert R g. induction ms as [|[n0 l0] ms IH]; intros R g;
    cbn [sortActions_methods]; [apply pushed_refl|].
  set (R1 := if ic then _ else R).
  assert (pushed R R1) as HR1.
  { unfold R1. destruct ic; [|apply pushed_refl].
    destruct ((heap R !! d) ≫= meta_of) as [cm|]; [|apply pushed_refl].
    destruct (heap R !! l0) as [o|] eqn:Ho; [|apply pushed_refl].
    by apply pushed_update. }
  clearbody R1.
  destruct ((heap R1 !! l0) ≫= meta_of) as [mm|]; [|done].
  destruct (addActionToGraph g (NObj l0) mm) as [e|g1]; [done|].
  eapply pushed_trans; [done|]. apply IH.
Qed.

(** After the inspection of a class with class-level metadata its method
    records are owned by it, and the other records keep their owner. *)
Lemma inspectAction_owned cls R lc :
  linked R → action_key R !! TClass cls = Some lc →
  let R1 := fst (inspectAction cls R) in
  linked R1 ∧
  (∀ l, l ∈ methods_of R cls → owned R1 l cls) ∧
  (∀ l c, owned R l c → l ∉ methods_of R cls → owned R1 l c).
Proof.
  intros [Hc Hm] Hlc. cbn zeta.
  destruct (Hc _ _ Hlc) as (a & Ha & Hta).
  assert (∀ l o, heap R !! l = Some o →
    heap (fst (inspectAction cls R)) !! l
    = Some (if bool_decide (l ∈ methods_of R cls)
            then set_actionClass (length (heap R)) o else o)) as Hold.
  { intros l o Hl. unfold inspectAction, methods_of. cbn [fst heap].
    rewrite foldl_stamp_lookup, lookup_app_l by (by eapply lookup_lt_Some).
    by rewrite Hl. }
  assert (heap (fst (inspectAction cls R)) !! length (heap R)
          = Some (OClass {| ac_meta := Some a;
                            methods := default [] (action_methods_key R !! TProto cls) |}))
    as Hnew.
  { unfold inspectAction. cbn [fst heap].
    rewrite foldl_stamp_lookup, list_lookup_middle by done.
    cbn [fmap option_fmap option_map]. rewrite Hlc. cbn [mbind option_bind].
    rewrite Ha. cbn [mbind option_bind meta_of]. by case_bool_decide. }
  split_and!.
  - split.
    + intros c l Hl. change (action_key (fst (inspectAction cls R))) with (action_key R) in Hl.
      destruct (Hc _ _ Hl) as (a' & Ha' & ?). exists a'. split; [|done].
      rewrite (Hold _ _ Ha'). by case_bool_decide.
    + intros t ms n l Hms Hin.
      change (action_methods_key (fst (inspectAction cls R)))
        with (action_methods_key R) in Hms.
      destruct (Hm _ _ _ _ Hms Hin) as (m & Hl & ? & ?).
      rewrite (Hold _ _ Hl). case_bool_decide; eexists; split_and!; done.
  - intros l Hl. unfold methods_of in Hl.
    assert (∃ n, (n, l) ∈ default [] (action_methods_key R !! TProto cls)) as [n Hn].
    { apply list_elem_of_In, in_map_iff in Hl as ([n l'] & <- & Hin).
      exists n. by apply list_elem_of_In. }
    destruct (action_methods_key R !! TProto cls) as [ms|] eqn:Hms;
      [|by apply elem_of_nil in Hn].
    destruct (Hm _ _ _ _ Hms Hn) as (m & Hlm & ? & ?).
    eexists _, (length (heap R)), _, a.
    split.
    { rewrite (Hold _ _ Hlm), bool_decide_eq_true_2; [reflexivity|].
      unfold methods_of. by rewrite Hms. }
    split; [reflexivity|]. split; [exact Hnew|done].
  - intros l c (m & d & c0 & a0 & Hl & Hd & Hc0 & ? & ?) Hnot.
    exists m, d, c0, a0. split_and!; try done.
    + rewrite (Hold _ _ Hl). by rewrite bool_decide_eq_false_2.
    + rewrite (Hold _ _ Hc0). by case_bool_decide.
Qed.

Lemma decorated_linked R : decorated R → linked R.
Proof.
  intros HR. apply well_formed_linked.
  induction HR; [apply well_formed_empty|by apply well_formed_action_method|
    by apply well_formed_action_class].
Qed.

Lemma extends_linked R R' : extends R R' → linked R → linked R'.
Proof.
  intros (Hk & _ & Hms & Hh) [Hc Hm]. split.
  - intros cls l. rewrite Hk. intros Hl. destruct (Hc _ _ Hl) as (a & Ha & ?).
    destruct (Hh _ _ Ha) as ([a'|m'|c'] & ? & Ho); try done.
    cbn in Ho. subst a'. by exists a.
  - intros t ms n l. rewrite Hms. intros Hmst Hin.
    destruct (Hm _ _ _ _ Hmst Hin) as (m & Hl & ? & ?).
    destruct (Hh _ _ Hl) as ([a|m'|c] & ? & Ho); try done.
    destruct Ho as (_ & _ & ? & _ & ? & _). exists m'. split_and!; congruence.
Qed.

Lemma methods_of_pushed R R' cls : pushed R R' → methods_of R' cls = methods_of R cls.
Proof. intros (_ & Hms & _). unfold methods_of. by rewrite Hms. Qed.

Lemma linked_methods_of R cls1 cls2 l :
  linked R → l ∈ methods_of R cls1 → l ∈ methods_of R cls2 → cls1 = cls2.
Proof.
  intros [_ Hm] H1 H2.
  assert (∀ cls, l ∈ methods_of R cls →
    ∃ m, heap R !! l = Some (OMethod m) ∧ m_target (am_meta m) = TProto cls) as Ht.
  { intros cls Hl. unfold methods_of in Hl.
    apply list_elem_of_In, in_map_iff in Hl as ([n l'] & <- & Hin).
    apply list_elem_of_In in Hin.
    destruct (action_methods_key R !! TProto cls) as [ms|] eqn:Hms;
      [|by apply elem_of_nil in Hin].
    destruct (Hm _ _ _ _ Hms Hin) as (m & ? & _ & ?). by exists m. }
  destruct (Ht _ H1) as (m1 & Hl1 & Ht1), (Ht _ H2) as (m2 & Hl2 & Ht2).
  congruence.
Qed.

(** The class loop of [sortActions] with the classes included: when it
    ends, the method records of the classes it went through are owned by
    their class, and the descriptors it allocated are class descriptors. *)
Lemma sortActions_loop_owned classes R g R' g' :
  sortActions_loop true classes R g = (R', inr g') → linked R →
  linked R' ∧
  (∀ cls l, cls ∈ classes → l ∈ methods_of R cls → owned R' l cls) ∧
  (∀ cls l, owned R l cls → l ∈ methods_of R cls → owned R' l cls) ∧
  (∀ d c, heap R !! d = Some (OClass c) → heap R' !! d = Some (OClass c)) ∧
  (∀ i, i < length classes →
     ∃ c, heap R' !! (length (heap R) + i) = Some (OClass c)).
Proof.
  revert R g. induction classes as [|c0 classes IH]; intros R g;
    cbn [sortActions_loop].
  - intros [= <- <-] HR. split_and!; [done| |done|done|].
    + by intros ?? ?%elem_of_nil.
    + cbn. lia.
  - pose proof (inspectAction_length c0 R) as Hlen1.
    pose proof (inspectAction_owned c0 R) as Hown.
    destruct (inspectAction c0 R) as [R1 d] eqn:Hins. cbn [fst] in Hlen1, Hown.
    apply inspectAction_spec in Hins as (-> & HR1 & Hd).
    rewrite Hd. cbn [methods mbind option_bind meta_of ac_meta].
    destruct ((action_key R !! TClass c0 ≫= λ l : nat, heap R !! l) ≫= meta_of)
      as [meta|] eqn:Hmeta; [|done].
    destruct (action_key R !! TClass c0) as [lc|] eqn:Hlc; [|done].
    destruct (addActionToGraph g (NObj (length (heap R))) meta) as [e|g1]; [done|].
    pose proof (sortActions_methods_pushed true (length (heap R))
      (default [] (action_methods_key R !! TProto c0)) R1 g1) as Hpush.
    destruct (sortActions_methods true _ _ R1 g1) as [R2 [e|g2]]; [done|].
    cbn [fst] in Hpush.
    intros Hloop HR. destruct (Hown lc HR eq_refl) as (HlR1 & Hnew & Hkeep).
    pose proof (pushed_linked _ _ Hpush HlR1) as HlR2.
    destruct (IH _ _ Hloop HlR2) as (HlR' & Hcls & Hold & Hdesc & Hidx).
    assert (∀ cls, methods_of R2 cls = methods_of R cls) as Hmo.
    { intros cls. rewrite (methods_of_pushed _ _ _ Hpush).
      destruct HR1 as (_ & _ & Hms & _). unfold methods_of. by rewrite Hms. }
    assert (∀ cls l, owned R l cls → l ∈ methods_of R cls → owned R' l cls)
      as Hold'.
    { intros cls l Ho Hl. apply Hold; [|by rewrite Hmo].
      eapply pushed_owned; [done|].
      destruct (decide (l ∈ methods_of R c0)) as [Hin|Hnin].
      - rewrite <- (linked_methods_of R c0 cls l HR Hin Hl). by apply Hnew.
      - by apply Hkeep. }
    assert (∀ d c, heap R1 !! d = Some (OClass c) → heap R' !! d = Some (OClass c))
      as Hdesc1.
    { intros d c Hdc. apply Hdesc. destruct Hpush as (_ & _ & _ & Hh).
      by destruct (Hh _ _ Hdc) as (o' & ? & ->). }
    split_and!; [done| |done| |].
    + intros cls l [->|Hin]%elem_of_cons Hl.
      * apply Hold; [|by rewrite Hmo]. eapply pushed_owned; [done|]. by apply Hnew.
      * apply Hcls; [done|by rewrite Hmo].
    + intros d c Hdc. apply Hdesc1.
      destruct HR1 as (_ & _ & _ & Hh).
      destruct (Hh _ _ Hdc) as ([a'|m'|c'] & ? & Ho); try done.
      cbn in Ho. by subst c'.
    + intros [|i] Hi.
      * rewrite Nat.add_0_r. eexists. by apply Hdesc1.
      * cbn [length] in Hi. destruct (Hidx i) as [c Hc]; [lia|].
        exists c. rewrite <- Hc. f_equal.
        destruct Hpush as (_ & _ & Hlen2 & _). lia.
Qed.

Lemma census_elem ic R next classes n :
  n ∈ census ic R next classes →
  (∃ i, i < length classes ∧ n = NObj (next + i)) ∨
  (∃ cls l, cls ∈ classes ∧ l ∈ methods_of R cls ∧ n = NObj l).
Proof.
  revert next. induction classes as [|c classes IH]; intros next; cbn [census].
  - by intros ?%elem_of_nil.
  - rewrite !elem_of_app. intros [Hd|[Hm|Hr]].
    + left. exists 0. destruct ic; [|by apply elem_of_nil in Hd].
      apply list_elem_of_singleton in Hd as ->. cbn [length].
      split; [lia|]. by rewrite Nat.add_0_r.
    + right. apply list_elem_of_fmap in Hm as (l & -> & Hl).
      exists c, l. split_and!; [left|done|done].
    + destruct (IH _ Hr) as [(i & Hi & ->)|(cls & l & ? & ? & ->)].
      * left. exists (S i). cbn [length]. split; [lia|]. f_equal. lia.
      * right. exists cls, l. split_and!; [by right|done|done].
Qed.

Lemma owned_owner_name R l cls m :
  owned R l cls → heap R !! l = Some (OMethod m) → owner_name R m = Some cls.
Proof.
  intros (m' & d & c & a & Hl & Hd & Hc & Ha & Ht) Hm.
  assert (m' = m) as -> by congruence.
  unfold owner_name. rewrite Hd, Hc. cbn [mbind option_bind meta_of].
  rewrite Ha, Ht. done.
Qed.

(** The method nodes of the graph [buildGraph] builds. *)
Lemma buildGraph_method_nodes S R R' S' ag n :
  linked R → actionGraph S = None →
  buildGraph S R = (R', inr (S', ag)) →
  n ∈ actions ag → has_method R' n = true →
  ∃ l m cls, n = NObj l ∧ heap R' !! l = Some (OMethod m) ∧
    cls ∈ actionClasses S ∧ l ∈ methods_of R cls ∧
    owner_name R' m = Some cls.
Proof.
  intros HR HS. unfold buildGraph, sortActions. rewrite HS.
  destruct (sortActions_loop true (actionClasses S) R new) as [R1 [e|g]] eqn:Hl;
    [done|].
  intros [= <- <- <-]. rewrite actions_finish. intros Hn Hm.
  destruct (sortActions_loop_inr _ _ _ _ _ _ Hl built_new) as (_ & Hb & _ & _).
  destruct (sortActions_loop_owned _ _ _ _ _ Hl HR) as (_ & Hcls & _ & _ & Hidx).
  apply sortActions_loop_objects in Hl as [_ Ho]; [|apply built_new].
  cbn in Ho.
  destruct n as [k|l]; [done|]. cbn [has_method] in Hm.
  destruct (heap R1 !! l) as [[a|m|c]|] eqn:Hlm; try done.
  assert (NObj l ∈ census true R (length (heap R)) (actionClasses S)) as Hcen.
  { rewrite <- Ho. unfold objects_of. apply list_elem_of_filter. split; [done|].
    by rewrite <- (built_nodes_Permutation _ Hb). }
  apply census_elem in Hcen as [(i & Hi & [= ->])|(cls & l' & Hc & Hl' & [= <-])].
  - destruct (Hidx _ Hi) as [c Hc]. congruence.
  - exists l, m, cls. split_and!; try done.
    eapply owned_owner_name; [|done]. by apply Hcls.
Qed.




Section Run.
Context {Instance Value World Failure : Type}.
Implicit Types (H : Handlers Instance Value World Failure) (w : World).

Lemma exec_run_loop_owned H R (P : string → Prop) ms w :
  (∀ n, n ∈ ms → ∃ l m cls, n = NObj l ∧ heap R !! l = Some (OMethod m) ∧
     owner_name R m = Some cls ∧ P cls) →
  (∀ e, (exec H (run_loop R ms) w).2 ≠ RejectedWith e) ∧
  (∀ k, k ∈ BindSpec.looked_up (exec H (run_loop R ms) w).1.1 →
     ∃ cls, P cls ∧ k = "actions." +:+ cls).
Proof.
  revert w. induction ms as [|n ms IH]; intros w Hms.
  { cbn. split; [done|]. by intros ? ?%elem_of_nil. }
  destruct (Hms n) as (l & m & cls & -> & Hl & Hown & HP); [left|].
  assert (∀ w', (∀ e, (exec H (run_loop R ms) w').2 ≠ RejectedWith e) ∧
    (∀ k, k ∈ BindSpec.looked_up (exec H (run_loop R ms) w').1.1 →
       ∃ cls, P cls ∧ k = "actions." +:+ cls)) as IH'.
  { intros w'. apply IH. intros n' Hn'. apply Hms. by right. }
  clear IH Hms.
  assert (∀ (tr : list (Event Instance Value)),
    (∀ k, k ∈ BindSpec.looked_up tr → ∃ cls, P cls ∧ k = "actions." +:+ cls) →
    ∀ k, k ∈ BindSpec.looked_up (EGet ("actions." +:+ cls) :: tr) →
      ∃ cls, P cls ∧ k = "actions." +:+ cls) as Hget.
  { intros tr Htr k. unfold BindSpec.looked_up. cbn [omap list_omap].
    intros [->|Hk]%elem_of_cons; [by exists cls|by apply Htr]. }
  cbn [run_loop]. rewrite Hl. unfold run_step. rewrite Hown. cbn [exec].
  destruct (h_get H _ w) as [w1 [f|v]].
  { cbn. split; [done|]. apply (Hget []). by intros ? ?%elem_of_nil. }
  cbn [exec]. destruct (h_invoke H v _ w1) as [w2 [f|result]].
  { cbn. split; [done|]. apply (Hget [EInvoke v (method m)]).
    by intros ? ?%elem_of_nil. }
  destruct result as [r|];
    [destruct (Decorator.truthy (bindsReturnValueAs m)) as [b|]|].
  - cbn [exec]. destruct (IH' (h_bind H b r w2)) as [Ho Hk].
    destruct (exec H (run_loop R ms) (h_bind H b r w2)) as [[tr w'] o].
    split; [done|]. apply (Hget (EInvoke v (method m) :: EBind b r :: tr)), Hk.
  - destruct (IH' w2) as [Ho Hk].
    destruct (exec H (run_loop R ms) w2) as [[tr w'] o].
    split; [done|]. apply (Hget (EInvoke v (method m) :: tr)), Hk.
  - destruct (IH' w2) as [Ho Hk].
    destruct (exec H (run_loop R ms) w2) as [[tr w'] o].
    split; [done|]. apply (Hget (EInvoke v (method m) :: tr)), Hk.
Qed.

End Run.
End OwnerFacts.

Section ExecutorOrder.
Import Topo Action Sequence SequenceFacts RegistryFacts CensusFacts OwnerFacts.
Context {Instance Value World Failure : Type}.
Implicit Types (H : Handlers Instance Value World Failure) (R : Reflector)
  (w : World).


End ExecutorOrder.

Module OwnerMore.
Import Topo Action Sequence SequenceFacts CensusFacts DecoratorFacts OwnerFacts.
Import SmallExample.

(** X16.  On a registry whose entries lead to records of their targets
    (as the decorators leave it, whatever was inspected or sorted since),
    the first [run] of a sequence whose graph gets built never fails
    with an error of its own: every method node it goes through is a
    method record registered for the prototype of one of the classes of
    the sequence and owned by a descriptor of that class, so that every
    lookup is of a key [bindClasses] binds.  It may still be rejected by
    the context or by the invoker. *)
Theorem run_only_rejected_by_collaborators {Instance Value World Failure}
    (H : Handlers Instance Value World Failure) (w : World)
    (S S' : Sequence) (R R' : Reflector) (ag : ActionGraph) :
  linked R → actionGraph S = None →
  buildGraph S R = (R', inr (S', ag)) →
  let p := (run (Instance := Instance) (Value := Value) S R).2 in
  (∀ n, n ∈ filter (is_method_node R') (actions ag) →
     ∃ l m cls, n = NObj l ∧ heap R' !! l = Some (OMethod m) ∧
       cls ∈ actionClasses S ∧ l ∈ methods_of R cls ∧
       owner_name R' m = Some cls) ∧
  (∀ e, (exec H p w).2 ≠ RejectedWith e) ∧
  (∀ k, k ∈ BindSpec.looked_up (exec H p w).1.1 → k ∈ bindClasses S).
Proof.
  intros HR HS Hb. cbn zeta. unfold run. rewrite Hb. cbn [snd].
  assert (∀ n, n ∈ filter (is_method_node R') (actions ag) →
     ∃ l m cls, n = NObj l ∧ heap R' !! l = Some (OMethod m) ∧
       cls ∈ actionClasses S ∧ l ∈ methods_of R cls ∧
       owner_name R' m = Some cls) as Hnodes.
  { intros n [Hm Hn]%list_elem_of_filter.
    by eapply buildGraph_method_nodes. }
  split; [done|].
  destruct (exec_run_loop_owned H R' (λ cls, cls ∈ actionClasses S)
    (filter (is_method_node R') (actions ag)) w) as [Ho Hk].
  { intros n Hn. destruct (Hnodes n Hn) as (l & m & cls & ? & ? & ? & ? & ?).
    by exists l, m, cls. }
  split; [done|]. intros k Hin. destruct (Hk k Hin) as (cls & Hcls & ->).
  unfold bindClasses. by apply list_elem_of_fmap_2.
Qed.

Lemma run_only_rejected_by_collaborators_witness :
  let S := {| actionClasses := ["A"]; actionGraph := None |} in
  let H : Handlers nat nat unit unit :=
    {| h_get := λ _ w, (w, inr 0); h_invoke := λ _ _ w, (w, inr (Some 1));
       h_bind := λ _ _ w, w |} in
  linked small_registry ∧
  ∀ k, k ∈ BindSpec.looked_up
         (exec H (run (Instance := nat) (Value := nat) S small_registry).2 tt).1.1 →
    k ∈ bindClasses S.
Proof.
  cbn zeta.
  assert (linked small_registry) as HR.
  { apply decorated_linked, decorated_class, decorated_method;
      [apply decorated_empty|done]. }
  split; [done|].
  destruct (buildGraph {| actionClasses := ["A"]; actionGraph := None |}
              small_registry) as [R' [e|[S' ag]]] eqn:Heq.
  - exfalso. vm_compute in Heq. discriminate.
  - exact (proj2 (proj2 (run_only_rejected_by_collaborators _ tt
      {| actionClasses := ["A"]; actionGraph := None |} S' small_registry R' ag
      HR eq_refl Heq))).
Defined.

End OwnerMore.

(** ** Fulfilling before depending *)

Module ClosedFacts.
Import Keys KeysFacts Topo TopoFacts Action GraphFacts RegistryFacts OrderFacts.
Import CensusFacts OwnerFacts.
Export ClosedSpec.

Lemma key_items_plain i ks it :
  it ∈ key_items i ks → before it = [] ∧ after it = [].
Proof.
  revert i. induction ks as [|k0 ks IH]; intros i; cbn [key_items].
  - by intros ?%elem_of_nil.
  - intros [->|Hin]%elem_of_cons; [done|by eapply IH].
Qed.

Lemma grown_closed g : grown g → closed g.
Proof.
  induction 1 as [|g l meta g' Hg IH Ha]; [by intros ?? ?%elem_of_nil|].
  pose proof (addActionToGraph_items _ _ _ _ Ha) as Hit.
  apply addActionToGraph_covers in Ha as [Hgr [_ Hk]].
  intros it k. rewrite Hit, !elem_of_app.
  intros [Hin|[Hin|Hin%list_elem_of_singleton]] Hbk.
  - eapply exists_group_grows; [done|]. by eapply IH.
  - destruct (key_items_plain _ _ _ Hin) as [Hb Ha]. rewrite Hb, Ha in Hbk.
    by destruct Hbk as [?%elem_of_nil|?%elem_of_nil].
  - subst it. by apply Hk.
Qed.

Lemma occurs_before_trans {A} (l : list A) a b c :
  NoDup l → occurs_before l a b → occurs_before l b c → occurs_before l a c.
Proof.
  intros Hnd (i & j & Ha & Hb & Hij)%occurs_before_lookup
    (j' & k & Hb' & Hc & Hjk)%occurs_before_lookup.
  assert (j = j') as <- by (by eapply NoDup_lookup).
  eapply lookup_occurs_before; [done|done|lia].
Qed.

Lemma occurs_before_fmap {A B} (f : A → B) (l : list A) a b :
  occurs_before l a b → occurs_before (f <$> l) (f a) (f b).
Proof.
  intros (l1 & l2 & l3 & ->). exists (f <$> l1), (f <$> l2), (f <$> l3).
  by rewrite fmap_app, fmap_cons, fmap_app, fmap_cons.
Qed.

(** The method loop with the classes included: every method record gets
    an item that names the group of the descriptor in its [after] list. *)
Lemma sortActions_methods_after d c cm ms R g R' g' :
  sortActions_methods true d ms R g = (R', inr g') → built g →
  heap R !! d = Some (OClass c) → ac_meta c = Some cm →
  ∀ n l m, (n, l) ∈ ms → heap R !! l = Some (OMethod m) →
    ∃ b, b ∈ _items g' ∧ node b = NObj l ∧ m_group cm ∈ after b.
Proof.
  revert R g. induction ms as [|[n0 l0] ms IH]; intros R g;
    cbn [sortActions_methods].
  - intros _ _ _ _ ??? []%elem_of_nil.
  - intros Hloop Hb Hd Hcm.
    rewrite Hd in Hloop. cbn [mbind option_bind meta_of] in Hloop.
    rewrite Hcm in Hloop.
    set (R1 := match heap R !! l0 with
               | Some o => set_heap R (<[l0 := push_dependsOn (m_group cm) o]> (heap R))
               | None => R
               end) in *.
    assert (pushed R R1) as HR1.
    { unfold R1. destruct (heap R !! l0) as [o|] eqn:Ho; [|apply pushed_refl].
      by apply pushed_update. }
    assert (∀ m, heap R !! l0 = Some (OMethod m) →
      ∃ mm, (heap R1 !! l0) ≫= meta_of = Some mm ∧
        m_group cm ∈ m_dependsOn mm) as Hhead.
    { intros m Hm. unfold R1. rewrite Hm. cbn [heap set_heap].
      rewrite list_lookup_insert_eq by (by eapply lookup_lt_Some).
      cbn. eexists. split; [done|]. cbn. apply elem_of_app. right. left. }
    assert (heap R1 !! d = Some (OClass c)) as Hd1.
    { destruct HR1 as (_ & _ & _ & Hh). by destruct (Hh _ _ Hd) as (o' & ? & ->). }
    clearbody R1.
    destruct ((heap R1 !! l0) ≫= meta_of) as [mm|] eqn:Hmm; [|done].
    destruct (addActionToGraph g (NObj l0) mm) as [e|g1] eqn:Ha; [done|].
    pose proof (addActionToGraph_built _ _ _ _ (proj1 Hb) Ha) as Hb1.
    destruct (sortActions_methods_inr _ _ _ _ _ _ _ Hloop Hb1)
      as (_ & _ & [ext Hext] & _).
    intros n l m [[= -> ->]|Hin]%elem_of_cons Hl.
    + destruct (Hhead _ Hl) as (mm' & [= <-] & Hg).
      apply addActionToGraph_items in Ha.
      eexists (action_item _ (NObj l0) mm). split_and!; [|done|done].
      rewrite Hext, Ha, !elem_of_app. left. right. right.
      apply list_elem_of_singleton. reflexivity.
    + destruct HR1 as (_ & _ & _ & Hh).
      destruct (Hh _ _ Hl) as ([a'|m'|c'] & Hl1 & Ho); try done.
      by eapply (IH _ _ Hloop Hb1 Hd1 Hcm n l m').
Qed.

(** The class loop with the classes included: the descriptor of every
    class listed has an item whose group every item of a method record
    of the class names in its [after] list. *)
Lemma sortActions_loop_after classes R g R' g' :
  sortActions_loop true classes R g = (R', inr g') → built g →
  ∀ i cls l m, classes !! i = Some cls → l ∈ methods_of R cls →
    heap R !! l = Some (OMethod m) →
    ∃ a b, a ∈ _items g' ∧ b ∈ _items g' ∧
      node a = NObj (length (heap R) + i) ∧ node b = NObj l ∧
      group a ∈ after b.
Proof.
  revert R g. induction classes as [|c0 classes IH]; intros R g;
    cbn [sortActions_loop].
  - by intros _ _ ????.
  - pose proof (inspectAction_length c0 R) as Hlen1.
    destruct (inspectAction c0 R) as [R1 d] eqn:Hins. cbn [fst] in Hlen1.
    apply inspectAction_spec in Hins as (-> & HR1 & Hd).
    rewrite Hd. cbn [methods mbind option_bind meta_of ac_meta].
    destruct ((action_key R !! TClass c0 ≫= λ l : nat, heap R !! l) ≫= meta_of)
      as [meta|] eqn:Hmeta; [|done].
    destruct (addActionToGraph g (NObj (length (heap R))) meta) as [e|g1] eqn:Ha;
      [done|].
    pose proof (sortActions_methods_pushed true (length (heap R))
      (default [] (action_methods_key R !! TProto c0)) R1 g1) as Hpush.
    destruct (sortActions_methods true _ _ R1 g1) as [R2 [e|g2]] eqn:Hms; [done|].
    cbn [fst] in Hpush.
    intros Hloop Hb.
    pose proof (addActionToGraph_built _ _ _ _ (proj1 Hb) Ha) as Hb1.
    destruct (sortActions_methods_inr _ _ _ _ _ _ _ Hms Hb1)
      as (HR2 & Hb2 & [ext2 Hext2] & _).
    destruct (sortActions_loop_inr _ _ _ _ _ _ Hloop Hb2)
      as (_ & _ & [ext' Hext'] & _).
    assert (extends R R2) as HRR2 by (by etrans).
    intros [|i] cls l m Hi Hl Hm.
    + injection Hi as ->. rewrite Nat.add_0_r.
      destruct HR1 as (_ & _ & _ & Hh1).
      destruct (Hh1 _ _ Hm) as ([a'|m1|c'] & Hm1 & Ho); try done.
      assert (∃ n, (n, l) ∈ default [] (action_methods_key R !! TProto cls))
        as [n Hn].
      { unfold methods_of in Hl.
        apply list_elem_of_In, in_map_iff in Hl as ([n l'] & <- & Hin).
        exists n. by apply list_elem_of_In. }
      destruct (sortActions_methods_after _ _ meta _ _ _ _ _ Hms Hb1 Hd eq_refl
        n l m1 Hn Hm1) as (b & Hbin & Hbn & Hbg).
      apply addActionToGraph_items in Ha.
      eexists (action_item _ (NObj (length (heap R))) meta), b.
      split_and!; [|by rewrite Hext'; apply elem_of_app; left|done|done|done].
      rewrite Hext', Hext2, Ha, !elem_of_app. left. left. right. right.
      apply list_elem_of_singleton. reflexivity.
    + cbn in Hi.
      destruct HRR2 as (_ & _ & Hkey & Hh2).
      destruct (Hh2 _ _ Hm) as ([a'|m2|c'] & Hm2 & Ho); try done.
      destruct (IH _ _ Hloop Hb2 i cls l m2 Hi) as (a & b & ? & ? & Hna & ? & ?);
        [unfold methods_of; by rewrite Hkey|done|].
      exists a, b. split_and!; try done. rewrite Hna. f_equal.
      destruct Hpush as (_ & _ & Hlen2 & _). lia.
Qed.

End ClosedFacts.

Module ClosedMore.
Import Keys KeysFacts Topo TopoFacts Action GraphFacts RegistryFacts OrderFacts.
Import CensusFacts OwnerFacts ClosedFacts SmallExample Examples.

(** X17.  In every order [sortActions] or [sortActionClasses] returns,
    a node that names a key in its [before] list stands before every
    node that names this key in its [after] list: what fulfills a key
    comes before what depends on it, also among the actions when the
    keys are removed. *)
Theorem fulfiller_precedes_dependent (removeKeys : bool) (ag : ActionGraph) :
  produced removeKeys ag →
  ∃ s, order_of (graph ag) s ∧
    actions ag = node <$> (if removeKeys then filter is_action s else s) ∧
    ∀ x y k, x ∈ s → y ∈ s → k ∈ before x → k ∈ after y →
      occurs_before s x y ∧ occurs_before (actions ag) (node x) (node y).
Proof.
  intros (g & Hg & ->)%produced_grown.
  destruct (grown_key_nodes_ok _ Hg) as [Hb [Hgrp _]].
  pose proof (grown_closed _ Hg) as Hcl.
  destruct (built_order _ Hb) as (s & Ho & Hr & _).
  pose proof Ho as (_ & Hperm & Hnd & Hn).
  rewrite graph_finish. exists s. split; [done|].
  pose proof (finish_actions g s removeKeys Hn) as Hact.
  split; [done|]. intros x y k Hx Hy Hkx Hky.
  assert (x ∈ _items g) as Hxg by (by rewrite <- Hperm).
  assert (y ∈ _items g) as Hyg by (by rewrite <- Hperm).
  destruct (proj1 (exists_group_true g k) (Hcl x k Hxg (or_introl Hkx)))
    as (K & HKg & HK).
  assert (K ∈ s) as HKs by (by rewrite Hperm).
  assert (occurs_before s x y) as Hxy.
  { eapply (occurs_before_trans s x K y); [done|..].
    - apply (Hr x K); [done|done|by rewrite HK].
    - apply (Hr y K); [done|done|by rewrite HK]. }
  split; [done|]. rewrite Hact.
  apply occurs_before_fmap. destruct removeKeys; [|done].
  assert (∀ it, it ∈ _items g → before it ≠ [] ∨ after it ≠ [] → is_action it)
    as Hia.
  { intros it Hit Hne. unfold is_action. destruct (node it) as [k'|l] eqn:Hnode;
      [|done].
    destruct (Hgrp _ _ Hit Hnode) as (_ & Hb' & Ha'). by destruct Hne. }
  apply occurs_before_filter; [| |done].
  - apply Hia; [done|]. left. intros E. rewrite E in Hkx. by apply elem_of_nil in Hkx.
  - apply Hia; [done|]. right. intros E. rewrite E in Hky. by apply elem_of_nil in Hky.
Qed.

Lemma fulfiller_precedes_dependent_witness :
  ∃ ag, sortActionClasses two_registry ["Consumer"; "Producer"] true = inr ag ∧
    occurs_before (actions ag) (NObj 1) (NObj 0).
Proof.
  destruct (sortActionClasses two_registry ["Consumer"; "Producer"] true)
    as [e|ag] eqn:Heq.
  { exfalso. vm_compute in Heq. discriminate. }
  exists ag. split; [done|].
  destruct (fulfiller_precedes_dependent true ag) as (s & (Hs & _) & _ & Hall).
  { left. by exists two_registry, ["Consumer"; "Producer"]. }
  set (consumer := {| seq := 1; before := []; after := ["data"];
                      group := "class:Consumer"; node := NObj 0 |}).
  set (producer := {| seq := 2; before := ["data"]; after := [];
                      group := "class:Producer"; node := NObj 1 |}).
  vm_compute in Heq. injection Heq as <-.
  vm_compute in Hs. injection Hs as <-.
  destruct (Hall producer consumer "data") as [_ Hgoal];
    [left|do 2 right; left|left|left|exact Hgoal].
Defined.

(** X18.  When [sortActions] includes the classes, the descriptor it
    makes for the class at index [i] of the list stands, among the
    actions returned, before every method record registered for the
    prototype of that class. *)
Theorem class_precedes_its_methods (classes : list Constructor) removeKeys
    R R' ag i cls l m :
  sortActions classes true removeKeys R = (R', inr ag) →
  classes !! i = Some cls → l ∈ methods_of R cls →
  heap R !! l = Some (OMethod m) →
  occurs_before (actions ag) (NObj (length (heap R) + i)) (NObj l).
Proof.
  unfold sortActions.
  destruct (sortActions_loop true classes R new) as [R1 [e|g]] eqn:Hl; [done|].
  intros [= <- <-] Hi Hin Hm.
  destruct (sortActions_loop_inr _ _ _ _ _ _ Hl built_new) as (_ & Hb & _ & _).
  destruct (sortActions_loop_after _ _ _ _ _ Hl built_new i cls l m Hi Hin Hm)
    as (a & b & Ha & Hbi & Hna & Hnb & Hg).
  destruct (built_order _ Hb) as (s & Ho & Hr & _).
  pose proof Ho as (_ & Hperm & Hnd & Hn).
  rewrite (finish_actions g s removeKeys Hn), <- Hna, <- Hnb.
  apply occurs_before_fmap.
  assert (occurs_before s a b) as Hab.
  { apply (Hr b a); [by rewrite Hperm|by rewrite Hperm|done]. }
  destruct removeKeys; [|done].
  apply occurs_before_filter; [| |done]; unfold is_action.
  - by rewrite Hna.
  - by rewrite Hnb.
Qed.

Lemma class_precedes_its_methods_witness :
  ∃ R' ag, sortActions ["A"] true false small_registry = (R', inr ag) ∧
    occurs_before (actions ag) (NObj 2) (NObj 0).
Proof.
  destruct (sortActions ["A"] true false small_registry) as [R' [e|ag]] eqn:Heq.
  { exfalso. vm_compute in Heq. discriminate. }
  destruct (heap small_registry !! 0) as [[a|m|c]|] eqn:Hm.
  1, 3, 4: exfalso; vm_compute in Hm; discriminate.
  exists R', ag. split; [done|].
  apply (class_precedes_its_methods ["A"] false small_registry R' ag 0 "A" 0 m);
    [done|done| |done].
  vm_compute. left.
Defined.

(** X19.  In every graph [sortActions] or [sortActionClasses] returns,
    every key a node names in its [before] or [after] list is the group
    of some node of the graph: no constraint is about a group that is
    not there.  Unless the keys are removed, that node is among the
    actions. *)
Theorem named_keys_have_nodes (removeKeys : bool) (ag : ActionGraph) :
  produced removeKeys ag →
  ∀ it k, it ∈ _items (graph ag) → k ∈ before it ∨ k ∈ after it →
    ∃ K, K ∈ _items (graph ag) ∧ group K = k ∧
      node K ∈ nodes (graph ag) ∧
      (removeKeys = false → node K ∈ actions ag).
Proof.
  intros (g & Hg & ->)%produced_grown.
  destruct (grown_key_nodes_ok _ Hg) as [Hb _].
  pose proof (grown_closed _ Hg) as Hcl.
  rewrite graph_finish, actions_finish. intros it k Hit Hk.
  destruct (proj1 (exists_group_true g k) (Hcl it k Hit Hk)) as (K & HK & Hgrp).
  assert (node K ∈ nodes g) as Hn.
  { rewrite (built_nodes_Permutation _ Hb). by apply list_elem_of_fmap_2. }
  exists K. split_and!; [done|done|done|]. by intros ->.
Qed.

Lemma named_keys_have_nodes_witness :
  ∃ R' ag, sortActions ["A"] true false small_registry = (R', inr ag) ∧
    ∀ it k, it ∈ _items (graph ag) → k ∈ before it ∨ k ∈ after it →
      ∃ K, K ∈ _items (graph ag) ∧ group K = k ∧ node K ∈ actions ag.
Proof.
  destruct (sortActions ["A"] true false small_registry) as [R' [e|ag]] eqn:Heq.
  - exfalso. vm_compute in Heq. discriminate.
  - exists R', ag. split; [done|]. intros it k Hit Hk.
    destruct (named_keys_have_nodes false ag) with (it := it) (k := k)
      as (K & ? & ? & _ & HK); [|done|done|].
    + right. by exists small_registry, ["A"], true, R'.
    + exists K. split_and!; [done|done|by apply HK].
Defined.

End ClosedMore.
